(** * warp2api: the streaming translation engine, embedded and verified

    A shallow embedding of the history normalizer, the request assembler,
    the frame decoder, the two stream translators, the recovery driver and
    the credential pool of the proxy, with the properties of the
    specification stated and settled against it. *)

From Stdlib Require Import String Ascii List ZArith NArith Lia Bool DecimalString.
From Stdlib Require Import Floats.PrimFloat Floats.SpecFloat Floats.FloatOps.
From stdpp Require Import base option list gmap.
Import ListNotations.

Open Scope N_scope.
Open Scope list_scope.

(** ** Python strings

    A Python [str] is a sequence of Unicode code points; [len], slicing,
    [rfind] and [strip] all count code points.  The constants of the source
    are written as UTF-8 literals and decoded by [py]. *)

Module PyStr.

Abbreviation pystr := (list N).

Fixpoint bytes_of_string (s : string) : list N :=
  match s with
  | EmptyString => []
  | String a r => N_of_ascii a :: bytes_of_string r
  end.

Fixpoint utf8_decode (bs : list N) : list N :=
  match bs with
  | [] => []
  | b :: r =>
      if b <? 128 then b :: utf8_decode r
      else if b <? 224 then
        match r with
        | b1 :: r1 => ((b - 192) * 64 + (b1 - 128)) :: utf8_decode r1
        | _ => []
        end
      else if b <? 240 then
        match r with
        | b1 :: b2 :: r2 =>
            ((b - 224) * 4096 + (b1 - 128) * 64 + (b2 - 128)) :: utf8_decode r2
        | _ => []
        end
      else
        match r with
        | b1 :: b2 :: b3 :: r3 =>
            ((b - 240) * 262144 + (b1 - 128) * 4096 + (b2 - 128) * 64 + (b3 - 128))
              :: utf8_decode r3
        | _ => []
        end
  end.

Definition py (s : string) : pystr := utf8_decode (bytes_of_string s).

Definition pystr_eqb (a b : pystr) : bool := bool_decide (a = b).

(** [str.isspace] per code point: the set the interpreter uses for
    [strip()] and for the class [\s] of a [str] pattern. *)
Definition py_isspace (c : N) : bool :=
  ((9 <=? c) && (c <=? 13)) || ((28 <=? c) && (c <=? 32))
  || (c =? 133) || (c =? 160) || (c =? 5760)
  || ((8192 <=? c) && (c <=? 8202))
  || (c =? 8232) || (c =? 8233) || (c =? 8239) || (c =? 8287) || (c =? 12288).

Fixpoint lstrip (s : pystr) : pystr :=
  match s with
  | c :: r => if py_isspace c then lstrip r else s
  | [] => []
  end.

Definition strip (s : pystr) : pystr := rev (lstrip (rev (lstrip s))).

(** Truthiness of a [str]: non-empty. *)
Definition str_truthy (s : pystr) : bool :=
  match s with [] => false | _ => true end.

(** Truthiness of an [Optional[str]]. *)
Definition ostr_truthy (o : option pystr) : bool :=
  match o with Some s => str_truthy s | None => false end.

Fixpoint starts_with (p s : pystr) : bool :=
  match p, s with
  | [], _ => true
  | a :: p', b :: s' => (a =? b) && starts_with p' s'
  | _ :: _, [] => false
  end.

(** [sub in s] *)
Fixpoint contains (sub s : pystr) : bool :=
  starts_with sub s ||
  match s with
  | [] => false
  | _ :: r => contains sub r
  end.

Definition join (sep : pystr) (parts : list pystr) : pystr :=
  match parts with
  | [] => []
  | p :: rest => p ++ flat_map (fun q => sep ++ q) rest
  end.

End PyStr.
Import PyStr.

(** ** Data model (protobuf2openai/models.py) *)

(** One element of a list-valued [content]: a dictionary read through its
    keys "type" and "text"; [seg_rest] keeps the other keys. *)
Record segment := Segment {
  seg_type : option pystr;
  seg_text : option pystr;
  seg_rest : list (pystr * pystr)
}.

Inductive content_t :=
| CNone
| CStr (s : pystr)
| CList (l : list segment).

(** One element of [tool_calls]: {id, type, function:{name, arguments}}. *)
Record tool_call := ToolCall {
  tc_id : option pystr;
  tc_type : option pystr;
  tc_function : option (pystr * pystr)
}.

Record ChatMessage := Msg {
  role : pystr;
  content : content_t;
  tool_call_id : option pystr;
  tool_calls : option (list tool_call);
  name : option pystr
}.

#[global] Instance segment_eq_dec : EqDecision segment.
Proof. solve_decision. Defined.
#[global] Instance content_eq_dec : EqDecision content_t.
Proof. solve_decision. Defined.
#[global] Instance tool_call_eq_dec : EqDecision tool_call.
Proof. solve_decision. Defined.
#[global] Instance ChatMessage_eq_dec : EqDecision ChatMessage.
Proof. solve_decision. Defined.

(** [ChatMessage(role=..., content=...)] with the defaults of the model. *)
Definition mk_msg (r : pystr) (c : content_t) : ChatMessage :=
  Msg r c None None None.

Definition r_user : pystr := Eval vm_compute in py "user".
Definition r_assistant : pystr := Eval vm_compute in py "assistant".
Definition r_tool : pystr := Eval vm_compute in py "tool".
Definition r_system : pystr := Eval vm_compute in py "system".
Definition t_text : pystr := Eval vm_compute in py "text".

Definition is_role (r : pystr) (m : ChatMessage) : bool := pystr_eqb (role m) r.

(** A dictionary is truthy when it has a key. *)
Definition tc_truthy (tc : tool_call) : bool :=
  match tc_id tc, tc_type tc, tc_function tc with
  | None, None, None => false
  | _, _, _ => true
  end.

(** [m.tool_calls] as a condition: a non-empty list. *)
Definition has_tool_calls (m : ChatMessage) : bool :=
  match tool_calls m with
  | Some (_ :: _) => true
  | _ => false
  end.

Definition tool_calls_or_nil (m : ChatMessage) : list tool_call :=
  match tool_calls m with Some l => l | None => [] end.

(** [not content] *)
Definition content_truthy (c : content_t) : bool :=
  match c with
  | CNone => false
  | CStr s => str_truthy s
  | CList l => match l with [] => false | _ => true end
  end.

(** ** helpers.py *)

Definition seg_is_text (seg : segment) : bool :=
  match seg_type seg, seg_text seg with
  | Some t, Some _ => pystr_eqb t t_text
  | _, _ => false
  end.

Definition normalize_item (item : segment) : list segment :=
  let t := match seg_type item with
           | Some ty => if str_truthy ty then Some ty
                        else match seg_text item with Some _ => Some t_text | None => None end
           | None => match seg_text item with Some _ => Some t_text | None => None end
           end in
  match t, seg_text item with
  | Some ty, Some tx =>
      if pystr_eqb ty t_text then [Segment (Some t_text) (Some tx) []]
      else [Segment (Some ty) (Some tx) []]
  | Some ty, None => [Segment (Some ty) None []]
  | None, Some tx => [Segment None (Some tx) []]
  | None, None => []
  end.

Definition normalize_content_to_list (c : content_t) : list segment :=
  match c with
  | CStr s => [Segment (Some t_text) (Some s) []]
  | CList l => flat_map normalize_item l
  | CNone => []
  end.

Definition segments_to_text (segments : list segment) : pystr :=
  flat_map (fun seg =>
              if seg_is_text seg
              then match seg_text seg with Some t => t | None => [] end
              else []) segments.

(** ** The history normalizer (protobuf2openai/reorder.py) *)

Module Reorder.

(** Pass A, first loop: the expansion of one message. *)
Definition expand_message (m : ChatMessage) : list ChatMessage :=
  if is_role r_user m then
    let items := normalize_content_to_list (content m) in
    match content m with
    | CList _ =>
        if (1 <? length items)%nat then
          map (fun seg =>
                 if seg_is_text seg
                 then mk_msg r_user (CStr (default [] (seg_text seg)))
                 else mk_msg r_user (CList [seg])) items
        else [m]
    | _ => [m]
    end
  else if is_role r_assistant m && has_tool_calls m
          && (1 <? length (tool_calls_or_nil m))%nat then
    let _assistant_text := segments_to_text (normalize_content_to_list (content m)) in
    (if str_truthy _assistant_text
     then [mk_msg r_assistant (CStr _assistant_text)] else [])
    ++ map (fun tc => Msg r_assistant (CStr []) None (Some [tc]) None)
           (tool_calls_or_nil m)
  else [m].

Definition expand (history : list ChatMessage) : list ChatMessage :=
  flat_map expand_message history.

(** The backwards scan for the final input: [Some id] when the scan stops
    at a tool message carrying an id ([last_input_is_tool]), [None] when it
    stops at a user message or runs out. *)
Fixpoint scan_last_input (reversed : list ChatMessage) : option pystr :=
  match reversed with
  | [] => None
  | m :: rest =>
      if is_role r_tool m && ostr_truthy (tool_call_id m) then tool_call_id m
      else if is_role r_user m then None
      else scan_last_input rest
  end.

(** The ids of a message's tool calls that are non-empty strings. *)
Definition call_ids (m : ChatMessage) : list pystr :=
  omap (fun tc => match tc_id tc with
                  | Some i => if str_truthy i then Some i else None
                  | None => None
                  end) (tool_calls_or_nil m).

Definition index_step (acc : gmap pystr ChatMessage * gset pystr) (m : ChatMessage)
  : gmap pystr ChatMessage * gset pystr :=
  let '(by_id, tc_ids) := acc in
  let by_id' :=
    match tool_call_id m with
    | Some i =>
        if is_role r_tool m && str_truthy i && bool_decide (by_id !! i = None)
        then <[i := m]> by_id else by_id
    | None => by_id
    end in
  let tc_ids' :=
    if is_role r_assistant m && has_tool_calls m
    then tc_ids ∪ list_to_set (call_ids m) else tc_ids in
  (by_id', tc_ids').

(** [tool_results_by_id] and [assistant_tc_ids]. *)
Definition index_messages (expanded : list ChatMessage)
  : gmap pystr ChatMessage * gset pystr :=
  fold_left index_step expanded (∅, ∅).

(** The state of the main walk. *)
Record walk_state := WalkState {
  result : list ChatMessage;
  trailing_assistant_msg : option ChatMessage;
  tool_results_by_id : gmap pystr ChatMessage
}.

(** [for _id in ids: tr = tool_results_by_id.pop(_id, None); ...] *)
Fixpoint pop_results (ids : list pystr) (res : list ChatMessage)
  (by_id : gmap pystr ChatMessage) : list ChatMessage * gmap pystr ChatMessage :=
  match ids with
  | [] => (res, by_id)
  | i :: rest =>
      match by_id !! i with
      | Some tr => pop_results rest (res ++ [tr]) (delete i by_id)
      | None => pop_results rest res by_id
      end
  end.

Definition walk_step (last_input : option pystr) (assistant_tc_ids : gset pystr)
  (st : walk_state) (m : ChatMessage) : walk_state :=
  if is_role r_tool m then
    if negb (ostr_truthy (tool_call_id m))
       || negb (bool_decide (default [] (tool_call_id m) ∈ assistant_tc_ids))
    then WalkState (result st ++ [m]) (trailing_assistant_msg st)
           (match tool_call_id m with
            | Some i => if str_truthy i then delete i (tool_results_by_id st)
                        else tool_results_by_id st
            | None => tool_results_by_id st
            end)
    else st
  else if is_role r_assistant m && has_tool_calls m then
    let ids := call_ids m in
    if match last_input with
       | Some lid => bool_decide (lid ∈ ids)
       | None => false
       end
    then WalkState (result st)
           (match trailing_assistant_msg st with
            | None => Some m
            | Some t => Some t
            end)
           (tool_results_by_id st)
    else
      let '(res, by_id) := pop_results ids (result st ++ [m]) (tool_results_by_id st) in
      WalkState res (trailing_assistant_msg st) by_id
  else WalkState (result st ++ [m]) (trailing_assistant_msg st) (tool_results_by_id st).

Definition reorder_messages_for_anthropic (history : list ChatMessage)
  : list ChatMessage :=
  match history with
  | [] => []
  | _ =>
      let expanded := expand history in
      let last_input := scan_last_input (rev expanded) in
      let '(by_id, assistant_tc_ids) := index_messages expanded in
      let st := fold_left (walk_step last_input assistant_tc_ids) expanded
                  (WalkState [] None by_id) in
      match last_input, trailing_assistant_msg st with
      | Some lid, Some t =>
          result st ++ [t] ++
          match tool_results_by_id st !! lid with
          | Some tr => [tr]
          | None => []
          end
      | _, _ => result st
      end
  end.

End Reorder.

Module Clean.

Definition no_content : pystr := Eval vm_compute in py "No content".

(** [not msg.content or (isinstance(msg.content, str) and not msg.content.strip())] *)
Definition content_is_empty (c : content_t) : bool :=
  negb (content_truthy c)
  || match c with
     | CStr s => negb (str_truthy (strip s))
     | _ => false
     end.

(** [{tc.get("id") for tc in msg.tool_calls if tc and tc.get("id")}] *)
Definition expected_ids (m : ChatMessage) : list pystr :=
  omap (fun tc => if tc_truthy tc && ostr_truthy (tc_id tc) then tc_id tc else None)
       (tool_calls_or_nil m).

(** [ChatMessage(role=..., content="No content", tool_call_id=...)] *)
Definition filled (m : ChatMessage) : ChatMessage :=
  Msg (role m) (CStr no_content) (tool_call_id m) None None.

(** What the inner [while] has gathered so far. *)
Record gathered := Gathered {
  tool_results : list ChatMessage;
  found_tool_ids : gset pystr;
  interrupted_messages : list ChatMessage
}.

(** The inner [while]: gathers the tool results and the user and system
    messages that follow an assistant message with tool calls, and returns
    them with the messages left from the first one that stops it. *)
Fixpoint gather (expected : gset pystr) (messages : list ChatMessage) (g : gathered)
  : gathered * list ChatMessage :=
  match messages with
  | [] => (g, [])
  | next_msg :: rest =>
      if is_role r_tool next_msg && ostr_truthy (tool_call_id next_msg) then
        let id := default [] (tool_call_id next_msg) in
        if bool_decide (id ∈ expected) then
          if content_is_empty (content next_msg) then
            gather expected rest
              (Gathered (tool_results g ++ [filled next_msg])
                        (found_tool_ids g ∪ {[id]}) (interrupted_messages g))
          else
            gather expected rest
              (Gathered (tool_results g ++ [next_msg])
                        (found_tool_ids g ∪ {[id]}) (interrupted_messages g))
        else
          gather expected rest
            (Gathered (tool_results g ++ [next_msg])
                      (found_tool_ids g) (interrupted_messages g))
      else if is_role r_user next_msg || is_role r_system next_msg then
        gather expected rest
          (Gathered (tool_results g) (found_tool_ids g)
                    (interrupted_messages g ++ [next_msg]))
      else (g, messages)
  end.

(** [fixed_messages[-1] = m] *)
Definition set_last (l : list ChatMessage) (m : ChatMessage) : list ChatMessage :=
  removelast l ++ [m].

(** [any(tc and tc.get("id") == tid for tc in prev.tool_calls)] *)
Definition calls_mention (tid : option pystr) (prev : ChatMessage) : bool :=
  existsb (fun tc => tc_truthy tc && bool_decide (tc_id tc = tid))
          (tool_calls_or_nil prev).

(** The search through [reversed(fixed_messages)] for a tool use that the
    stand-alone tool result answers. *)
Fixpoint has_matching_tool_use (tid : option pystr) (reversed : list ChatMessage) : bool :=
  match reversed with
  | [] => false
  | prev_msg :: rest =>
      if is_role r_assistant prev_msg && has_tool_calls prev_msg then
        if calls_mention tid prev_msg then true
        else has_matching_tool_use tid rest
      else if is_role r_assistant prev_msg then false
      else has_matching_tool_use tid rest
  end.

(** One round of the outer [while] on the messages from index [i] on:
    the new [fixed_messages] and the messages from the new [i] on. *)
Definition clean_step (current_msg : ChatMessage) (rest fixed_messages : list ChatMessage)
  : list ChatMessage * list ChatMessage :=
  if is_role r_assistant current_msg && has_tool_calls current_msg then
    let expected : gset pystr := list_to_set (expected_ids current_msg) in
    let fixed1 := fixed_messages ++ [current_msg] in
    let '(g, rest') := gather expected rest (Gathered [] ∅ []) in
    let missing_tools := expected ∖ found_tool_ids g in
    if negb (bool_decide (missing_tools = ∅)) then
      let valid_tool_calls :=
        filter (fun tc => tc_truthy tc && ostr_truthy (tc_id tc)
                          && negb (bool_decide (default [] (tc_id tc) ∈ missing_tools)))
               (tool_calls_or_nil current_msg) in
      let fixed2 :=
        match valid_tool_calls with
        | _ :: _ =>
            set_last fixed1
              (Msg (role current_msg) (content current_msg) None (Some valid_tool_calls) None)
        | [] =>
            if content_truthy (content current_msg) then
              set_last fixed1
                (Msg (role current_msg) (content current_msg) None None None)
            else removelast fixed1
        end in
      let kept :=
        filter (fun tr => bool_decide (default [] (tool_call_id tr) ∈ found_tool_ids g))
               (tool_results g) in
      (fixed2 ++ kept ++ interrupted_messages g, rest')
    else
      (fixed1 ++ tool_results g ++ interrupted_messages g, rest')
  else if is_role r_tool current_msg then
    if has_matching_tool_use (tool_call_id current_msg) (rev fixed_messages) then
      if content_is_empty (content current_msg)
      then (fixed_messages ++ [filled current_msg], rest)
      else (fixed_messages ++ [current_msg], rest)
    else (fixed_messages, rest)
  else (fixed_messages ++ [current_msg], rest).

(** The outer [while i < len(messages)]; every round consumes a message,
    so [length messages] rounds are enough. *)
Fixpoint clean_loop (fuel : nat) (messages fixed_messages : list ChatMessage)
  : list ChatMessage :=
  match fuel, messages with
  | S fuel', current_msg :: rest =>
      let '(fixed', rest') := clean_step current_msg rest fixed_messages in
      clean_loop fuel' rest' fixed'
  | _, _ => fixed_messages
  end.

Definition clean_incomplete_tool_calls (messages : list ChatMessage) : list ChatMessage :=
  match messages with
  | [] => messages
  | _ => clean_loop (length messages) messages []
  end.

End Clean.

(** The normalizer as the request handler runs it. *)
Definition normalize (history : list ChatMessage) : list ChatMessage :=
  Clean.clean_incomplete_tool_calls (Reorder.reorder_messages_for_anthropic history).

(** ** Splitting tool results (helpers.py, [segments_to_warp_results]) *)

Module Helpers.

(** Decimal text of a number, as an f-string prints it. *)
Definition py_of_nat (n : nat) : pystr :=
  py (DecimalString.NilZero.string_of_uint (Nat.to_uint n)).

(** [CHUNK_SIZE] *)
Definition CHUNK_SIZE : nat := 1000.

Definition split_chars : list pystr :=
  Eval vm_compute in
    [ [10; 10]; [10]; py ". "; py "。"; py "！"; py "？"; py ", "; py "，"; py " " ].

(** [s.rfind(sub)] on a window [s]: the highest index where [sub] occurs. *)
Fixpoint rfind_from (sub s : pystr) (i : nat) : option nat :=
  match s with
  | [] => if starts_with sub [] then Some i else None
  | _ :: r =>
      match rfind_from sub r (S i) with
      | Some p => Some p
      | None => if starts_with sub s then Some i else None
      end
  end.

Definition rfind (sub s : pystr) : option nat := rfind_from sub s 0.

(** The [for split_char in split_chars] loop on the window
    [text[start:end]]: the first separator found after position [start]
    gives [best_split - start]. *)
Fixpoint find_split (seps : list pystr) (window : pystr) : option nat :=
  match seps with
  | [] => None
  | split_char :: more =>
      match rfind split_char window with
      | Some (S p) => Some (S p + length split_char)%nat
      | _ => find_split more window
      end
  end.

(** [best_split - start]: [end - start] unless a separator is found. *)
Definition best_split_of (chunk_size : nat) (rest : pystr) : nat :=
  default chunk_size (find_split split_chars (take chunk_size rest)).

(** The [while start < len(text)] loop on [rest = text[start:]]. *)
Fixpoint split_loop (fuel chunk_size : nat) (rest : pystr) : list pystr :=
  match fuel with
  | O => []
  | S fuel' =>
      match rest with
      | [] => []
      | _ =>
          if (length rest <=? chunk_size)%nat then [rest]
          else
            let best_split := best_split_of chunk_size rest in
            take best_split rest :: split_loop fuel' chunk_size (drop best_split rest)
      end
  end.

Definition smart_split_text (text : pystr) (chunk_size : nat) : list pystr :=
  if (length text <=? chunk_size)%nat then [text]
  else split_loop (length text) chunk_size text.

(** One element of [results]: [{"text": {"text": chunk}}]. *)
Record warp_result := TextResult { result_text : pystr }.

(** The segment marker of chunk [i] (counted from 0) of [n]. *)
Definition mark (n i : nat) (chunk : pystr) : pystr :=
  if (1 <? n)%nat then
    match i with
    | O => chunk ++ py " [1/" ++ py_of_nat n ++ py "]"
    | _ => py "[" ++ py_of_nat (i + 1) ++ py "/" ++ py_of_nat n ++ py "] " ++ chunk
    end
  else chunk.

Definition results_of_text (text : pystr) : list warp_result :=
  if (CHUNK_SIZE <? length text)%nat then
    let chunks := smart_split_text text CHUNK_SIZE in
    imap (fun i chunk => TextResult (mark (length chunks) i chunk)) chunks
  else [TextResult text].

Definition segments_to_warp_results (segments : list segment) : list warp_result :=
  flat_map (fun seg =>
              if seg_is_text seg then results_of_text (default [] (seg_text seg))
              else []) segments.

End Helpers.

(** ** The request assembler (protobuf2openai/packets.py) *)

Module Packets.
Import Helpers.

Definition RESTRICTED_TOOLS : list pystr :=
  Eval vm_compute in
    map py
      [ "read_files"; "write_files"; "list_files"; "apply_file_diffs";
        "str_replace_editor"; "search_files"; "apply_file_diffs";
        "search_codebase"; "suggest_plan"; "suggest_create_plan"; "grep";
        "file_glob"; "file_glob_v2"; "read_mcp_resource";
        "write_to_long_running_shell_command"; "suggest_new_conversation";
        "ask_followup_question"; "attempt_completion" ]%string.

Definition nl : pystr := [10].

Definition get_tool_restrictions_text : pystr :=
  py "<ALERT>you are not allowed to call following tools:" ++ nl
  ++ join nl (map (fun tool => py "- `" ++ tool ++ py "`") RESTRICTED_TOOLS) ++ nl
  ++ nl
  ++ py "IMPORTANT: When using git diff or similar commands to view file changes, always check ONE file at a time to avoid execution issues. Use separate commands for each file instead of passing multiple files to a single command." ++ nl
  ++ nl
  ++ py "Example:" ++ nl
  ++ py "- ✅ Good: git diff file1.py" ++ nl
  ++ py "- ✅ Good: git diff file2.py" ++ nl
  ++ py "- ❌ Avoid: git diff file1.py file2.py</ALERT>".

Definition get_tool_restrictions_message : pystr :=
  py "I understand that I am not allowed to call certain internal tools including: "
  ++ join (py ", ") RESTRICTED_TOOLS
  ++ py ". I will only use the tools provided through MCP. When using git diff or similar commands, I will check one file at a time to avoid execution issues.".

Definition tool_restriction_inline : pystr :=
  py "⚠️ CRITICAL REMINDER: You MUST NOT use these restricted tools: "
  ++ join (py ", ") (take 8 RESTRICTED_TOOLS) ++ py "... "
  ++ py "Use only MCP-provided tools. "
  ++ nl ++ nl.

(** [map_model_name]: the remapping below its first [return] is dead. *)
Definition map_model_name (model : pystr) : pystr := model.

Section Assembler.

(** The JSON library, as the assembler uses it on tool-call arguments:
    [json.loads] (which raises on a text that is no JSON), the truthiness
    of a parsed value and the empty object. *)
Variable json : Type.
Variable json_loads : pystr -> option json.
Variable json_truthy : json -> bool.
Variable empty_object : json.

(** A message of [task_context.tasks[0].messages].  The [id] of a message
    is a fresh uuid4 and [task_id] is the same in all of them; a tool-call
    id that the history lacks is a fresh uuid4 too ([None] here). *)
Inductive warp_message :=
| WServerToolCall (tool_call_id : pystr) (payload : pystr)
| WAgentOutput (text : pystr)
| WUserQuery (query : pystr)
| WToolCall (tool_call_id : option pystr) (name : pystr) (args : json)
| WToolCallResult (tool_call_id : pystr) (results : list warp_result).

(** An element of [input.user_inputs.inputs]. *)
Inductive warp_input :=
| InUserQuery (query : pystr) (plain_text : pystr)
| InToolCallResult (tool_call_id : pystr) (results : list warp_result).

Record mcp_tool := McpTool {
  mcp_name : pystr;
  mcp_description : pystr;
  mcp_input_schema : option json
}.

Record packet := Packet {
  task_messages : list warp_message;
  active_task_id : pystr;
  inputs : list warp_input;
  model_base : pystr;
  conversation_id : option pystr;
  mcp_tools : list mcp_tool
}.

Definition packet_template : packet :=
  Packet [] [] [] (py "claude-4.1-opus") None [].

(** The final input: the last user message or the last tool message that
    carries an id, whichever the backwards scan meets first. *)
Fixpoint find_last_input (reversed : list ChatMessage) (idx : nat) : option nat :=
  match reversed with
  | [] => None
  | _m :: rest =>
      if is_role r_user _m then Some idx
      else if is_role r_tool _m && ostr_truthy (tool_call_id _m) then Some idx
      else find_last_input rest (idx - 1)
  end.

Definition last_input_index (history : list ChatMessage) : option nat :=
  find_last_input (rev history) (length history - 1).

Definition map_tool_call (tc : tool_call) : option warp_message :=
  let id := if ostr_truthy (tc_id tc) then tc_id tc else None in
  match tc_function tc with
  | Some (fname, arguments) =>
      match json_loads arguments with
      | Some v => Some (WToolCall id fname (if json_truthy v then v else empty_object))
      | None => None
      end
  | None => Some (WToolCall id [] empty_object)
  end.

(** The messages one history entry maps to; [None] when [json.loads]
    raises. *)
Definition map_message (m : ChatMessage) : option (list warp_message) :=
  if is_role r_user m then
    Some [WUserQuery (segments_to_text (normalize_content_to_list (content m)))]
  else if is_role r_assistant m then
    let _assistant_text := segments_to_text (normalize_content_to_list (content m)) in
    calls ← mapM map_tool_call (tool_calls_or_nil m);
    Some ((if str_truthy _assistant_text then [WAgentOutput _assistant_text] else [])
          ++ calls)
  else if is_role r_tool m then
    match tool_call_id m with
    | Some i =>
        if str_truthy i then
          Some [WToolCallResult i
                  (segments_to_warp_results (normalize_content_to_list (content m)))]
        else Some []
    | None => Some []
    end
  else Some [].

Fixpoint map_entries (last : option nat) (i : nat) (history : list ChatMessage)
  : option (list warp_message) :=
  match history with
  | [] => Some []
  | m :: rest =>
      if bool_decide (last = Some i) then map_entries last (S i) rest
      else
        here ← map_message m;
        more ← map_entries last (S i) rest;
        Some (here ++ more)
  end.

(** [STATE.tool_call_id] is passed in as [server_tool_call_id]. *)
Definition map_history_to_warp_messages (server_tool_call_id : pystr)
  (history : list ChatMessage) : option (list warp_message) :=
  entries ← map_entries (last_input_index history) 0 history;
  Some (WServerToolCall server_tool_call_id (py "IgIQAQ==")
        :: WAgentOutput get_tool_restrictions_message
        :: entries).

Definition append_input (p : packet) (i : warp_input) : packet :=
  Packet (task_messages p) (active_task_id p) (inputs p ++ [i])
         (model_base p) (conversation_id p) (mcp_tools p).

Definition referenced_text (system_prompt_text : option pystr) : pystr :=
  get_tool_restrictions_text
  ++ match system_prompt_text with
     | Some s => s
     | None => []
     end.

(** [attach_user_and_tools_to_inputs]; [None] is the failed assertion on
    an empty history. *)
Definition attach_user_and_tools_to_inputs (p : packet) (history : list ChatMessage)
  (system_prompt_text : option pystr) : option packet :=
  match last history with
  | None => None
  | Some last =>
      if is_role r_user last then
        let query_text := segments_to_text (normalize_content_to_list (content last)) in
        let query_text :=
          if negb (str_truthy query_text) || negb (str_truthy (strip query_text))
          then py " " else query_text in
        Some (append_input p
                (InUserQuery (tool_restriction_inline ++ query_text)
                             (referenced_text system_prompt_text)))
      else if is_role r_tool last && ostr_truthy (tool_call_id last) then
        let tool_results :=
          segments_to_warp_results (normalize_content_to_list (content last)) in
        let tool_results :=
          match tool_results with
          | [] => [TextResult (py " ")]
          | _ => tool_results
          end in
        Some (append_input p
                (InToolCallResult (default [] (tool_call_id last)) tool_results))
      else if is_role r_assistant last then
        if has_tool_calls last then Some p
        else
          Some (append_input p
                  (InUserQuery (py "请继续") (referenced_text system_prompt_text)))
      else Some p
  end.

End Assembler.

Arguments WServerToolCall {json}.
Arguments WAgentOutput {json}.
Arguments WUserQuery {json}.
Arguments WToolCall {json}.
Arguments WToolCallResult {json}.
Arguments McpTool {json}.
Arguments mcp_name {json}.
Arguments mcp_description {json}.
Arguments mcp_input_schema {json}.
Arguments Packet {json}.
Arguments task_messages {json}.
Arguments active_task_id {json}.
Arguments inputs {json}.
Arguments model_base {json}.
Arguments conversation_id {json}.
Arguments mcp_tools {json}.
Arguments packet_template {json}.
Arguments append_input {json}.
Arguments attach_user_and_tools_to_inputs {json}.

End Packets.

(** ** Building the packet of a chat request (protobuf2openai/router.py) *)

Module Router.
Import Packets.

Section ChatCompletions.

Variable json : Type.
Variable json_loads : pystr -> option json.
Variable json_truthy : json -> bool.
Variable empty_object : json.

Record OpenAITool := {
  tool_type : pystr;
  function_name : pystr;
  function_description : option pystr;
  function_parameters : option json
}.

Record ChatCompletionsRequest := {
  model : option pystr;
  messages : list ChatMessage;
  stream : bool;
  tools : option (list OpenAITool)
}.

(** The process-wide [STATE], read-only here; [baseline_task_id] and
    [tool_call_id] stand for the stored value or the uuid4 drawn in its
    place. *)
Record state := {
  baseline_task_id : pystr;
  state_conversation_id : option pystr;
  state_tool_call_id : pystr
}.

Inductive failure := AssertionError | JSONDecodeError.

Inductive outcome :=
| HTTP400
| Raised (e : failure)
| Built (p : packet json).

Definition system_prompt_of (history : list ChatMessage) : option pystr :=
  let chunks :=
    omap (fun _m =>
            if is_role r_system _m then
              let _txt := segments_to_text (normalize_content_to_list (content _m)) in
              if str_truthy (strip _txt) then Some _txt else None
            else None) history in
  match chunks with
  | [] => None
  | _ => Some (join (nl ++ nl) chunks)
  end.

Definition mcp_tools_of (ts : option (list OpenAITool)) : list (mcp_tool json) :=
  omap (fun t =>
          if pystr_eqb (tool_type t) (py "function")
          then Some (McpTool (function_name t)
                             (default [] (function_description t))
                             (function_parameters t))
          else None) (default [] ts).

(** [chat_completions] up to the packet it sends. *)
Definition build_packet (STATE : state) (req : ChatCompletionsRequest) : outcome :=
  match messages req with
  | [] => HTTP400
  | _ =>
      let history := normalize (messages req) in
      let system_prompt_text := system_prompt_of history in
      match map_history_to_warp_messages json json_loads json_truthy empty_object
              (state_tool_call_id STATE) history with
      | None => Raised JSONDecodeError
      | Some msgs =>
          let base :=
            match model req with
            | Some m => if str_truthy m then m else model_base (@packet_template json)
            | None => model_base (@packet_template json)
            end in
          let p := Packet msgs (baseline_task_id STATE) [] base
                          (match state_conversation_id STATE with
                           | Some c => if str_truthy c then Some c else None
                           | None => None
                           end) [] in
          match attach_user_and_tools_to_inputs p history system_prompt_text with
          | None => Raised AssertionError
          | Some p' =>
              Built (Packet (task_messages p') (active_task_id p') (inputs p')
                            (model_base p') (conversation_id p')
                            (mcp_tools p' ++ mcp_tools_of (tools req)))
          end
      end
  end.

End ChatCompletions.

Arguments Build_OpenAITool {json}.
Arguments Build_ChatCompletionsRequest {json}.
Arguments model {json}.
Arguments messages {json}.
Arguments stream {json}.
Arguments tools {json}.
Arguments HTTP400 {json}.
Arguments Raised {json}.
Arguments Built {json}.

End Router.

(** ** The interpreter's decoders used by the frame decoder

    [bytes.fromhex] and the [base64] module are the interpreter's own; they
    are modelled after their documented behaviour on [str] arguments. *)

Module Codecs.

Abbreviation bytes := (list N).

Definition hex_value (c : N) : option N :=
  if (48 <=? c) && (c <=? 57) then Some (c - 48)
  else if (97 <=? c) && (c <=? 102) then Some (c - 87)
  else if (65 <=? c) && (c <=? 70) then Some (c - 55)
  else None.

(** [bytes.fromhex(s)] on a text without whitespace: pairs of hex
    digits; [None] stands for the [ValueError] it raises. *)
Fixpoint fromhex (s : pystr) : option bytes :=
  match s with
  | [] => Some []
  | hi :: lo :: r =>
      h ← hex_value hi; l ← hex_value lo; more ← fromhex r;
      Some (h * 16 + l :: more)
  | _ => None
  end.

(** The standard alphabet: A-Z, a-z, 0-9, + and /. *)
Definition b64_value (c : N) : option N :=
  if (65 <=? c) && (c <=? 90) then Some (c - 65)
  else if (97 <=? c) && (c <=? 122) then Some (c - 71)
  else if (48 <=? c) && (c <=? 57) then Some (c + 4)
  else if c =? 43 then Some 62
  else if c =? 47 then Some 63
  else None.

(** [binascii.a2b_base64] without validation: characters outside the
    alphabet are skipped, a pad ends the data once it completes a quad
    that holds two or three characters, and leftover characters raise. *)
Fixpoint a2b_base64 (data : list N) (quad_pos : nat) (leftchar : N) (pads : nat)
  (out : bytes) : option bytes :=
  match data with
  | [] => match quad_pos with O => Some out | _ => None end
  | this_ch :: rest =>
      if this_ch =? 61 then
        if (2 <=? quad_pos)%nat then
          if (4 <=? quad_pos + S pads)%nat then Some out
          else a2b_base64 rest quad_pos leftchar (S pads) out
        else a2b_base64 rest quad_pos leftchar pads out
      else
        match b64_value this_ch with
        | None => a2b_base64 rest quad_pos leftchar pads out
        | Some v =>
            match quad_pos with
            | 0%nat => a2b_base64 rest 1 v 0 out
            | 1%nat => a2b_base64 rest 2 (v mod 16) 0 (out ++ [leftchar * 4 + v / 16])
            | 2%nat => a2b_base64 rest 3 (v mod 4) 0 (out ++ [leftchar * 16 + v / 4])
            | _ => a2b_base64 rest 0 0 0 (out ++ [leftchar * 64 + v])
            end
        end
  end.

Definition is_ascii (s : pystr) : bool := forallb (fun c => c <? 128) s.

(** [base64.b64decode(s)]; a [str] with a character above 127 raises. *)
Definition b64decode (s : pystr) : option bytes :=
  if is_ascii s then a2b_base64 s 0 0 0 [] else None.

(** [base64.urlsafe_b64decode(s)]: "-" and "_" stand for "+" and "/". *)
Definition urlsafe_b64decode (s : pystr) : option bytes :=
  if is_ascii s
  then a2b_base64 (map (fun c => if c =? 45 then 43 else if c =? 95 then 47 else c) s)
                  0 0 0 []
  else None.

End Codecs.

(** ** The upstream streamer's frame decoding (warp2protobuf/warp/api_client.py) *)

Module ApiClient.
Import Codecs.

(** [re.sub(r"\s+", "", data_str)] *)
Definition remove_whitespace (data_str : pystr) : pystr :=
  filter (fun c => negb (py_isspace c)) data_str.

(** [re.fullmatch(r"[0-9a-fA-F]+", s)] *)
Definition is_hex (s : pystr) : bool :=
  str_truthy s && forallb (fun c => bool_decide (is_Some (hex_value c))) s.

(** ["=" * ((4 - (len(s) % 4)) % 4)] *)
Definition pad (s : pystr) : pystr :=
  repeat 61 ((4 - (length s mod 4)) mod 4)%nat.

Definition decode_base64 (s : pystr) : option bytes :=
  match urlsafe_b64decode (s ++ pad s) with
  | Some b => Some b
  | None => b64decode (s ++ pad s)
  end.

Definition _decode_payload_bytes (data_str : pystr) : option bytes :=
  let s := remove_whitespace data_str in
  if negb (str_truthy s) then None
  else if is_hex s then
    match fromhex s with
    | Some b => Some b
    | None => decode_base64 s
    end
  else decode_base64 s.

Definition data_prefix : pystr := Eval vm_compute in py "data:".
Definition done_marker : pystr := Eval vm_compute in py "[DONE]".

(** The line loop of the streamer up to the bytes it hands to the codec
    adapter: [current_data] is the buffer, the result the frames in order. *)
Fixpoint frames_of_lines (lines : list pystr) (current_data : pystr) : list bytes :=
  match lines with
  | [] => []
  | line :: rest =>
      if starts_with data_prefix line then
        let payload := strip (drop 5 line) in
        if negb (str_truthy payload) then frames_of_lines rest current_data
        else if pystr_eqb payload done_marker then []
        else frames_of_lines rest (current_data ++ payload)
      else if negb (str_truthy (strip line)) && str_truthy current_data then
        match _decode_payload_bytes current_data with
        | None => frames_of_lines rest []
        | Some raw_bytes => raw_bytes :: frames_of_lines rest []
        end
      else frames_of_lines rest current_data
  end.

End ApiClient.

(** ** The Anthropic translator (protobuf2openai/anthropic_sse_transform.py) *)

Module AnthropicSse.

(** One element of [delta.tool_calls]. *)
Record tool_call_delta := ToolCallDelta {
  tcd_id : option pystr;
  tcd_name : option pystr;
  tcd_arguments : option pystr
}.

Record delta_t := Delta {
  delta_role : option pystr;
  delta_content : option pystr;
  delta_tool_calls : list tool_call_delta
}.

Record choice_t := Choice {
  choice_delta : delta_t;
  finish_reason : option pystr
}.

Record usage_t := Usage {
  prompt_tokens : Z;
  completion_tokens : Z
}.

Record chunk_t := Chunk {
  choices : list choice_t;
  usage : option usage_t
}.

(** What the translator makes of one item of the OpenAI stream: a blank
    line, a line that does not start with "data: ", the line
    "data: [DONE]", a payload that is no JSON, a parsed chunk; [LRaise]
    is the generator raising instead of yielding. *)
Inductive openai_line :=
| LBlank
| LOther
| LDone
| LBadJson
| LChunk (c : chunk_t)
| LRaise (message : pystr).

Inductive event :=
| MessageStart
| ContentBlockStartText (index : nat)
| ContentBlockStartToolUse (index : nat) (id name : pystr)
| ContentBlockDeltaText (index : nat) (text : pystr)
| ContentBlockDeltaJson (index : nat) (partial_json : pystr)
| ContentBlockStop (index : nat)
| MessageDelta (stop_reason : pystr) (input_tokens output_tokens : Z)
| MessageStop
| ErrorEvent (message : pystr).

Record state := State {
  content_index : nat;
  has_text_content : bool;
  has_tool_calls : bool;
  current_tool_call : option (pystr * pystr * pystr);
  input_tokens : Z;
  output_tokens : Z
}.

Definition initial_state : state := State 0 false false None 0 0.

(** The body of [for tool_call in delta["tool_calls"]]. *)
Definition tool_call_step (acc : state * list event) (tool_call : tool_call_delta)
  : state * list event :=
  let '(st, out) := acc in
  let '(st, out) :=
    match tcd_id tool_call, tcd_name tool_call with
    | Some id, Some tool_name =>
        if str_truthy id && str_truthy tool_name then
          let '(idx, out) :=
            if has_text_content st
            then (S (content_index st), out ++ [ContentBlockStop (content_index st)])
            else (content_index st, out) in
          let idx := if has_tool_calls st then S idx else idx in
          (State idx false true (Some (id, tool_name, [])) (input_tokens st) (output_tokens st),
           out ++ [ContentBlockStartToolUse idx id tool_name])
        else (st, out)
    | _, _ => (st, out)
    end in
  match current_tool_call st, tcd_arguments tool_call with
  | Some (id, nm, args), Some arguments_chunk =>
      if str_truthy arguments_chunk then
        (State (content_index st) (has_text_content st) (has_tool_calls st)
               (Some (id, nm, args ++ arguments_chunk)) (input_tokens st) (output_tokens st),
         out ++ [ContentBlockDeltaJson (content_index st) arguments_chunk])
      else (st, out)
  | _, _ => (st, out)
  end.

Definition stop_reason_mapping (finish_reason : pystr) : pystr :=
  if pystr_eqb finish_reason (py "stop") then py "end_turn"
  else if pystr_eqb finish_reason (py "length") then py "max_tokens"
  else if pystr_eqb finish_reason (py "tool_calls") then py "tool_use"
  else if pystr_eqb finish_reason (py "content_filter") then py "stop_sequence"
  else py "end_turn".

(** One parsed chunk: the new state, the events it yields and whether
    the stream is completed by it. *)
Definition chunk_step (st : state) (chunk : chunk_t) : state * list event * bool :=
  match choices chunk with
  | [] => (st, [], false)
  | choice :: _ =>
      let delta := choice_delta choice in
      if bool_decide (delta_role delta = Some r_assistant)
         && negb (has_text_content st) && negb (has_tool_calls st)
      then (st, [], false)
      else
        let '(st, out) :=
          match delta_content delta with
          | Some text_content =>
              if str_truthy text_content then
                let '(st, out) :=
                  if has_text_content st then (st, [])
                  else (State (content_index st) true (has_tool_calls st)
                              (current_tool_call st) (input_tokens st) (output_tokens st),
                        [ContentBlockStartText (content_index st)]) in
                (st, out ++ [ContentBlockDeltaText (content_index st) text_content])
              else (st, [])
          | None => (st, [])
          end in
        let '(st, out) := fold_left tool_call_step (delta_tool_calls delta) (st, out) in
        match finish_reason choice with
        | Some reason =>
            if str_truthy reason then
              let '(inp, outp) :=
                match usage chunk with
                | Some u => (prompt_tokens u, completion_tokens u)
                | None => (input_tokens st, output_tokens st)
                end in
              let '(cur, out) :=
                if has_text_content st || has_tool_calls st
                then (None, out ++ [ContentBlockStop (content_index st)])
                else (current_tool_call st, out) in
              (State (content_index st) (has_text_content st) (has_tool_calls st) cur inp outp,
               out ++ [MessageDelta (stop_reason_mapping reason) inp outp; MessageStop],
               true)
            else (st, out, false)
        | None => (st, out, false)
        end
  end.

(** The [async for] over the OpenAI stream. *)
Fixpoint translate_lines (st : state) (lines : list openai_line) : list event :=
  match lines with
  | [] => []
  | LBlank :: rest | LOther :: rest | LBadJson :: rest => translate_lines st rest
  | LDone :: _ => []
  | LRaise message :: _ => [ErrorEvent message]
  | LChunk chunk :: rest =>
      let '(st', out, completed) := chunk_step st chunk in
      if completed then out else out ++ translate_lines st' rest
  end.

(** [stream_anthropic_sse]: [message_start], then the translation. *)
Definition stream_anthropic_sse (lines : list openai_line) : list event :=
  MessageStart :: translate_lines initial_state lines.

End AnthropicSse.

(** ** The OpenAI translator and the recovery driver
       (protobuf2openai/sse_transform.py) *)

Module SseTransform.
Import Packets.

(** A JSON number as Python reads it. *)
Inductive num :=
| PyInt (z : Z)
| PyFloat (f : float).

Definition float_of_Z (z : Z) : float :=
  SF2Prim (binary_normalize 53 1024 z 0 false).

(** [int(f)]: truncation toward zero; [None] for the [OverflowError] or
    [ValueError] on an infinity or a NaN. *)
Definition int_of_float (f : float) : option Z :=
  match Prim2SF f with
  | S754_zero _ => Some 0%Z
  | S754_finite s m e =>
      let magnitude :=
        match e with
        | Z0 => Zpos m
        | Zpos p => (Zpos m * 2 ^ Zpos p)%Z
        | Zneg p => (Zpos m / 2 ^ Zpos p)%Z
        end in
      Some (if s then (- magnitude)%Z else magnitude)
  | _ => None
  end.

Definition num_truthy (n : num) : bool :=
  match n with
  | PyInt z => negb (z =? 0)%Z
  | PyFloat f => negb (PrimFloat.eqb f 0%float)
  end.

(** [finished.context_window_info]: absent (the default [{}]), a
    dictionary read through three keys, or a number. *)
Inductive context_window_info_t :=
| CwiMissing
| CwiDict (context_window_usage used ratio : option num) (other_keys : bool)
| CwiNumber (n : num).

Definition cwi_truthy (c : context_window_info_t) : bool :=
  match c with
  | CwiMissing => false
  | CwiDict a b r other => bool_decide (is_Some a) || bool_decide (is_Some b)
                           || bool_decide (is_Some r) || other
  | CwiNumber n => num_truthy n
  end.

Definition lower_char (c : N) : N :=
  if (65 <=? c) && (c <=? 90) then c + 32 else c.

(** [model_name.lower()], on the letters that matter to the two tests. *)
Definition lower (s : pystr) : pystr := map lower_char s.

Definition get_model_context_window (model_name : pystr) : Z :=
  let model_lower := lower model_name in
  if contains (py "claude-3") model_lower then 200000%Z
  else if contains (py "claude-4") model_lower then 200000%Z
  else 100000%Z.

Definition fallback_input_tokens (input_tokens : Z) : Z :=
  if (0 <? input_tokens)%Z then input_tokens else 1000%Z.

(** [estimated_input_tokens] of the terminating chunk; [None] when
    [int()] raises. *)
Definition estimate_prompt_tokens (context_window_info : context_window_info_t)
  (model_id : pystr) (input_tokens : Z) : option Z :=
  if cwi_truthy context_window_info then
    let context_usage :=
      match context_window_info with
      | CwiDict a b r _ =>
          let a := default (PyInt 0) a in
          if num_truthy a then a
          else let b := default (PyInt 0) b in
               if num_truthy b then b else default (PyInt 0) r
      | CwiNumber (PyInt z) => PyFloat (float_of_Z z)
      | CwiNumber (PyFloat f) => PyFloat f
      | CwiMissing => PyInt 0
      end in
    let max_context := get_model_context_window model_id in
    match context_usage with
    | PyInt z =>
        if (0 <? z)%Z then Some (z * max_context)%Z
        else Some (fallback_input_tokens input_tokens)
    | PyFloat f =>
        if PrimFloat.ltb 0%float f
        then int_of_float (PrimFloat.mul f (float_of_Z max_context))
        else Some (fallback_input_tokens input_tokens)
    end
  else Some (fallback_input_tokens input_tokens).

(** *** Upstream events, as the translator reads them *)

Record tool_call_result_t := ToolCallResult {
  tcr_tool_call_id : option pystr;
  tcr_serialized_result : pystr
}.

(** [call_mcp_tool]: the name and [json.dumps(args)]. *)
Record upstream_tool_call := UpstreamToolCall {
  utc_tool_call_id : option pystr;
  utc_call_mcp_tool : option (pystr * pystr)
}.

Record task_message := TaskMessage {
  tm_tool_call_result : option tool_call_result_t;
  tm_tool_call : option upstream_tool_call;
  tm_agent_output_text : option pystr
}.

Record action := Action {
  append_to_message_content : option pystr;
  add_messages_to_task : option (list task_message);
  update_task_message : option pystr;
  create_task : option (list pystr);
  update_task_summary : option pystr
}.

Record finished_t := Finished {
  internal_error : option pystr;
  llm_unavailable : bool;
  context_window_info : context_window_info_t
}.

Record event_data := EventData {
  client_actions : option (list action);
  update_task_description : option pystr;
  finished : option finished_t
}.

(** One SSE record of the bridge: a JSON event, a record that is no
    JSON, or the payload [[DONE]]. *)
Inductive frame :=
| FEvent (ev : event_data)
| FBad
| FDone.

(** The chunks of the OpenAI stream. *)
Inductive sse_chunk :=
| RoleChunk
| ContentChunk (text : pystr)
| ToolCallsChunk (id : option pystr) (name arguments : pystr)
| FinalChunk (finish_reason : pystr) (prompt_tokens completion_tokens total_tokens : Z)
| ErrorChunk (message : pystr)
| DONE.

Inductive raised :=
| InternalErrorRecoverable (tool_name : option pystr) (error_message : pystr)
| LLMUnavailableRecoverable
| OtherException.

(** The text after the first occurrence of [sep], if there is one. *)
Fixpoint after_first (sep s : pystr) : option pystr :=
  if starts_with sep s then Some (drop (length sep) s)
  else match s with
       | [] => None
       | _ :: r => after_first sep r
       end.

(** [s.split(sep)[0]] *)
Fixpoint before_first (sep s : pystr) : pystr :=
  if starts_with sep s then []
  else match s with
       | [] => []
       | c :: r => c :: before_first sep r
       end.

Definition nl : pystr := [10].

Definition reset_advice (last_line : string) : pystr :=
  nl ++ nl ++ py "⚠️ **重要提醒：** 为避免重复重置，请：" ++ nl
  ++ py "• 方案1：执行压缩上下文指令（如 `/compact`）" ++ nl
  ++ py last_line.

(** The notice for an [update_task_description] event. *)
Definition context_reset_notice (task_desc : pystr) : pystr :=
  match after_first (py "Pending Tasks:") task_desc with
  | Some rest =>
      let tasks_section :=
        before_first (nl ++ nl) (before_first (py "Pending Tasks:") rest) in
      nl ++ nl ++ py "📋 **上下文已重置，但有待处理任务:**" ++ nl ++ strip tasks_section
      ++ reset_advice "• 方案2：开启新对话继续未完成的任务"
      ++ nl ++ nl ++ py "💡 请继续之前的工作或询问需要完成的具体任务。"
  | None =>
      match after_first (py "Optional Next Step:") task_desc with
      | Some rest =>
          let next_step_section :=
            before_first (nl ++ nl) (before_first (py "Optional Next Step:") rest) in
          nl ++ nl ++ py "📋 **上下文已重置，建议下一步:**" ++ nl ++ strip next_step_section
          ++ reset_advice "• 方案2：开启新对话继续未完成的任务"
          ++ nl ++ nl ++ py "💡 请继续之前的工作或询问需要完成的具体任务。"
      | None =>
          nl ++ nl ++ py "📋 **上下文已重置**"
          ++ reset_advice "• 方案2：开启新对话继续工作"
          ++ nl ++ nl ++ py "💡 对话上下文过长已自动重置。如有未完成的任务，请重新说明需要继续的工作。"
      end
  end.

Section Translator.

(** The collaborators of the translator: the codec adapter's tagged
    decoder, reduced to the [TodoWrite] arguments it finds in a
    [serialized_result] (if any); the regular-expression search for the
    tool name in an error message; the token counters. *)
Variable json : Type.
Variable embedded_todos : pystr -> option pystr.
Variable tool_match : pystr -> option pystr.
Variable count_tokens : pystr -> pystr -> nat.
Variable count_packet_tokens : packet json -> pystr -> Z.

(** [tool_calls_emitted] and [output_text]. *)
Record tstate := TState {
  tool_calls_emitted : bool;
  output_text : pystr
}.

(** A text delta: emitted and accumulated when it is not empty. *)
Definition emit_text (st : tstate) (text_content : pystr) : tstate * list sse_chunk :=
  if str_truthy text_content
  then (TState (tool_calls_emitted st) (output_text st ++ text_content),
        [ContentChunk text_content])
  else (st, []).

Definition emit_opt_text (st : tstate) (t : option pystr) : tstate * list sse_chunk :=
  match t with
  | Some text_content => emit_text st text_content
  | None => (st, [])
  end.

(** The body of [for message in messages] of [add_messages_to_task]. *)
Definition message_step (st : tstate) (message : task_message) : tstate * list sse_chunk :=
  match tm_tool_call_result message with
  | Some tool_call_result =>
      if ostr_truthy (tcr_tool_call_id tool_call_result) then
        let task_data :=
          if str_truthy (tcr_serialized_result tool_call_result)
          then embedded_todos (tcr_serialized_result tool_call_result)
          else None in
        match task_data with
        | Some todo_args =>
            (st, [ToolCallsChunk (tcr_tool_call_id tool_call_result)
                                 (py "TodoWrite") todo_args])
        | None => (st, [])
        end
      else (st, [])
  | None =>
      match tm_tool_call message with
      | Some (UpstreamToolCall tool_call_id (Some (name, args_str))) =>
          if str_truthy name then
            (TState true (output_text st),
             [ToolCallsChunk (if ostr_truthy tool_call_id then tool_call_id else None)
                             name args_str])
          else emit_opt_text st (tm_agent_output_text message)
      | _ => emit_opt_text st (tm_agent_output_text message)
      end
  end.

(** Runs a step over a list, threading the state and collecting the
    chunks in order. *)
Fixpoint run {A : Type} (step : tstate -> A -> tstate * list sse_chunk)
  (st : tstate) (l : list A) : tstate * list sse_chunk :=
  match l with
  | [] => (st, [])
  | a :: rest =>
      let '(st1, out1) := step st a in
      let '(st2, out2) := run step st1 rest in
      (st2, out1 ++ out2)
  end.

(** The body of [for action in actions]. *)
Definition action_step (st : tstate) (a : action) : tstate * list sse_chunk :=
  let '(st, o1) := emit_opt_text st (append_to_message_content a) in
  let '(st, o2) := run message_step st (default [] (add_messages_to_task a)) in
  let '(st, o3) := emit_opt_text st (update_task_message a) in
  let '(st, o4) := run emit_text st (default [] (create_task a)) in
  let '(st, o5) := emit_opt_text st (update_task_summary a) in
  (st, o1 ++ o2 ++ o3 ++ o4 ++ o5).

Definition estimated_output_tokens (st : tstate) (model_id : pystr) : Z :=
  let n := if str_truthy (output_text st)
           then Z.of_nat (count_tokens (output_text st) model_id) else 0%Z in
  if (n =? 0)%Z then 1%Z else n.

(** The [finished] branch. *)
Definition finished_step (st : tstate) (model_id : pystr) (input_tokens : Z)
  (finished_data : finished_t) : list sse_chunk * option raised :=
  match internal_error finished_data with
  | Some error_message =>
      ([], Some (InternalErrorRecoverable (tool_match error_message) error_message))
  | None =>
      if llm_unavailable finished_data then ([], Some LLMUnavailableRecoverable)
      else
        let completion := estimated_output_tokens st model_id in
        match estimate_prompt_tokens (context_window_info finished_data)
                model_id input_tokens with
        | None => ([], Some OtherException)
        | Some prompt =>
            ([FinalChunk (if tool_calls_emitted st then py "tool_calls" else py "stop")
                         prompt completion (prompt + completion)%Z],
             None)
        end
  end.

(** One decoded event. *)
Definition event_step (st : tstate) (model_id : pystr) (input_tokens : Z)
  (ev : event_data) : tstate * list sse_chunk * option raised :=
  let '(st, o1) := run action_step st (default [] (client_actions ev)) in
  let '(st, o2) :=
    match update_task_description ev with
    | Some task_desc => emit_text st (context_reset_notice task_desc)
    | None => (st, [])
    end in
  match finished ev with
  | Some finished_data =>
      let '(o3, r) := finished_step st model_id input_tokens finished_data in
      (st, o1 ++ o2 ++ o3, r)
  | None => (st, o1 ++ o2, None)
  end.

(** [_process_sse_response_lines] on the records of one response: the
    chunks yielded and the exception that ended it, if any. *)
Fixpoint process_frames (st : tstate) (model_id : pystr) (input_tokens : Z)
  (frames : list frame) : list sse_chunk * option raised :=
  match frames with
  | [] => ([DONE], None)
  | FDone :: _ => ([DONE], None)
  | FBad :: rest => process_frames st model_id input_tokens rest
  | FEvent ev :: rest =>
      let '(st', out, r) := event_step st model_id input_tokens ev in
      match r with
      | Some e => (out, Some e)
      | None =>
          let '(out', r') := process_frames st' model_id input_tokens rest in
          (out ++ out', r')
      end
  end.

Definition _process_sse_response_lines (model_id : pystr) (input_tokens : Z)
  (frames : list frame) : list sse_chunk * option raised :=
  process_frames (TState false []) model_id input_tokens frames.

(** *** The recovery driver, [stream_openai_sse] *)

(** What the bridge answers to one POST. *)
Record response := Response {
  status_code : nat;
  body : list frame
}.

Definition recovery_marker : pystr := Eval vm_compute in py "[系统自动恢复]".

Definition recovery_prompt (tool_name : option pystr) : pystr :=
  if ostr_truthy tool_name then
    nl ++ nl ++ py "[系统自动恢复] 请继续之前的任务，但不要使用 " ++ default [] tool_name
    ++ py " 工具。可用的工具包括：Read、Write、Edit、Bash、Glob、Grep 等 MCP 工具。"
  else nl ++ nl ++ py "[系统自动恢复] 请继续之前的任务，使用可用的 MCP 工具完成。".

Definition llm_recovery_prompt : pystr :=
  nl ++ nl ++ py "[自动恢复] 继续之前的任务。".

(** Rewrites the query of the last input when it is a [user_query] for
    which [skip] does not hold. *)
Definition amend_last_query (skip : pystr -> bool) (suffix : pystr) (p : packet json)
  : packet json :=
  match last (inputs p) with
  | Some (InUserQuery current_query plain_text) =>
      if skip current_query then p
      else Packet (task_messages p) (active_task_id p)
                  (removelast (inputs p) ++ [InUserQuery (current_query ++ suffix) plain_text])
                  (model_base p) (conversation_id p) (mcp_tools p)
  | _ => p
  end.

(** The packet of the retry after an [internal_error]. *)
Definition add_recovery_hint (tool_name : option pystr) (p : packet json) : packet json :=
  amend_last_query (contains recovery_marker) (recovery_prompt tool_name) p.

(** The packet of the retry after an [llm_unavailable]. *)
Definition add_continue_hint (p : packet json) : packet json :=
  amend_last_query
    (fun q => contains (py "继续任务") q || contains (py "[自动恢复]") q)
    llm_recovery_prompt p.

Definition internal_error_exhausted_text (tool_name : option pystr) : pystr :=
  nl ++ nl ++ py "⚠️ **服务内部错误（无法自动恢复）**" ++ nl ++ nl
  ++ py "AI 多次尝试调用被限制的工具：`" ++ default (py "None") tool_name ++ py "`" ++ nl ++ nl
  ++ py "**建议解决方案：**" ++ nl
  ++ py "• 🔄 换个方式描述你的需求" ++ nl
  ++ py "• 💡 简化请求范围" ++ nl
  ++ py "• 📝 明确说明避免某些操作" ++ nl.

Definition internal_error_notice : pystr :=
  nl ++ nl ++ py "🔄 **正在自动恢复...**" ++ nl ++ nl
  ++ py "检测到工具限制冲突，系统正在重新尝试任务。" ++ nl.

Definition llm_unavailable_exhausted_text : pystr :=
  nl ++ nl ++ py "⚠️ **LLM 服务暂时不可用**" ++ nl ++ nl ++ py "请稍后重试。" ++ nl.

Definition llm_unavailable_notice : pystr :=
  nl ++ nl ++ py "🔄 **LLM 服务暂时不可用，正在自动重试...**" ++ nl ++ nl.

(** The [try] block of one invocation: the requests it posts consume
    [responses] in order. *)
Definition attempt (model_id : pystr) (input_tokens : Z) (responses : list response)
  : list sse_chunk * option raised * list response :=
  match responses with
  | [] => ([], Some OtherException, [])
  | r1 :: rest =>
      if (status_code r1 =? 429)%nat then
        match rest with
        | [] => ([], Some OtherException, [])
        | r2 :: rest' =>
            if (status_code r2 =? 200)%nat then
              let '(out, e) := _process_sse_response_lines model_id input_tokens (body r2) in
              (out, e, rest')
            else ([], Some OtherException, rest')
        end
      else if (status_code r1 =? 200)%nat then
        let '(out, e) := _process_sse_response_lines model_id input_tokens (body r1) in
        (out, e, rest)
      else ([], Some OtherException, rest)
  end.

(** [stream_openai_sse]: the chunks of the whole response and the
    packets of its invocations, in order.  [fuel] bounds the recursion,
    which stops at [retry_count >= 1]. *)
Fixpoint stream_openai_sse_rec (fuel : nat) (p : packet json) (model_id : pystr)
  (retry_count : nat) (responses : list response)
  : list sse_chunk * list (packet json) :=
  match fuel with
  | O => ([], [])
  | S fuel' =>
      let input_tokens := count_packet_tokens p model_id in
      let first := if (retry_count =? 0)%nat then [RoleChunk] else [] in
      let '(out, e, rest) := attempt model_id input_tokens responses in
      match e with
      | None => (first ++ out, [p])
      | Some (InternalErrorRecoverable tool_name _) =>
          if (1 <=? retry_count)%nat then
            (first ++ out
             ++ [ContentChunk (internal_error_exhausted_text tool_name);
                 FinalChunk (py "stop") input_tokens 50 (input_tokens + 50)%Z;
                 DONE],
             [p])
          else
            let new_packet := add_recovery_hint tool_name p in
            let '(out', posted) :=
              stream_openai_sse_rec fuel' new_packet model_id (retry_count + 1) rest in
            (first ++ out ++ [ContentChunk internal_error_notice] ++ out', p :: posted)
      | Some LLMUnavailableRecoverable =>
          if (1 <=? retry_count)%nat then
            (first ++ out
             ++ [ContentChunk llm_unavailable_exhausted_text;
                 FinalChunk (py "stop") input_tokens 10 (input_tokens + 10)%Z;
                 DONE],
             [p])
          else
            let new_packet := add_continue_hint p in
            let '(out', posted) :=
              stream_openai_sse_rec fuel' new_packet model_id (retry_count + 1) rest in
            (first ++ out ++ [ContentChunk llm_unavailable_notice] ++ out', p :: posted)
      | Some OtherException =>
          (first ++ out ++ [ErrorChunk []; DONE], [p])
      end
  end.

Definition stream_openai_sse (p : packet json) (model_id : pystr)
  (responses : list response) : list sse_chunk * list (packet json) :=
  stream_openai_sse_rec 2 p model_id 0 responses.

End Translator.

End SseTransform.

(** ** The credential pool (warp_token_pool.py) *)

Module TokenPool.

Inductive TokenStatus := VALID | EXPIRED | RATE_LIMITED | UNKNOWN.

#[global] Instance TokenStatus_eq_dec : EqDecision TokenStatus.
Proof. solve_decision. Defined.

Record TokenInfo := {
  token : pystr;
  created_at : Z;
  last_used : Z;
  use_count : nat;
  status : TokenStatus
}.

Record stats_t := {
  total_requests : nat;
  successful_switches : nat;
  tokens_created : nat;
  rate_limit_hits : nat
}.

(** The pool and the tasks that [asyncio.create_task] has scheduled and
    that have not run yet. *)
Record pool := {
  pool_size : nat;
  tokens : list TokenInfo;
  stats : stats_t;
  pending_health_checks : nat;
  pending_acquisitions : nat
}.

Section Pool.

(** The [exp] claim that [decode_jwt_payload] reads from a token, [None]
    when the token does not decode or has no [exp]; and the clock, in
    seconds. *)
Variable jwt_exp : pystr -> option Z.

(** [is_token_expired(token, buffer_minutes)] at time [now]. *)
Definition is_token_expired (tok : pystr) (buffer_minutes : Z) (now : Z) : bool :=
  match jwt_exp tok with
  | None => true
  | Some expiry_time => (expiry_time - now <=? buffer_minutes * 60)%Z
  end.

Definition is_expired (t : TokenInfo) (now : Z) : bool :=
  is_token_expired (token t) 5 now.

(** [t.status == TokenStatus.VALID and not t.is_expired()] *)
Definition usable (now : Z) (t : TokenInfo) : bool :=
  bool_decide (status t = VALID) && negb (is_expired t now).

Definition set_tokens (p : pool) (ts : list TokenInfo) : pool :=
  {| pool_size := pool_size p; tokens := ts; stats := stats p;
     pending_health_checks := pending_health_checks p;
     pending_acquisitions := pending_acquisitions p |}.

Definition set_stats (p : pool) (s : stats_t) : pool :=
  {| pool_size := pool_size p; tokens := tokens p; stats := s;
     pending_health_checks := pending_health_checks p;
     pending_acquisitions := pending_acquisitions p |}.

Definition count_created (p : pool) : pool :=
  set_stats p {| total_requests := total_requests (stats p);
                 successful_switches := successful_switches (stats p);
                 tokens_created := S (tokens_created (stats p));
                 rate_limit_hits := rate_limit_hits (stats p) |}.

(** [asyncio.create_task(self._ensure_pool_health())] *)
Definition schedule_health_check (p : pool) : pool :=
  {| pool_size := pool_size p; tokens := tokens p; stats := stats p;
     pending_health_checks := S (pending_health_checks p);
     pending_acquisitions := pending_acquisitions p |}.




Definition fresh_token (tok : pystr) (now last : Z) (uses : nat) : TokenInfo :=
  {| token := tok; created_at := now; last_used := last; use_count := uses;
     status := VALID |}.





(** [_find_valid_token(exclude_token)]: the index of the first usable
    token. *)
Fixpoint _find_valid_token (now : Z) (exclude_token : option pystr)
  (ts : list TokenInfo) (i : nat) : option nat :=
  match ts with
  | [] => None
  | token_info :: rest =>
      if ostr_truthy exclude_token && bool_decide (Some (token token_info) = exclude_token)
      then _find_valid_token now exclude_token rest (S i)
      else if usable now token_info then Some i
      else _find_valid_token now exclude_token rest (S i)
  end.

(** The first token equal to [failed_token] is marked rate-limited. *)
Fixpoint mark_rate_limited (failed_token : pystr) (ts : list TokenInfo) : list TokenInfo :=
  match ts with
  | [] => []
  | token_info :: rest =>
      if bool_decide (token token_info = failed_token)
      then {| token := token token_info; created_at := created_at token_info;
              last_used := last_used token_info; use_count := use_count token_info;
              status := RATE_LIMITED |} :: rest
      else token_info :: mark_rate_limited failed_token rest
  end.

Definition touch (now : Z) (t : TokenInfo) : TokenInfo :=
  {| token := token t; created_at := created_at t; last_used := now;
     use_count := S (use_count t); status := status t |}.

(** [_get_emergency_token] once the broker has answered [result]. *)
Definition _get_emergency_token (now : Z) (result : option pystr) (p : pool)
  : pool * option pystr :=
  match result with
  | Some tok =>
      if str_truthy tok
      then (count_created (set_tokens p (tokens p ++ [fresh_token tok now now 1])), Some tok)
      else (p, None)
  | None => (p, None)
  end.

(** [handle_rate_limit(failed_token)]; [emergency] is what the broker
    answers if it is asked. *)
Definition handle_rate_limit (now : Z) (failed_token : pystr) (emergency : option pystr)
  (p : pool) : pool * option pystr :=
  let p := set_stats p {| total_requests := total_requests (stats p);
                          successful_switches := successful_switches (stats p);
                          tokens_created := tokens_created (stats p);
                          rate_limit_hits := S (rate_limit_hits (stats p)) |} in
  let p := set_tokens p (mark_rate_limited failed_token (tokens p)) in
  match _find_valid_token now (Some failed_token) (tokens p) 0 with
  | Some i =>
      let p := set_stats p {| total_requests := total_requests (stats p);
                              successful_switches := S (successful_switches (stats p));
                              tokens_created := tokens_created (stats p);
                              rate_limit_hits := rate_limit_hits (stats p) |} in
      let p := set_tokens p (alter (touch now) i (tokens p)) in
      (schedule_health_check p, token <$> (tokens p !! i))
  | None =>
      let '(p, tok) := _get_emergency_token now emergency p in
      (schedule_health_check p, tok)
  end.

(** [get_valid_token]; [None] is the [RuntimeError]. *)
Definition get_valid_token (now : Z) (emergency : option pystr) (p : pool)
  : pool * option pystr :=
  let p := set_stats p {| total_requests := S (total_requests (stats p));
                          successful_switches := successful_switches (stats p);
                          tokens_created := tokens_created (stats p);
                          rate_limit_hits := rate_limit_hits (stats p) |} in
  match _find_valid_token now None (tokens p) 0 with
  | Some i =>
      let p := set_tokens p (alter (touch now) i (tokens p)) in
      (schedule_health_check p, token <$> (tokens p !! i))
  | None =>
      let '(p, tok) := _get_emergency_token now emergency p in
      (schedule_health_check p, tok)
  end.

(** [_fill_pool] once the concurrent acquisitions have returned. *)
Definition _fill_pool (now : Z) (results : list (option pystr)) (p : pool) : pool :=
  let needed :=
    (pool_size p - length (filter (fun t => bool_decide (status t = VALID)) (tokens p)))%nat in
  fold_left (fun p r =>
               match r with
               | Some tok => count_created (set_tokens p (tokens p ++ [fresh_token tok now 0 0]))
               | None => p
               end) (take needed results) p.

(** [WarpTokenPool(pool_size=n)] *)
Definition new_pool (n : nat) : pool :=
  {| pool_size := n; tokens := [];
     stats := {| total_requests := 0; successful_switches := 0;
                 tokens_created := 0; rate_limit_hits := 0 |};
     pending_health_checks := 0; pending_acquisitions := 0 |}.

End Pool.

End TokenPool.

(** * Properties *)

(** ** The history normalizer *)

Module NormalizerProps.
Import Reorder Clean.

(** Shorthands for the messages of the examples. *)
Definition call (id : string) : tool_call :=
  ToolCall (Some (py id)) (Some (py "function")) (Some (py "Bash", py "{}")).

Definition assistant_calls (text : string) (ids : list string) : ChatMessage :=
  Msg r_assistant (CStr (py text)) None (Some (map call ids)) None.

Definition assistant_says (text : string) : ChatMessage :=
  mk_msg r_assistant (CStr (py text)).

Definition tool_result (id text : string) : ChatMessage :=
  Msg r_tool (CStr (py text)) (Some (py id)) None None.

Definition user_says (text : string) : ChatMessage :=
  mk_msg r_user (CStr (py text)).

(** A tool result whose content is empty or blank. *)
Definition empty_tool_result (m : ChatMessage) : bool :=
  is_role r_tool m && content_is_empty (content m).

(** An assistant message with one tool call, its result, and an empty
    result for a call the assistant never made. *)
Definition history_with_stray_result : list ChatMessage :=
  [ assistant_calls "" ["t1"%string]; tool_result "t1" "r1"; tool_result "t2" "" ].

(** C2, at the failing input.  The inner loop of
    [clean_incomplete_tool_calls] appends a tool result whose id is not
    one of the assistant's calls as it is; when no call of the assistant
    lacks its result the list is not filtered, and the empty result
    reaches the output without the "No content" filling.  The same holds
    after the reordering pass. *)
Theorem clean_keeps_empty_stray_result :
  clean_incomplete_tool_calls history_with_stray_result = history_with_stray_result
  /\ normalize history_with_stray_result = history_with_stray_result
  /\ existsb empty_tool_result (clean_incomplete_tool_calls history_with_stray_result)
     = true.
Proof. repeat split; vm_compute; reflexivity. Qed.

End NormalizerProps.

(** ** The request assembler and the request handler *)

Module RouterProps.
Import Packets Router NormalizerProps.

Definition orphan_tool_message : ChatMessage := tool_result "call_1" "result".

(** C10. A request whose only message is a tool result that answers no
    assistant tool call passes the empty-messages validation, loses its
    only message in the normalizer, and makes
    [attach_user_and_tools_to_inputs] fail its assertion on an empty
    history: no packet is built. *)
Theorem orphan_tool_result_fails_assertion :
  forall (json : Type) (json_loads : pystr -> option json)
         (json_truthy : json -> bool) (empty_object : json) (STATE : state),
  exists req : ChatCompletionsRequest json,
    messages req = [orphan_tool_message]
    /\ messages req <> []
    /\ normalize (messages req) = []
    /\ attach_user_and_tools_to_inputs (@packet_template json)
         (normalize (messages req)) None = None
    /\ build_packet json json_loads json_truthy empty_object STATE req
       = Raised AssertionError.
Proof.
  intros json json_loads json_truthy empty_object STATE.
  exists (Build_ChatCompletionsRequest None [orphan_tool_message] false None).
  repeat split; try discriminate.
Qed.

(** The final messages for which [attach_user_and_tools_to_inputs]
    appends an input: a user message, a tool message with an id, an
    assistant message without tool calls. *)
Definition attaches_input (last : ChatMessage) : bool :=
  is_role r_user last
  || (is_role r_tool last && ostr_truthy (tool_call_id last))
  || (is_role r_assistant last && negb (has_tool_calls last)).

Lemma attach_inputs :
  forall (json : Type) (p p' : packet json) history system_prompt_text,
    attach_user_and_tools_to_inputs p history system_prompt_text = Some p' ->
    exists m,
      last history = Some m
      /\ length (inputs p') =
         (length (inputs p) + if attaches_input m then 1 else 0)%nat.
Proof.
  intros json p p' history sp H.
  unfold attach_user_and_tools_to_inputs in H.
  destruct (last history) as [m|] eqn:Hl; [|discriminate].
  exists m. split; [reflexivity|].
  unfold attaches_input.
  destruct (is_role r_user m) eqn:Hu.
  - injection H as <-. simpl. rewrite length_app. reflexivity.
  - destruct (is_role r_tool m && ostr_truthy (tool_call_id m)) eqn:Ht.
    + injection H as <-. simpl. rewrite length_app. reflexivity.
    + destruct (is_role r_assistant m) eqn:Ha; simpl.
      * destruct (has_tool_calls m); injection H as <-; simpl;
          [lia | rewrite length_app; reflexivity].
      * injection H as <-. lia.
Qed.

(** The request of the counterexample: a user message, then an
    assistant message whose only tool call carries no id. *)
Definition unanswerable_history : list ChatMessage :=
  [ user_says "run it";
    Msg r_assistant (CStr []) None
        (Some [ToolCall None (Some (py "function")) (Some (py "Bash", py "{}"))]) None ].

Definition unanswerable_request : ChatCompletionsRequest unit :=
  Build_ChatCompletionsRequest None unanswerable_history false None.

Definition idle_state : state :=
  {| baseline_task_id := py "task"; state_conversation_id := None;
     state_tool_call_id := py "call" |}.

(** C1, as stated, fails: the normalized history of this request is not
    empty and ends with an assistant message that still carries a tool
    call, and the packet is built with no input at all. *)
Lemma packet_without_input :
  normalize (messages unanswerable_request) = unanswerable_history
  /\ normalize (messages unanswerable_request) <> []
  /\ exists p,
       build_packet unit (fun _ => Some tt) (fun _ => false) tt idle_state
         unanswerable_request = Built p
       /\ inputs p = [].
Proof.
  split; [vm_compute; reflexivity|].
  split; [vm_compute; discriminate|].
  eexists. split; [vm_compute; reflexivity|reflexivity].
Qed.

(** C1, amended.  Whenever a packet is built, the normalized history has
    a final message, and [input.user_inputs.inputs] holds exactly one
    element when that message is a user message, a tool message with an
    id or an assistant message without tool calls, and none otherwise. *)
Theorem packet_inputs_by_final_message :
  forall (json : Type) (json_loads : pystr -> option json)
         (json_truthy : json -> bool) (empty_object : json) (STATE : state)
         (req : ChatCompletionsRequest json) (p : packet json),
    build_packet json json_loads json_truthy empty_object STATE req = Built p ->
    exists m,
      last (normalize (messages req)) = Some m
      /\ length (inputs p) = if attaches_input m then 1%nat else 0%nat.
Proof.
  intros json json_loads json_truthy empty_object STATE req p H.
  unfold build_packet in H.
  destruct (messages req) as [|m0 ms] eqn:Hm; [discriminate|].
  destruct (map_history_to_warp_messages _ _ _ _ _ _) as [msgs|]; [|discriminate].
  destruct (attach_user_and_tools_to_inputs _ _ _) as [p'|] eqn:Ha; [|discriminate].
  injection H as <-.
  apply attach_inputs in Ha. destruct Ha as (m & Hl & Hn).
  exists m. split; [exact Hl|]. simpl in *. exact Hn.
Qed.

Definition greeting_request : ChatCompletionsRequest unit :=
  Build_ChatCompletionsRequest None [user_says "hi"] false None.

Lemma packet_inputs_by_final_message_witness :
  exists p m,
    build_packet unit (fun _ => Some tt) (fun _ => false) tt idle_state
      greeting_request = Built p
    /\ last (normalize (messages greeting_request)) = Some m
    /\ length (inputs p) = if attaches_input m then 1%nat else 0%nat.
Proof.
  eexists.
  destruct (packet_inputs_by_final_message unit (fun _ => Some tt) (fun _ => false) tt
              idle_state greeting_request _ eq_refl) as (m & Hl & Hn).
  exists m. split; [reflexivity|]. split; assumption.
Defined.

End RouterProps.

(** ** The Anthropic translator *)

Module AnthropicProps.
Import AnthropicSse.

Definition tool_chunk (id name args : string) : openai_line :=
  LChunk (Chunk [Choice (Delta None None
                           [ToolCallDelta (Some (py id)) (Some (py name)) (Some (py args))])
                        None] None).

Definition finish_chunk (reason : string) : openai_line :=
  LChunk (Chunk [Choice (Delta None None []) (Some (py reason))]
                (Some (Usage 2000 7))).

(** Two tool calls opened in succession, then the end of the turn. *)
Definition two_tool_calls : list openai_line :=
  [ tool_chunk "c1" "Read" "{}"; tool_chunk "c2" "Bash" "{}"; finish_chunk "tool_calls" ].

Definition is_start_at (i : nat) (e : event) : bool :=
  match e with
  | ContentBlockStartText j | ContentBlockStartToolUse j _ _ => bool_decide (i = j)
  | _ => false
  end.

Definition is_stop_at (i : nat) (e : event) : bool :=
  match e with
  | ContentBlockStop j => bool_decide (i = j)
  | _ => false
  end.

(** C4, at the failing input.  When a tool block is already open, a new
    tool call only increments [content_index]: the block at index 0 is
    started and never stopped, although [message_delta] follows. *)
Theorem second_tool_call_leaves_block_open :
  stream_anthropic_sse two_tool_calls =
    [ MessageStart;
      ContentBlockStartToolUse 0 (py "c1") (py "Read");
      ContentBlockDeltaJson 0 (py "{}");
      ContentBlockStartToolUse 1 (py "c2") (py "Bash");
      ContentBlockDeltaJson 1 (py "{}");
      ContentBlockStop 1;
      MessageDelta (py "tool_use") 2000 7;
      MessageStop ]
  /\ length (filter (is_start_at 0) (stream_anthropic_sse two_tool_calls)) = 1%nat
  /\ length (filter (is_stop_at 0) (stream_anthropic_sse two_tool_calls)) = 0%nat.
Proof. repeat split; vm_compute; reflexivity. Qed.

End AnthropicProps.

(** ** The frame decoder *)

Module ApiClientProps.
Import Codecs ApiClient.

(** The decoding as the specification words it: after the whitespace is
    stripped, a text of hex digits is hex-decoded, any other text goes to
    the two base64 decoders. *)
Definition decode_as_specified (data_str : pystr) : option bytes :=
  let s := remove_whitespace data_str in
  if negb (str_truthy s) then None
  else if is_hex s then fromhex s
  else decode_base64 s.

(** C8, as stated, fails on a hex text of odd length: it cannot be
    hex-decoded, and the code hands it on to the base64 decoders, which
    produce a frame. *)
Lemma odd_hex_is_base64_decoded :
  is_hex (remove_whitespace (py "abc")) = true
  /\ fromhex (remove_whitespace (py "abc")) = None
  /\ decode_as_specified (py "abc") = None
  /\ _decode_payload_bytes (py "abc") = Some [105; 183]
  /\ _decode_payload_bytes (py "abc") <> decode_as_specified (py "abc").
Proof. repeat split; try (vm_compute; reflexivity). vm_compute. discriminate. Qed.

(** The bytes of a text of hex digits, two digits a byte. *)
Fixpoint hex_pairs (s : pystr) : bytes :=
  match s with
  | hi :: lo :: r =>
      (default 0 (hex_value hi) * 16 + default 0 (hex_value lo)) :: hex_pairs r
  | _ => []
  end.

Definition all_hex (s : pystr) : bool :=
  forallb (fun c => bool_decide (is_Some (hex_value c))) s.

Lemma fromhex_pairs (n : nat) :
  forall s, (length s <= n)%nat -> all_hex s = true ->
    fromhex s = if Nat.even (length s) then Some (hex_pairs s) else None.
Proof.
  induction n as [|n IH]; intros s Hn Hh.
  - destruct s; [reflexivity | simpl in Hn; lia].
  - destruct s as [|hi [|lo r]]; [reflexivity | reflexivity |].
    simpl in Hh. apply andb_prop in Hh as [Hhi Hh]. apply andb_prop in Hh as [Hlo Hr].
    apply bool_decide_eq_true in Hhi as [vh Hvh].
    apply bool_decide_eq_true in Hlo as [vl Hvl].
    cbn [fromhex hex_pairs length Nat.even].
    rewrite Hvh, Hvl. cbn [mbind option_bind default].
    rewrite (IH r); [| simpl in Hn; lia | exact Hr].
    destruct (Nat.even (length r)); reflexivity.
Qed.

Lemma remove_whitespace_of_spaces (data_str : pystr) :
  remove_whitespace (filter (fun c => py_isspace c = true) data_str) = [].
Proof.
  unfold remove_whitespace.
  induction data_str as [|c r IH]; [reflexivity|].
  rewrite filter_cons. destruct (decide (py_isspace c = true)) as [Hc|Hc]; [|exact IH].
  rewrite filter_cons. destruct (decide _) as [Hn|Hn]; [|exact IH].
  rewrite Hc in Hn. contradiction.
Qed.

(** C8, amended.  After the whitespace is stripped: an empty text gives
    no frame; a text of an even number of hex digits is hex-decoded; every
    other text, a hex text of odd length included, is decoded as URL-safe
    base64 with the padding repaired and, failing that, as standard
    base64.  A buffer of whitespace alone gives no frame, and on the blank
    line that ends a record the buffer is emptied whether or not it
    decoded: an undecodable buffer is skipped. *)
Theorem decode_payload_cases :
  forall (data_str : pystr),
    _decode_payload_bytes data_str =
      (let s := remove_whitespace data_str in
       if negb (str_truthy s) then None
       else if is_hex s && Nat.even (length s) then Some (hex_pairs s)
       else match urlsafe_b64decode (s ++ pad s) with
            | Some b => Some b
            | None => b64decode (s ++ pad s)
            end)
    /\ _decode_payload_bytes (filter (fun c => py_isspace c = true) data_str) = None
    /\ forall c rest,
         frames_of_lines ([] :: rest) (c :: data_str) =
           match _decode_payload_bytes (c :: data_str) with
           | Some raw_bytes => raw_bytes :: frames_of_lines rest []
           | None => frames_of_lines rest []
           end.
Proof.
  intros data_str. split; [|split].
  - unfold _decode_payload_bytes. cbv zeta.
    set (s := remove_whitespace data_str).
    destruct (str_truthy s) eqn:Hs; [|reflexivity]. cbn [negb].
    destruct (is_hex s) eqn:Hx; [|reflexivity].
    unfold is_hex in Hx. rewrite Hs in Hx. cbn [andb] in Hx.
    rewrite (fromhex_pairs (length s) s (le_n _) Hx).
    destruct (Nat.even (length s)); reflexivity.
  - unfold _decode_payload_bytes. cbv zeta.
    rewrite remove_whitespace_of_spaces. reflexivity.
  - intros c rest. cbn [frames_of_lines].
    change (starts_with data_prefix []) with false. cbv iota.
    change (strip []) with (@nil N). cbn [str_truthy negb andb].
    destruct (_decode_payload_bytes (c :: data_str)); reflexivity.
Qed.

End ApiClientProps.

(** ** The recovery driver *)

Module RecoveryProps.
Import Packets SseTransform.

(** The suffix as the specification words it. *)
Definition specified_recovery_prompt (tool_name : pystr) : pystr :=
  nl ++ nl ++ py "[system auto-recovery] Please continue the task but do not use the "
  ++ tool_name
  ++ py " tool. Available tools: Read, Write, Edit, Bash, Glob, Grep, and other MCP tools.".

Definition specified_marker : pystr := py "[system auto-recovery]".

Section Driver.

Variable json : Type.
Variable embedded_todos : pystr -> option pystr.
Variable tool_match : pystr -> option pystr.
Variable count_tokens : pystr -> pystr -> nat.
Variable count_packet_tokens : packet json -> pystr -> Z.

Local Abbreviation driver :=
  (stream_openai_sse json embedded_todos tool_match count_tokens count_packet_tokens).
Local Abbreviation driver_rec :=
  (stream_openai_sse_rec json embedded_todos tool_match count_tokens count_packet_tokens).
Local Abbreviation try_once :=
  (attempt embedded_todos tool_match count_tokens).

(** A retry posts its packet and does not recurse. *)
Lemma retry_posts_once (fuel : nat) (p : packet json) model_id responses :
  snd (driver_rec (S fuel) p model_id 1 responses) = [p].
Proof.
  cbn [stream_openai_sse_rec].
  destruct (try_once _ _ _) as [[out e] rest].
  destruct e as [[tool_name msg| |]|]; reflexivity.
Qed.

Lemma first_internal_error_retries (fuel : nat) (p : packet json) model_id
  responses rest out tool_name error_message :
  try_once model_id (count_packet_tokens p model_id) responses
    = (out, Some (InternalErrorRecoverable tool_name error_message), rest) ->
  snd (driver_rec (S fuel) p model_id 0 responses) =
    p :: snd (driver_rec fuel (add_recovery_hint json tool_name p) model_id 1 rest).
Proof.
  intros Ha. cbn [stream_openai_sse_rec]. rewrite Ha. cbn [Nat.leb Nat.add].
  destruct (driver_rec fuel _ model_id 1 rest) as [out' posted]. reflexivity.
Qed.

Lemma amend_last_query_snoc (skip : pystr -> bool) suffix (p : packet json)
  inputs0 q plain_text :
  inputs p = inputs0 ++ [InUserQuery q plain_text] ->
  inputs (amend_last_query json skip suffix p) =
    inputs0 ++ [InUserQuery (if skip q then q else q ++ suffix) plain_text].
Proof.
  intros Hi. unfold amend_last_query. rewrite Hi, last_snoc.
  destruct (skip q); [exact Hi|].
  cbn [inputs]. rewrite removelast_last. reflexivity.
Qed.

(** C3, amended.  When the first attempt ([retry_count = 0]) ends in a
    recoverable internal error that names a tool, the driver posts a
    second packet whose last [user_query.query] is the old query followed
    by the Chinese recovery text with the tool name substituted; the
    query is left as it is when it already holds the marker
    "[系统自动恢复]". *)
Theorem recovery_hint_on_first_internal_error :
  forall (p : packet json) (model_id : pystr) (responses rest : list response)
         (out : list sse_chunk) (tool_name error_message : pystr)
         (inputs0 : list warp_input) (q plain_text : pystr),
    str_truthy tool_name = true ->
    try_once model_id (count_packet_tokens p model_id) responses
      = (out, Some (InternalErrorRecoverable (Some tool_name) error_message), rest) ->
    inputs p = inputs0 ++ [InUserQuery q plain_text] ->
    exists p',
      snd (driver p model_id responses) = [p; p']
      /\ inputs p' =
         inputs0 ++
         [InUserQuery
            (if contains (py "[系统自动恢复]") q then q
             else q ++ nl ++ nl ++ py "[系统自动恢复] 请继续之前的任务，但不要使用 "
                  ++ tool_name
                  ++ py " 工具。可用的工具包括：Read、Write、Edit、Bash、Glob、Grep 等 MCP 工具。")
            plain_text].
Proof.
  intros p model_id responses rest out tool_name msg inputs0 q pt Ht Ha Hi.
  exists (add_recovery_hint json (Some tool_name) p). split.
  - unfold stream_openai_sse.
    rewrite (first_internal_error_retries 1 p model_id responses rest out
               (Some tool_name) msg Ha).
    rewrite (retry_posts_once 0). reflexivity.
  - unfold add_recovery_hint.
    rewrite (amend_last_query_snoc _ _ p inputs0 q pt Hi).
    unfold recovery_prompt. cbn [ostr_truthy]. rewrite Ht. reflexivity.
Qed.

End Driver.

(** A first answer that ends in an internal error naming [read_files],
    and a second one that succeeds. *)
Definition failing_then_fine : list response :=
  [ Response 200
      [FEvent (EventData None None
                 (Some (Finished (Some (py "tool_call:{read_files:{}}")) false CwiMissing)))];
    Response 200
      [FEvent (EventData
                 (Some [Action (Some (py "ok")) None None None None]) None None);
       FEvent (EventData None None (Some (Finished None false CwiMissing)))] ].

Definition hi_packet : packet unit :=
  Packet [] (py "task") [InUserQuery (py "hi") []] (py "claude-4-sonnet") None [].

Definition names_read_files (error_message : pystr) : option pystr :=
  Some (py "read_files").

(** C3, as stated, fails: the text appended for [read_files] is not the
    English sentence of the claim, and the query of the retry does not
    hold the marker "[system auto-recovery]". *)
Lemma recovery_text_is_not_english :
  recovery_prompt (Some (py "read_files")) <> specified_recovery_prompt (py "read_files")
  /\ exists p' q plain_text,
       snd (stream_openai_sse unit (fun _ => None) names_read_files (fun _ _ => 1%nat)
              (fun _ _ => 10%Z) hi_packet (py "claude-4-sonnet") failing_then_fine)
         = [hi_packet; p']
       /\ inputs p' = [InUserQuery q plain_text]
       /\ q = py "hi" ++ recovery_prompt (Some (py "read_files"))
       /\ q <> py "hi" ++ specified_recovery_prompt (py "read_files")
       /\ contains specified_marker q = false.
Proof.
  split; [vm_compute; discriminate|].
  eexists. eexists. eexists.
  split; [vm_compute; reflexivity|].
  split; [reflexivity|].
  split; [vm_compute; reflexivity|].
  split; [vm_compute; discriminate | vm_compute; reflexivity].
Qed.

Lemma recovery_hint_on_first_internal_error_witness :
  exists p',
    snd (stream_openai_sse unit (fun _ => None) names_read_files (fun _ _ => 1%nat)
           (fun _ _ => 10%Z) hi_packet (py "claude-4-sonnet") failing_then_fine)
      = [hi_packet; p']
    /\ inputs p' =
       [] ++
       [InUserQuery
          (if contains (py "[系统自动恢复]") (py "hi") then py "hi"
           else py "hi" ++ nl ++ nl ++ py "[系统自动恢复] 请继续之前的任务，但不要使用 "
                ++ py "read_files"
                ++ py " 工具。可用的工具包括：Read、Write、Edit、Bash、Glob、Grep 等 MCP 工具。")
          []].
Proof.
  apply (recovery_hint_on_first_internal_error unit (fun _ => None) names_read_files
           (fun _ _ => 1%nat) (fun _ _ => 10%Z) hi_packet (py "claude-4-sonnet")
           failing_then_fine (tl failing_then_fine) [] (py "read_files")
           (py "tool_call:{read_files:{}}") [] (py "hi") []);
    reflexivity.
Defined.

End RecoveryProps.

(** ** Splitting tool results *)

Module HelpersProps.
Import Helpers.















End HelpersProps.

(** ** The OpenAI translator *)

Module TranslatorProps.
Import Packets SseTransform.

(** The nearest integer to a float, ties to even, as [round] gives it. *)
Definition round_float (f : float) : option Z :=
  match Prim2SF f with
  | S754_zero _ => Some 0%Z
  | S754_finite s m e =>
      let magnitude :=
        match e with
        | Z0 => Zpos m
        | Zpos p => (Zpos m * 2 ^ Zpos p)%Z
        | Zneg p =>
            let d := (2 ^ Zpos p)%Z in
            let q := (Zpos m / d)%Z in
            let r := (Zpos m mod d)%Z in
            if (2 * r <? d)%Z then q
            else if (d <? 2 * r)%Z then (q + 1)%Z
            else if Z.even q then q else (q + 1)%Z
        end in
      Some (if s then (- magnitude)%Z else magnitude)
  | _ => None
  end.

(** [prompt_tokens] as the specification words it, for a ratio in 0..1:
    the ratio times the context window, rounded. *)
Definition specified_prompt_tokens (ratio : float) (model_id : pystr) : option Z :=
  round_float (PrimFloat.mul ratio (float_of_Z (get_model_context_window model_id))).

Definition sonnet : pystr := py "claude-4-sonnet".

Definition usage_ratio (ratio : float) : context_window_info_t :=
  CwiDict (Some (PyFloat ratio)) None None false.

(** The utilization a [finished] event reports, 0 when it reports none:
    in a dictionary the first of [context_window_usage] and [used] that
    is present and not zero, and the value of [ratio] otherwise; a bare
    number that is not zero, converted to a float. *)
Definition reported_ratio (cwi : context_window_info_t) : num :=
  match cwi with
  | CwiMissing => PyInt 0
  | CwiDict context_window_usage used ratio _ =>
      match List.find num_truthy (omap (fun x => x) [context_window_usage; used]) with
      | Some n => n
      | None => default (PyInt 0) ratio
      end
  | CwiNumber (PyInt z) => if num_truthy (PyInt z) then PyFloat (float_of_Z z) else PyInt 0
  | CwiNumber (PyFloat f) => if num_truthy (PyFloat f) then PyFloat f else PyInt 0
  end.

(** The pre-computed estimate of the request, or 1000 when it is not
    positive. *)
Definition request_estimate (input_tokens : Z) : Z :=
  if (0 <? input_tokens)%Z then input_tokens else 1000%Z.

(** [prompt_tokens] as the amended claim words it: a reported
    utilization greater than 0 is multiplied by the context window of
    the model and truncated by [int()] ([None] when [int()] raises);
    without one, the estimate of the request is used. *)
Definition amended_prompt_tokens (cwi : context_window_info_t) (model_id : pystr)
  (input_tokens : Z) : option Z :=
  let window :=
    if contains (py "claude-3") (lower model_id) || contains (py "claude-4") (lower model_id)
    then 200000%Z else 100000%Z in
  match reported_ratio cwi with
  | PyFloat ratio =>
      if PrimFloat.ltb 0%float ratio
      then int_of_float (PrimFloat.mul ratio (float_of_Z window))
      else Some (request_estimate input_tokens)
  | PyInt ratio =>
      if (0 <? ratio)%Z then Some (ratio * window)%Z
      else Some (request_estimate input_tokens)
  end.

(** A record that makes the translator emit nothing: it carries no
    action, no task description and no [finished] (the summary record
    the bridge sends after the events is one). *)
Definition silent_event (ev : event_data) : bool :=
  match client_actions ev, update_task_description ev, finished ev with
  | None, None, None | Some [], None, None => true
  | _, _, _ => false
  end.

(** What may follow the [finished] event: silent and undecodable
    records, up to [data: [DONE]] or the end of the response. *)
Fixpoint quiet_tail (frames : list frame) : bool :=
  match frames with
  | [] => true
  | FDone :: _ => true
  | FBad :: rest => quiet_tail rest
  | FEvent ev :: rest => silent_event ev && quiet_tail rest
  end.

(** C6, as stated, fails on the prompt tokens.  For the ratio 2^-18 and
    a 200,000-token window the product is 0.762939453125 exactly: it
    rounds to 1, and the code, which converts with [int()], reports 0.
    For the ratio 0, which is in 0..1, the code does not multiply at all
    and reports the estimate made from the request. *)
Lemma prompt_tokens_are_truncated :
  Prim2SF (PrimFloat.mul 0x1p-18%float (float_of_Z 200000))
    = S754_finite false 6871947673600000 (-53)
  /\ specified_prompt_tokens 0x1p-18%float sonnet = Some 1%Z
  /\ estimate_prompt_tokens (usage_ratio 0x1p-18%float) sonnet 57 = Some 0%Z
  /\ specified_prompt_tokens 0%float sonnet = Some 0%Z
  /\ estimate_prompt_tokens (usage_ratio 0%float) sonnet 57 = Some 57%Z.
Proof. repeat split; vm_compute; reflexivity. Qed.

Section Translator.

Variable embedded_todos : pystr -> option pystr.
Variable tool_match : pystr -> option pystr.
Variable count_tokens : pystr -> pystr -> nat.

Local Abbreviation step_message := (message_step embedded_todos).
Local Abbreviation step_action := (action_step embedded_todos).
Local Abbreviation step_event := (event_step embedded_todos tool_match count_tokens).
Local Abbreviation process := (process_frames embedded_todos tool_match count_tokens).

(** A message that the translator turns into the tool-call chunk of a
    [call_mcp_tool]. *)
Definition is_mcp_tool_call (m : task_message) : bool :=
  match tm_tool_call_result m, tm_tool_call m with
  | None, Some (UpstreamToolCall _ (Some (name, _))) => str_truthy name
  | _, _ => false
  end.

Definition action_calls_tool (a : action) : bool :=
  existsb is_mcp_tool_call (default [] (add_messages_to_task a)).

Definition event_calls_tool (ev : event_data) : bool :=
  existsb action_calls_tool (default [] (client_actions ev)).

Definition is_tool_calls_chunk (c : sse_chunk) : bool :=
  match c with
  | ToolCallsChunk _ _ _ => true
  | _ => false
  end.

(** What a step does to [tool_calls_emitted]: it sets the flag exactly
    when [calls] holds of its input, and then it emits a tool-call
    chunk. *)
Definition flags {A : Type} (step : tstate -> A -> tstate * list sse_chunk)
  (calls : A -> bool) : Prop :=
  forall st a,
    tool_calls_emitted (fst (step st a)) = tool_calls_emitted st || calls a
    /\ (calls a = true -> existsb is_tool_calls_chunk (snd (step st a)) = true).

Lemma emit_text_flags : flags emit_text (fun _ => false).
Proof.
  intros st t. unfold emit_text.
  destruct (str_truthy t); cbn; rewrite orb_false_r; split; auto; discriminate.
Qed.

Lemma emit_opt_text_flags : flags emit_opt_text (fun _ => false).
Proof.
  intros st [t|]; [apply emit_text_flags|].
  cbn. rewrite orb_false_r. split; auto; discriminate.
Qed.

Lemma message_step_flags : flags step_message is_mcp_tool_call.
Proof.
  intros st m. unfold message_step, is_mcp_tool_call.
  destruct (tm_tool_call_result m) as [tcr|].
  - destruct (ostr_truthy (tcr_tool_call_id tcr)); [|cbn; rewrite orb_false_r; split; auto; discriminate].
    destruct (if str_truthy (tcr_serialized_result tcr) then _ else None);
      cbn; rewrite orb_false_r; split; auto; discriminate.
  - destruct (tm_tool_call m) as [[id [[name args]|]]|];
      try (destruct (emit_opt_text_flags st (tm_agent_output_text m)) as [H1 H2];
           rewrite H1; split; [reflexivity | discriminate]).
    destruct (str_truthy name) eqn:Hn.
    + cbn. rewrite orb_true_r. split; reflexivity.
    + destruct (emit_opt_text_flags st (tm_agent_output_text m)) as [H1 H2].
      rewrite H1. split; [reflexivity | discriminate].
Qed.

Lemma run_flags {A : Type} (step : tstate -> A -> tstate * list sse_chunk)
  (calls : A -> bool) :
  flags step calls -> flags (run step) (existsb calls).
Proof.
  intros Hstep st l. revert st. induction l as [|a l IH]; intros st.
  - cbn. rewrite orb_false_r. split; auto; discriminate.
  - cbn [run existsb]. destruct (Hstep st a) as [H1 H2].
    destruct (step st a) as [st1 out1]. cbn [fst snd] in H1, H2.
    destruct (IH st1) as [H3 H4].
    destruct (run step st1 l) as [st2 out2]. cbn [fst snd] in *.
    rewrite H3, H1, orb_assoc. split; [reflexivity|].
    rewrite existsb_app. intros Hc. apply orb_prop in Hc as [Hc|Hc].
    + rewrite (H2 Hc). reflexivity.
    + rewrite (H4 Hc). apply orb_true_r.
Qed.

Lemma action_step_flags : flags step_action action_calls_tool.
Proof.
  intros st a. unfold action_step, action_calls_tool.
  destruct (emit_opt_text_flags st (append_to_message_content a)) as [F1 _].
  destruct (emit_opt_text st (append_to_message_content a)) as [st1 o1].
  destruct (run_flags _ _ message_step_flags st1 (default [] (add_messages_to_task a)))
    as [F2 C2].
  destruct (run step_message st1 _) as [st2 o2].
  destruct (emit_opt_text_flags st2 (update_task_message a)) as [F3 _].
  destruct (emit_opt_text st2 (update_task_message a)) as [st3 o3].
  destruct (run_flags _ _ emit_text_flags st3 (default [] (create_task a))) as [F4 _].
  destruct (run emit_text st3 _) as [st4 o4].
  destruct (emit_opt_text_flags st4 (update_task_summary a)) as [F5 _].
  destruct (emit_opt_text st4 (update_task_summary a)) as [st5 o5].
  cbn [fst snd] in *.
  assert (Hno : forall l : list pystr, existsb (fun _ => false) l = false)
    by (induction l; auto).
  rewrite Hno in F4.
  rewrite F5, F4, F3, F2, F1, !orb_false_r. split; [reflexivity|].
  intros Hc. rewrite !existsb_app, (C2 Hc). rewrite orb_true_r. reflexivity.
Qed.

Lemma estimated_output_tokens_positive (st : tstate) (model_id : pystr) :
  (1 <= estimated_output_tokens count_tokens st model_id)%Z.
Proof.
  unfold estimated_output_tokens.
  destruct (str_truthy (output_text st)); [|cbn; lia].
  destruct (Z.of_nat (count_tokens (output_text st) model_id) =? 0)%Z eqn:H0; [lia|].
  apply Z.eqb_neq in H0. lia.
Qed.

(** The events of a response up to its [finished] event. *)
Lemma event_step_unfinished (st : tstate) model_id input_tokens (ev : event_data) :
  finished ev = None ->
  exists st' out,
    step_event st model_id input_tokens ev = (st', out, None)
    /\ tool_calls_emitted st' = tool_calls_emitted st || event_calls_tool ev
    /\ (event_calls_tool ev = true -> existsb is_tool_calls_chunk out = true).
Proof.
  intros Hf. unfold event_step, event_calls_tool. rewrite Hf.
  destruct (run_flags _ _ action_step_flags st (default [] (client_actions ev)))
    as [F1 C1].
  destruct (run step_action st _) as [st1 o1]. cbn [fst snd] in *.
  destruct (update_task_description ev) as [d|].
  - destruct (emit_text_flags st1 (context_reset_notice d)) as [F2 _].
    destruct (emit_text st1 _) as [st2 o2]. cbn [fst snd] in *.
    exists st2, (o1 ++ o2). split; [reflexivity|]. rewrite F2, F1, orb_false_r.
    split; [reflexivity|]. intros Hc. rewrite existsb_app, (C1 Hc). reflexivity.
  - exists st1, (o1 ++ []). split; [reflexivity|]. split; [exact F1|].
    intros Hc. rewrite existsb_app, (C1 Hc). reflexivity.
Qed.

Lemma event_step_clean_finish (st : tstate) model_id input_tokens (ev : event_data)
  cwi prompt :
  finished ev = Some (Finished None false cwi) ->
  estimate_prompt_tokens cwi model_id input_tokens = Some prompt ->
  exists st' out completion,
    step_event st model_id input_tokens ev =
      (st',
       out ++ [FinalChunk (if tool_calls_emitted st || event_calls_tool ev
                           then py "tool_calls" else py "stop")
                          prompt completion (prompt + completion)%Z],
       None)
    /\ (1 <= completion)%Z
    /\ (event_calls_tool ev = true -> existsb is_tool_calls_chunk out = true).
Proof.
  intros Hf Hp. unfold event_step, event_calls_tool. rewrite Hf.
  destruct (run_flags _ _ action_step_flags st (default [] (client_actions ev)))
    as [F1 C1].
  destruct (run step_action st _) as [st1 o1]. cbn [fst snd] in *.
  assert (Hfin : forall st2, tool_calls_emitted st2 = tool_calls_emitted st1 ->
            finished_step tool_match count_tokens st2 model_id input_tokens
              (Finished None false cwi)
            = ([FinalChunk (if tool_calls_emitted st || existsb action_calls_tool
                                                         (default [] (client_actions ev))
                            then py "tool_calls" else py "stop")
                           prompt (estimated_output_tokens count_tokens st2 model_id)
                           (prompt + estimated_output_tokens count_tokens st2 model_id)%Z],
               None)).
  { intros st2 H2. unfold finished_step. cbn [internal_error llm_unavailable context_window_info].
    rewrite Hp, H2, F1. reflexivity. }
  destruct (update_task_description ev) as [d|].
  - destruct (emit_text_flags st1 (context_reset_notice d)) as [F2 _].
    destruct (emit_text st1 _) as [st2 o2]. cbn [fst snd] in *.
    rewrite orb_false_r in F2. rewrite (Hfin st2 F2).
    exists st2, (o1 ++ o2), (estimated_output_tokens count_tokens st2 model_id).
    rewrite <- !app_assoc. split; [reflexivity|].
    split; [apply estimated_output_tokens_positive|].
    intros Hc. rewrite existsb_app, (C1 Hc). reflexivity.
  - rewrite (Hfin st1 eq_refl).
    exists st1, o1, (estimated_output_tokens count_tokens st1 model_id).
    split; [reflexivity|]. split; [apply estimated_output_tokens_positive|]. exact C1.
Qed.

Lemma process_quiet_tail model_id input_tokens (tail : list frame) :
  quiet_tail tail = true ->
  forall st, process st model_id input_tokens tail = ([DONE], None).
Proof.
  induction tail as [|f tail IH]; intros Hq st; [reflexivity|].
  destruct f as [ev| |]; cbn [quiet_tail process_frames] in *; [|now apply IH|reflexivity].
  apply andb_prop in Hq as [Hev Hq]. rewrite <- (IH Hq st). clear IH.
  unfold silent_event in Hev. unfold event_step.
  destruct (client_actions ev) as [[|a actions]|]; try discriminate;
    destruct (update_task_description ev); try discriminate;
    destruct (finished ev); try discriminate; cbn [default from_option id run app];
    now destruct (process st model_id input_tokens tail).
Qed.

Lemma process_to_clean_finish model_id input_tokens (evs : list event_data)
  (fin : event_data) (tail : list frame) cwi prompt :
  Forall (fun ev => finished ev = None) evs ->
  finished fin = Some (Finished None false cwi) ->
  quiet_tail tail = true ->
  estimate_prompt_tokens cwi model_id input_tokens = Some prompt ->
  forall st,
  exists chunks completion,
    process st model_id input_tokens (map FEvent evs ++ FEvent fin :: tail) =
      (chunks ++ [FinalChunk (if tool_calls_emitted st
                                 || existsb event_calls_tool (evs ++ [fin])
                              then py "tool_calls" else py "stop")
                             prompt completion (prompt + completion)%Z;
                  DONE],
       None)
    /\ (1 <= completion)%Z
    /\ (existsb event_calls_tool (evs ++ [fin]) = true ->
        existsb is_tool_calls_chunk chunks = true).
Proof.
  intros Hall Hf Hq Hp. induction Hall as [|ev evs Hev Hall IH]; intros st.
  - cbn [map app process_frames existsb].
    destruct (event_step_clean_finish st model_id input_tokens fin cwi prompt Hf Hp)
      as (st' & out & completion & Hs & Hc & Ht).
    rewrite Hs, (process_quiet_tail model_id input_tokens tail Hq st').
    exists out, completion. rewrite orb_false_r, <- app_assoc.
    split; [reflexivity|]. split; [exact Hc|]. exact Ht.
  - cbn [map app process_frames existsb].
    destruct (event_step_unfinished st model_id input_tokens ev Hev)
      as (st' & out & Hs & Hflag & Ht).
    rewrite Hs. destruct (IH st') as (chunks & completion & Hrest & Hc & Ht').
    rewrite Hrest. exists (out ++ chunks), completion.
    rewrite Hflag, orb_assoc, <- app_assoc. split; [reflexivity|].
    split; [exact Hc|]. intros Hor. rewrite (existsb_app _ out chunks).
    apply orb_prop in Hor as [Hor|Hor].
    + rewrite (Ht Hor). reflexivity.
    + rewrite (Ht' Hor). apply orb_true_r.
Qed.

Lemma window_sizes (model_id : pystr) :
  get_model_context_window model_id =
    if contains (py "claude-3") (lower model_id) || contains (py "claude-4") (lower model_id)
    then 200000%Z else 100000%Z.
Proof.
  unfold get_model_context_window.
  destruct (contains (py "claude-3") (lower model_id)); [reflexivity|].
  destruct (contains (py "claude-4") (lower model_id)); reflexivity.
Qed.

(** The code computes the prompt tokens the amended claim words, for
    every form of [context_window_info]. *)
Lemma prompt_tokens_as_amended (cwi : context_window_info_t) (model_id : pystr)
  (input_tokens : Z) :
  estimate_prompt_tokens cwi model_id input_tokens
  = amended_prompt_tokens cwi model_id input_tokens.
Proof.
  unfold estimate_prompt_tokens, amended_prompt_tokens, fallback_input_tokens,
    request_estimate.
  rewrite window_sizes. cbv zeta.
  set (window := if contains (py "claude-3") (lower model_id)
                    || contains (py "claude-4") (lower model_id)
                 then 200000%Z else 100000%Z).
  destruct cwi as [|a b r other|[z|f]]; cbn [cwi_truthy reported_ratio].
  - reflexivity.
  - assert (Hsome : forall n : num, bool_decide (is_Some (Some n)) = true)
      by (intros n; apply bool_decide_eq_true_2; eauto).
    assert (Hnone : bool_decide (is_Some (@None num)) = false)
      by (apply bool_decide_eq_false_2; intros [? ?]; discriminate).
    destruct a as [a|], b as [b|], r as [r|];
      rewrite ?Hsome, ?Hnone;
      cbn [omap list_omap default from_option id List.find orb];
      change (num_truthy (PyInt 0)) with false;
      repeat match goal with
             | |- context [num_truthy ?n] =>
                 let H := fresh "Hn" in destruct (num_truthy n) eqn:H
             end;
      try reflexivity;
      destruct other; reflexivity.
  - destruct (num_truthy (PyInt z)); reflexivity.
  - destruct (num_truthy (PyFloat f)); reflexivity.
Qed.

(** C6, amended.  A response whose events end with a clean [finished]
    event (no [internal_error], no [llm_unavailable]), followed only by
    records that make the translator emit nothing (the summary record of
    the bridge, undecodable records) up to [data: [DONE]] or the end of
    the response, is translated into chunks that end with the
    terminating chunk and then [data: [DONE]].  The terminating chunk has
    [finish_reason] "tool_calls" when the chunk of a [call_mcp_tool] tool
    call was emitted in the attempt, and "stop" when no tool-call chunk
    was emitted at all.  Its [prompt_tokens] is, for every form of
    [context_window_info] (the keys [context_window_usage], [used] and
    [ratio] of a dictionary, or a bare number): the reported utilization
    times the context window of the model (200,000 when the lower-cased
    model name contains "claude-3" or "claude-4", otherwise 100,000)
    truncated to an integer by [int()] when the utilization is greater
    than 0, and the estimate of the request (1000 when that is not
    positive) when the utilization is absent, zero or not greater than
    0.  Its
    [completion_tokens] is at least 1 and [total_tokens] is their sum. *)
Theorem clean_finish_ends_stream :
  forall (model_id : pystr) (input_tokens : Z) (evs : list event_data)
         (fin : event_data) (tail : list frame) (cwi : context_window_info_t)
         (prompt : Z),
    Forall (fun ev => finished ev = None) evs ->
    finished fin = Some (Finished None false cwi) ->
    quiet_tail tail = true ->
    amended_prompt_tokens cwi model_id input_tokens = Some prompt ->
    exists chunks completion,
      _process_sse_response_lines embedded_todos tool_match count_tokens
        model_id input_tokens (map FEvent evs ++ FEvent fin :: tail) =
        (chunks ++ [FinalChunk (if existsb event_calls_tool (evs ++ [fin])
                                then py "tool_calls" else py "stop")
                               prompt completion (prompt + completion)%Z;
                    DONE],
         None)
      /\ (1 <= completion)%Z
      /\ (existsb event_calls_tool (evs ++ [fin]) = true ->
          existsb is_tool_calls_chunk chunks = true)
      /\ (existsb is_tool_calls_chunk chunks = false ->
          existsb event_calls_tool (evs ++ [fin]) = false).
Proof.
  intros model_id input_tokens evs fin tail cwi prompt Hall Hf Hq Hp.
  rewrite <- prompt_tokens_as_amended in Hp.
  destruct (process_to_clean_finish model_id input_tokens evs fin tail cwi prompt
              Hall Hf Hq Hp (TState false []))
    as (chunks & completion & Hrun & Hc & Ht).
  exists chunks, completion. cbn [tool_calls_emitted orb] in Hrun.
  split; [exact Hrun|]. split; [exact Hc|]. split; [exact Ht|].
  intros Hn. destruct (existsb event_calls_tool (evs ++ [fin])); [|reflexivity].
  rewrite Ht in Hn by reflexivity. discriminate.
Qed.

End Translator.

(** The text echo: one text delta, then [finished] with a ratio of 0.01
    (the double nearest to it). *)
Definition hello_event : event_data :=
  EventData (Some [Action (Some (py "hello")) None None None None]) None None.

Definition finished_event : event_data :=
  EventData None None
    (Some (Finished None false (usage_ratio 0x1.47ae147ae147bp-7%float))).

(** The summary record the bridge sends after the events. *)
Definition summary_record : event_data := EventData None None None.

Lemma clean_finish_ends_stream_witness :
  exists chunks completion,
    _process_sse_response_lines (fun _ => None) (fun _ => None) (fun _ _ => 1%nat)
      sonnet 57
      (map FEvent [hello_event] ++ FEvent finished_event :: [FEvent summary_record; FDone]) =
      (chunks ++ [FinalChunk (if existsb event_calls_tool ([hello_event] ++ [finished_event])
                              then py "tool_calls" else py "stop")
                             2000 completion (2000 + completion)%Z;
                  DONE],
       None)
    /\ (1 <= completion)%Z
    /\ (existsb event_calls_tool ([hello_event] ++ [finished_event]) = true ->
        existsb is_tool_calls_chunk chunks = true)
    /\ (existsb is_tool_calls_chunk chunks = false ->
        existsb event_calls_tool ([hello_event] ++ [finished_event]) = false).
Proof.
  apply (clean_finish_ends_stream (fun _ => None) (fun _ => None) (fun _ _ => 1%nat)
           sonnet 57 [hello_event] finished_event [FEvent summary_record; FDone]
           (usage_ratio 0x1.47ae147ae147bp-7%float) 2000).
  - repeat constructor.
  - reflexivity.
  - reflexivity.
  - vm_compute. reflexivity.
Defined.

End TranslatorProps.

(** ** The credential pool *)

Module TokenPoolProps.
Import TokenPool.

Section Maintenance.

Variable jwt_exp : pystr -> option Z.
Variable now : Z.

Local Abbreviation usable_now := (usable jwt_exp now).











End Maintenance.

(** Tokens that expire far in the future. *)
Definition long_lived (tok : pystr) : option Z := Some 1000000%Z.

Definition tok (s : string) : pystr := py s.





End TokenPoolProps.

(** ** Idempotence of the normalizer *)

Module NormalizerLaws.
Import Reorder Clean NormalizerProps.




Lemma is_role_eq (r : pystr) (m : ChatMessage) : is_role r m = true -> role m = r.
Proof. unfold is_role, pystr_eqb. apply bool_decide_eq_true. Qed.

Lemma is_role_other (r r' : pystr) (m : ChatMessage) :
  is_role r m = true -> r <> r' -> is_role r' m = false.
Proof.
  intros H Hne. apply is_role_eq in H. unfold is_role, pystr_eqb.
  apply bool_decide_eq_false. congruence.
Qed.

(** *** Pass A on a history without tool messages *)








(** *** Pass B on a history without tool messages *)

(** What Pass B makes of one message when no tool result can follow it:
    an assistant message whose tool calls carry ids loses them, and goes
    altogether if it has no content. *)
Definition clean_alone (m : ChatMessage) : list ChatMessage :=
  if is_role r_assistant m && has_tool_calls m then
    match expected_ids m with
    | [] => [m]
    | _ :: _ =>
        if content_truthy (content m)
        then [Msg (role m) (content m) None None None] else []
    end
  else [m].

Definition interrupts (m : ChatMessage) : bool :=
  is_role r_user m || is_role r_system m.


Lemma filter_none {A : Type} (P : A -> bool) (l : list A) :
  (forall x, x ∈ l -> P x = false) -> filter (fun x => P x) l = [].
Proof.
  induction l as [|a l IH]; intros H; [reflexivity|].
  rewrite filter_cons, decide_False.
  - apply IH. intros x Hx. apply H. now right.
  - rewrite (H a) by now left. exact id.
Qed.

Lemma expected_id_of_call (m : ChatMessage) (tc : tool_call) :
  tc ∈ tool_calls_or_nil m ->
  tc_truthy tc && ostr_truthy (tc_id tc) = true ->
  default [] (tc_id tc) ∈ expected_ids m.
Proof.
  intros Hin Ht. unfold expected_ids. apply list_elem_of_omap.
  exists tc. split; [exact Hin|]. rewrite Ht.
  apply andb_prop in Ht as [_ Ht]. destruct (tc_id tc); [reflexivity | discriminate].
Qed.





(** *** Both passes leave their own output alone *)

Lemma normalize_item_short (item : segment) : (length (normalize_item item) <= 1)%nat.
Proof.
  unfold normalize_item.
  destruct (seg_type item) as [ty|], (seg_text item) as [tx|];
    try destruct (str_truthy ty); try destruct (pystr_eqb _ _); cbn; lia.
Qed.

Lemma expand_message_settled (m m' : ChatMessage) :
  m' ∈ expand_message m -> expand_message m' = [m'].
Proof.
  unfold expand_message at 1. intros Hin.
  destruct (is_role r_user m) eqn:Hu.
  - assert (Hsame : forall c, (match c with
                               | CList _ => (1 <? length (normalize_content_to_list c))%nat
                               | _ => false
                               end) = false ->
                              content m = c -> expand_message m = [m]).
    { intros c Hc Hm. unfold expand_message. rewrite Hu, Hm.
      destruct c; try reflexivity. now rewrite Hc. }
    cbv zeta in Hin.
    destruct (content m) as [|s|l] eqn:Hc;
      try (apply list_elem_of_singleton in Hin; subst m';
           eapply Hsame; [|reflexivity]; reflexivity).
    destruct (1 <? length (normalize_content_to_list (CList l)))%nat eqn:Hlen.
    + apply list_elem_of_fmap in Hin as (seg & -> & _).
      destruct (seg_is_text seg); [reflexivity|].
      unfold expand_message. change (is_role r_user (mk_msg r_user (CList [seg]))) with true.
      cbn [content mk_msg normalize_content_to_list flat_map]. rewrite app_nil_r.
      pose proof (normalize_item_short seg) as Hs.
      destruct (1 <? length (normalize_item seg))%nat eqn:H1; [|reflexivity].
      apply Nat.ltb_lt in H1. lia.
    + apply list_elem_of_singleton in Hin. subst m'. now apply (Hsame (CList l) Hlen).
  - destruct (is_role r_assistant m && has_tool_calls m
              && (1 <? length (tool_calls_or_nil m))%nat) eqn:Ha.
    + apply elem_of_app in Hin as [Hin|Hin].
      * destruct (str_truthy _); [|now apply elem_of_nil in Hin].
        apply list_elem_of_singleton in Hin. now subst.
      * apply list_elem_of_fmap in Hin as (tc & -> & _). reflexivity.
    + apply list_elem_of_singleton in Hin. subst m'.
      unfold expand_message. now rewrite Hu, Ha.
Qed.

Lemma clean_alone_settled (m m' : ChatMessage) :
  m' ∈ clean_alone m ->
  (is_role r_tool m' = is_role r_tool m)
  /\ clean_alone m' = [m']
  /\ (expand_message m = [m] -> expand_message m' = [m']).
Proof.
  unfold clean_alone at 1. intros Hin.
  destruct (is_role r_assistant m && has_tool_calls m) eqn:Ha.
  - destruct (expected_ids m) as [|i ids] eqn:He.
    + apply list_elem_of_singleton in Hin. subst m'. repeat split; auto.
      unfold clean_alone. now rewrite Ha, He.
    + destruct (content_truthy (content m)); [|now apply elem_of_nil in Hin].
      apply list_elem_of_singleton in Hin. subst m'.
      apply andb_prop in Ha as [Hr _]. pose proof (is_role_eq _ _ Hr) as Hrole.
      repeat split.
      * unfold clean_alone, is_role, has_tool_calls. cbn. now rewrite andb_false_r.
      * intros _. unfold expand_message, is_role, has_tool_calls. cbn [role tool_calls].
        rewrite Hrole. reflexivity.
  - apply list_elem_of_singleton in Hin. subst m'. repeat split; auto.
    unfold clean_alone. now rewrite Ha.
Qed.



(** *** Histories that end with a user message *)

(** Fuel: the inner loop only consumes messages, so the outer loop never
    runs out. *)
Lemma gather_rest_length (expected : gset pystr) (messages : list ChatMessage) :
  forall g, (length (snd (gather expected messages g)) <= length messages)%nat.
Proof.
  induction messages as [|m rest IH]; intros g; [reflexivity|].
  cbn [gather].
  repeat match goal with
         | |- context [if ?b then _ else _] => destruct b
         end; cbn [snd length]; try (etransitivity; [apply IH|]); lia.
Qed.

Lemma clean_step_rest_length (m : ChatMessage) (rest fixed : list ChatMessage) :
  (length (snd (clean_step m rest fixed)) <= length rest)%nat.
Proof.
  unfold clean_step.
  destruct (is_role r_assistant m && has_tool_calls m).
  - pose proof (gather_rest_length (list_to_set (expected_ids m)) rest (Gathered [] ∅ []))
      as Hg.
    destruct (gather _ rest _) as [g rest']. cbn [snd] in Hg.
    destruct (negb _); exact Hg.
  - repeat match goal with
           | |- context [if ?b then _ else _] => destruct b
           end; reflexivity.
Qed.

Lemma clean_loop_fuel (fuel : nat) :
  forall messages fixed fuel',
    (length messages <= fuel)%nat -> (length messages <= fuel')%nat ->
    clean_loop fuel messages fixed = clean_loop fuel' messages fixed.
Proof.
  induction fuel as [|fuel IH]; intros messages fixed fuel' H1 H2.
  - destruct messages; [|simpl in H1; lia]. destruct fuel'; reflexivity.
  - destruct messages as [|m rest]; [destruct fuel'; reflexivity|].
    destruct fuel' as [|fuel']; [simpl in H2; lia|]. cbn [clean_loop].
    pose proof (clean_step_rest_length m rest fixed) as Hs.
    destruct (clean_step m rest fixed) as [fixed' rest']. cbn [snd] in Hs.
    apply IH; simpl in H1, H2; lia.
Qed.

(** The outer loop with the fuel it is given. *)
Definition clean_all (messages fixed : list ChatMessage) : list ChatMessage :=
  clean_loop (length messages) messages fixed.

Lemma clean_all_nil (fixed : list ChatMessage) : clean_all [] fixed = fixed.
Proof. reflexivity. Qed.

Lemma clean_all_cons (m : ChatMessage) (rest fixed : list ChatMessage) :
  clean_all (m :: rest) fixed =
    clean_all (snd (clean_step m rest fixed)) (fst (clean_step m rest fixed)).
Proof.
  unfold clean_all. cbn [length clean_loop].
  pose proof (clean_step_rest_length m rest fixed) as Hs.
  destruct (clean_step m rest fixed) as [fixed' rest']. cbn [fst snd] in *.
  apply clean_loop_fuel; lia.
Qed.

Lemma clean_incomplete_tool_calls_all (messages : list ChatMessage) :
  clean_incomplete_tool_calls messages = clean_all messages [].
Proof. destruct messages; reflexivity. Qed.

(** A tool result that names a call, an assistant message with tool
    calls, a message that is its own expansion. *)
Definition answering (m : ChatMessage) : bool :=
  is_role r_tool m && ostr_truthy (tool_call_id m).

Definition tid (m : ChatMessage) : pystr := default [] (tool_call_id m).

Definition calling (m : ChatMessage) : bool :=
  is_role r_assistant m && has_tool_calls m.

Definition settled (m : ChatMessage) : Prop := expand_message m = [m].

Lemma answering_id (m : ChatMessage) :
  answering m = true ->
  is_role r_tool m = true /\ tool_call_id m = Some (tid m) /\ str_truthy (tid m) = true.
Proof.
  unfold answering, tid. intros H. apply andb_prop in H as [Hr Hi].
  destruct (tool_call_id m) as [i|]; [|discriminate]. auto.
Qed.

Lemma answering_not_calling (m : ChatMessage) : answering m = true -> calling m = false.
Proof.
  intros H. apply answering_id in H as (Hr & _). unfold calling.
  rewrite (is_role_other _ r_assistant _ Hr) by discriminate. reflexivity.
Qed.


Lemma calling_not_tool (m : ChatMessage) : calling m = true -> is_role r_tool m = false.
Proof.
  unfold calling. intros H. apply andb_prop in H as [Hr _].
  apply (is_role_other _ _ _ Hr). discriminate.
Qed.

Lemma interrupts_plain (m : ChatMessage) :
  interrupts m = true -> is_role r_tool m = false /\ is_role r_assistant m = false.
Proof.
  unfold interrupts. intros H.
  apply orb_prop in H as [H|H]; split; apply (is_role_other _ _ _ H); discriminate.
Qed.

(** The shape of a list in which every tool result that answers a call
    of the list ([AT] holds their ids) comes right after the assistant
    message that makes the call, once per id; [Q] is what is known of an
    assistant message with tool calls that is not followed by a result. *)
Inductive Shape (AT : gset pystr) (Q : ChatMessage -> Prop)
  : gset pystr -> list ChatMessage -> Prop :=
| Shape_nil seen : Shape AT Q seen []
| Shape_pair seen A r id R :
    calling A = true -> call_ids A = [id] -> id ∈ AT -> id ∉ seen ->
    answering r = true -> tid r = id ->
    Shape AT Q (seen ∪ {[id]}) R ->
    Shape AT Q seen (A :: r :: R)
| Shape_one seen m R :
    (answering m = true -> tid m ∉ AT) ->
    (calling m = true -> Q m) ->
    Shape AT Q seen R ->
    Shape AT Q seen (m :: R).

(** After Pass A: the calls of a lone assistant message are known to
    [AT]; after Pass B: a lone assistant message has no call with an id. *)
Definition known_calls (AT : gset pystr) (m : ChatMessage) : Prop :=
  forall i, i ∈ call_ids m -> i ∈ AT.

Definition no_call_ids (m : ChatMessage) : Prop := call_ids m = [].

Definition last_is_user (l : list ChatMessage) : Prop :=
  exists u, last l = Some u /\ is_role r_user u = true.

(** The first tool result of a list that names [id]. *)
Fixpoint first_answer (l : list ChatMessage) (id : pystr) : option ChatMessage :=
  match l with
  | [] => None
  | m :: rest =>
      if answering m && bool_decide (tid m = id) then Some m else first_answer rest id
  end.

Lemma first_answer_Some (l : list ChatMessage) (id : pystr) (r : ChatMessage) :
  first_answer l id = Some r -> r ∈ l /\ answering r = true /\ tid r = id.
Proof.
  induction l as [|m rest IH]; [discriminate|]. cbn [first_answer].
  destruct (answering m && bool_decide (tid m = id)) eqn:Hm.
  - intros [= <-]. apply andb_prop in Hm as [Ha Hi]. apply bool_decide_eq_true in Hi.
    split; [now left | auto].
  - intros H. destruct (IH H) as (Hin & Ha & Hi). split; [now right | auto].
Qed.

Lemma index_by_id (l : list ChatMessage) :
  forall by_id ids k,
    fst (fold_left index_step l (by_id, ids)) !! k =
      match by_id !! k with
      | Some r => Some r
      | None => first_answer l k
      end.
Proof.
  induction l as [|m rest IH]; intros by_id ids k.
  - cbn. destruct (by_id !! k); reflexivity.
  - cbn [fold_left first_answer]. unfold index_step at 2.
    match goal with
    | |- context [fold_left index_step rest (?b, ?s)] => rewrite (IH b s k)
    end.
    unfold answering, tid.
    destruct (tool_call_id m) as [i|]; cbn [ostr_truthy default from_option id];
      [|destruct (by_id !! k); [reflexivity|]; destruct (is_role r_tool m); reflexivity].
    destruct (is_role r_tool m); cbn [andb]; [|reflexivity].
    destruct (str_truthy i); cbn [andb]; [|reflexivity].
    destruct (decide (i = k)) as [->|Hne].
    + rewrite (bool_decide_eq_true_2 (k = k)) by reflexivity.
      destruct (by_id !! k) eqn:Hb.
      * rewrite bool_decide_eq_false_2 by congruence. now rewrite Hb.
      * rewrite bool_decide_eq_true_2 by reflexivity. now rewrite lookup_insert_eq.
    + rewrite (bool_decide_eq_false_2 (i = k)) by exact Hne.
      destruct (bool_decide (by_id !! i = None)); [|reflexivity].
      now rewrite lookup_insert_ne.
Qed.

Lemma index_ids (l : list ChatMessage) :
  forall by_id ids i,
    i ∈ snd (fold_left index_step l (by_id, ids)) <->
    i ∈ ids \/ exists m, m ∈ l /\ calling m = true /\ i ∈ call_ids m.
Proof.
  induction l as [|m rest IH]; intros by_id ids i.
  - cbn. split; [auto|]. intros [H|(m & Hm & _)]; [exact H | now apply elem_of_nil in Hm].
  - cbn [fold_left]. unfold index_step at 2.
    match goal with
    | |- context [fold_left index_step rest (?b, ?s)] => rewrite (IH b s i)
    end.
    fold (calling m). destruct (calling m) eqn:Hc.
    + rewrite elem_of_union, elem_of_list_to_set. split.
      * intros [[H|H]|(m' & Hin & Hc' & Hi)]; [now left | right | right].
        -- exists m. split; [now left | auto].
        -- exists m'. split; [now right | auto].
      * intros [H|(m' & Hin & Hc' & Hi)]; [now left; left|].
        apply elem_of_cons in Hin as [->|Hin]; [now left; right|].
        right. exists m'. auto.
    + split.
      * intros [H|(m' & Hin & Hc' & Hi)]; [now left|].
        right. exists m'. split; [now right | auto].
      * intros [H|(m' & Hin & Hc' & Hi)]; [now left|].
        apply elem_of_cons in Hin as [->|Hin]; [congruence|].
        right. exists m'. auto.
Qed.

Lemma last_is_user_app (l1 l2 : list ChatMessage) :
  last_is_user l2 -> last_is_user (l1 ++ l2).
Proof.
  intros (u & Hl & Hu). exists u. split; [|exact Hu]. rewrite last_app, Hl. reflexivity.
Qed.

Lemma last_is_user_cons (m : ChatMessage) (l : list ChatMessage) :
  last_is_user (m :: l) -> (l = [] /\ is_role r_user m = true) \/ last_is_user l.
Proof.
  intros (u & Hl & Hu). destruct l as [|m' l'].
  - left. cbn in Hl. injection Hl as ->. auto.
  - right. exists u. split; [exact Hl | exact Hu].
Qed.

Lemma user_plain (m : ChatMessage) :
  is_role r_user m = true ->
  is_role r_tool m = false /\ calling m = false /\ answering m = false /\ interrupts m = true.
Proof.
  intros H. unfold calling, answering, interrupts. rewrite H.
  rewrite (is_role_other _ r_tool _ H), (is_role_other _ r_assistant _ H) by discriminate.
  auto.
Qed.

(** *** Pass A, when the final input is a user message *)

Lemma settled_one_call (m : ChatMessage) :
  settled m -> calling m = true -> exists tc, tool_calls_or_nil m = [tc].
Proof.
  unfold settled, expand_message, calling. intros Hs Hc. rewrite Hc in Hs.
  apply andb_prop in Hc as [Hr Hh].
  rewrite (is_role_other _ r_user _ Hr) in Hs by discriminate. cbn [andb] in Hs.
  unfold has_tool_calls, tool_calls_or_nil in *.
  destruct (tool_calls m) as [[|tc [|tc' l]]|]; try discriminate; [now exists tc|].
  exfalso. cbn in Hs. destruct (str_truthy _); discriminate.
Qed.

Lemma call_ids_short (m : ChatMessage) :
  settled m -> calling m = true -> call_ids m = [] \/ exists id, call_ids m = [id].
Proof.
  intros Hs Hc. destruct (settled_one_call m Hs Hc) as [tc Htc].
  unfold call_ids. rewrite Htc. cbn.
  destruct (match tc_id tc with Some i => _ | None => None end) as [i|]; [right; now exists i | now left].
Qed.

Definition by_id_ok (by_id : gmap pystr ChatMessage) : Prop :=
  forall k r, by_id !! k = Some r -> answering r = true /\ tid r = k /\ settled r.

Lemma by_id_ok_delete (by_id : gmap pystr ChatMessage) (k : pystr) :
  by_id_ok by_id -> by_id_ok (delete k by_id).
Proof.
  intros H k' r Hl. apply lookup_delete_Some in Hl as [_ Hl]. now apply H.
Qed.

Lemma tool_settled (m : ChatMessage) : is_role r_tool m = true -> settled m.
Proof.
  intros H. unfold settled, expand_message.
  rewrite (is_role_other _ r_user _ H), (is_role_other _ r_assistant _ H) by discriminate.
  reflexivity.
Qed.

Lemma walk_shape (AT : gset pystr) :
  forall E res by_id seen,
    Forall settled E ->
    (forall m, m ∈ E -> calling m = true -> known_calls AT m) ->
    by_id_ok by_id ->
    (forall k, k ∈ seen -> by_id !! k = None) ->
    exists out by_id',
      fold_left (walk_step None AT) E (WalkState res None by_id)
        = WalkState (res ++ out) None by_id'
      /\ Shape AT (known_calls AT) seen out
      /\ Forall settled out
      /\ (last_is_user E -> last_is_user out).
Proof.
  induction E as [|m E IH]; intros res by_id seen Hset Hknown Hok Hseen.
  - exists [], by_id. rewrite app_nil_r. repeat split; [constructor | constructor | auto].
  - apply Forall_cons in Hset as [Hm Hset].
    assert (Hknown' : forall m', m' ∈ E -> calling m' = true -> known_calls AT m')
      by (intros m' Hin; apply Hknown; now right).
    assert (Hkm : calling m = true -> known_calls AT m) by (apply Hknown; now left).
    assert (Hone : forall by_id1,
               by_id_ok by_id1 -> (forall k, k ∈ seen -> by_id1 !! k = None) ->
               (answering m = true -> tid m ∉ AT) ->
               (calling m = true -> known_calls AT m) ->
               exists out by_id',
                 fold_left (walk_step None AT) E (WalkState (res ++ [m]) None by_id1)
                   = WalkState (res ++ out) None by_id'
                 /\ Shape AT (known_calls AT) seen out
                 /\ Forall settled out
                 /\ (last_is_user (m :: E) -> last_is_user out)).
    { intros by_id1 Hok1 Hseen1 Ha Hc.
      destruct (IH (res ++ [m]) by_id1 seen Hset Hknown' Hok1 Hseen1)
        as (out & by_id' & Hf & Hsh & Hst & Hlast).
      exists (m :: out), by_id'. rewrite Hf, <- app_assoc. split; [reflexivity|].
      split; [now apply Shape_one|]. split; [now constructor|].
      intros Hl. apply last_is_user_cons in Hl as [[-> Hu]|Hl].
      - destruct out; [|inversion Hsh]; try (exists m; split; [reflexivity | exact Hu]).
        all: exfalso; clear -Hf;
          cbn in Hf; injection Hf as Hf _; apply (f_equal length) in Hf;
          rewrite !length_app in Hf; cbn in Hf; lia.
      - apply (last_is_user_app [m]). now apply Hlast. }
    cbn [fold_left]. unfold walk_step at 2.
    cbn [result trailing_assistant_msg tool_results_by_id].
    destruct (is_role r_tool m) eqn:Ht.
    + destruct (negb (ostr_truthy (tool_call_id m))
                || negb (bool_decide (default [] (tool_call_id m) ∈ AT))) eqn:Hin.
      * apply Hone.
        -- destruct (tool_call_id m) as [i|]; [destruct (str_truthy i)|]; auto using by_id_ok_delete.
        -- intros k Hk. destruct (tool_call_id m) as [i|]; [destruct (str_truthy i)|]; auto.
           apply lookup_delete_None. right. now apply Hseen.
        -- intros Ha. apply answering_id in Ha as (_ & Hid & Htr).
           rewrite Hid in Hin. cbn [ostr_truthy] in Hin. rewrite Htr in Hin. cbn in Hin.
           apply negb_true_iff, bool_decide_eq_false in Hin. exact Hin.
        -- intros Hc. rewrite (calling_not_tool m Hc) in Ht. discriminate.
      * destruct (IH res by_id seen Hset Hknown' Hok Hseen) as (out & by_id' & Hf & Hsh & Hst & Hlast).
        exists out, by_id'. repeat split; try assumption.
        intros Hl. apply last_is_user_cons in Hl as [[-> Hu]|Hl]; [|now apply Hlast].
        rewrite (is_role_other _ r_tool _ Hu) in Ht by discriminate. discriminate.
    + fold (calling m). destruct (calling m) eqn:Hc.
      * destruct (call_ids_short m Hm Hc) as [Hids|[id Hids]]; rewrite Hids; cbn [pop_results].
        -- apply Hone; auto. intros Ha. rewrite (answering_not_calling m Ha) in Hc. discriminate.
        -- cbn [pop_results]. destruct (by_id !! id) as [r|] eqn:Hr.
           ++ destruct (Hok id r Hr) as (Hra & Hrid & Hrs).
              assert (Hid : id ∈ AT)
                by (apply (Hknown m); [now left | exact Hc | rewrite Hids; now left]).
              assert (Hns : id ∉ seen) by (intros Hs; rewrite (Hseen id Hs) in Hr; discriminate).
              destruct (IH ((res ++ [m]) ++ [r]) (delete id by_id) (seen ∪ {[id]}) Hset Hknown')
                as (out & by_id' & Hf & Hsh & Hst & Hlast).
              { now apply by_id_ok_delete. }
              { intros k Hk. apply lookup_delete_None. apply elem_of_union in Hk as [Hk|Hk].
                - right. now apply Hseen.
                - left. apply elem_of_singleton in Hk. now subst. }
              exists (m :: r :: out), by_id'. rewrite Hf, <- !app_assoc. split; [reflexivity|].
              split; [now apply (Shape_pair AT _ seen m r id)|].
              split; [repeat constructor; assumption|].
              intros Hl. apply last_is_user_cons in Hl as [[-> Hu]|Hl].
              ** destruct (user_plain m Hu) as (_ & Hc' & _). congruence.
              ** apply (last_is_user_app [m; r]). now apply Hlast.
           ++ apply Hone; auto.
              intros Ha. rewrite (answering_not_calling m Ha) in Hc. discriminate.
      * apply Hone; auto.
        intros Ha. apply answering_id in Ha as (Hr & _). congruence.
Qed.

(** *** Pass B on a list of that shape *)

Lemma expected_ids_call_ids (m : ChatMessage) : expected_ids m = call_ids m.
Proof.
  unfold expected_ids, call_ids.
  induction (tool_calls_or_nil m) as [|tc l IH]; [reflexivity|].
  cbn [omap list_omap]. rewrite IH.
  destruct tc as [[i|] ty fn]; cbn; [|now rewrite andb_false_r].
  destruct (str_truthy i); reflexivity.
Qed.

Lemma interrupts_not_answering (m : ChatMessage) :
  interrupts m = true -> answering m = false.
Proof.
  intros H. apply interrupts_plain in H as [Ht _]. unfold answering. now rewrite Ht.
Qed.

Lemma interrupts_not_calling (m : ChatMessage) :
  interrupts m = true -> calling m = false.
Proof.
  intros H. apply interrupts_plain in H as [_ Ha]. unfold calling. now rewrite Ha.
Qed.

(** A list that, after its leading user and system messages, does not
    go on with a tool result that names a call. *)
Fixpoint quiet (l : list ChatMessage) : bool :=
  match l with
  | [] => true
  | x :: rest => if interrupts x then quiet rest else negb (answering x)
  end.

Lemma quiet_app (I l : list ChatMessage) :
  Forall (fun m => interrupts m = true) I -> quiet (I ++ l) = quiet l.
Proof.
  induction 1 as [|x I Hx _ IH]; [reflexivity|]. cbn [app quiet]. now rewrite Hx.
Qed.

(** The inner loop on a list of the shape: it takes the tool results
    that answer no call of the list and the user and system messages, up
    to the first other message. *)
Lemma gather_shape (AT : gset pystr) (Q : ChatMessage -> Prop) (E : gset pystr) :
  (forall i, i ∈ E -> i ∈ AT) ->
  forall seen R, Shape AT Q seen R ->
  forall tr found intr,
  exists T I rest,
    gather E R (Gathered tr found intr) = (Gathered (tr ++ T) found (intr ++ I), rest)
    /\ Forall (fun m => answering m = true /\ tid m ∉ AT) T
    /\ Forall (fun m => interrupts m = true) I
    /\ (forall P : ChatMessage -> Prop,
          Forall P R -> Forall P T /\ Forall P I /\ Forall P rest)
    /\ Shape AT Q seen rest
    /\ (length rest <= length R)%nat
    /\ (last_is_user R -> last_is_user (I ++ rest)).
Proof.
  intros HE seen R HR.
  induction HR as [seen|seen A r id R HA Hids Hid Hseen Hr Htid HR _|seen m R Hans Hcall HR IH];
    intros tr found intr.
  - exists [], [], []. rewrite !app_nil_r. repeat split; auto. constructor.
  - exists [], [], (A :: r :: R). rewrite !app_nil_r. cbn [gather tool_results found_tool_ids interrupted_messages].
    pose proof (calling_not_tool A HA) as Ht. rewrite Ht. cbn [andb].
    unfold calling in HA. apply andb_prop in HA as [Hrole Hh].
    rewrite (is_role_other _ r_user _ Hrole), (is_role_other _ r_system _ Hrole)
      by discriminate. cbn [orb].
    repeat split; auto.
    apply Shape_pair with (id := id); auto. unfold calling. now rewrite Hrole, Hh.
  - cbn [gather tool_results found_tool_ids interrupted_messages]. fold (answering m). fold (tid m). fold (interrupts m).
    destruct (answering m) eqn:Ha.
    + rewrite bool_decide_eq_false_2 by (intros Hin; apply (Hans eq_refl); now apply HE).
      destruct (IH (tr ++ [m]) found intr) as (T & I & rest & Hg & HT & HI & HP & Hsh & Hlen & Hlast).
      exists (m :: T), I, rest. rewrite Hg, <- app_assoc.
      split; [reflexivity|]. split; [constructor; auto|]. split; [exact HI|].
      split; [|split; [exact Hsh|split; [simpl; lia|]]].
      * intros P HPm. apply Forall_cons in HPm as [Hm HPR].
        destruct (HP P HPR) as (? & ? & ?). repeat split; auto.
      * intros Hl. apply Hlast. apply last_is_user_cons in Hl as [[_ Hu]|Hl]; [|exact Hl].
        destruct (user_plain m Hu) as (_ & _ & Ha' & _). congruence.
    + destruct (interrupts m) eqn:Hi.
      * destruct (IH tr found (intr ++ [m])) as (T & I & rest & Hg & HT & HI & HP & Hsh & Hlen & Hlast).
        exists T, (m :: I), rest. rewrite Hg, <- app_assoc.
        split; [reflexivity|]. split; [exact HT|]. split; [constructor; auto|].
        split; [|split; [exact Hsh|split; [simpl; lia|]]].
        -- intros P HPm. apply Forall_cons in HPm as [Hm HPR].
           destruct (HP P HPR) as (? & ? & ?). repeat split; auto.
        -- intros Hl. apply last_is_user_cons in Hl as [[-> Hu]|Hl].
           ++ cbn [gather] in Hg. inversion Hg as [[HT' HI' Hrest]].
              apply (f_equal length) in HI'. rewrite !length_app in HI'.
              destruct I; [|cbn in HI'; lia].
              exists m. split; [reflexivity | exact Hu].
           ++ change (last_is_user ([m] ++ (I ++ rest))).
              apply last_is_user_app. now apply Hlast.
      * exists [], [], (m :: R). rewrite !app_nil_r.
        repeat split; auto; try constructor; auto. congruence.
Qed.

Lemma gather_again (E : gset pystr) (T I X : list ChatMessage) :
  Forall (fun m => answering m = true /\ tid m ∉ E) T ->
  Forall (fun m => interrupts m = true) I ->
  quiet X = true ->
  forall tr found intr,
  exists I' X',
    X = I' ++ X'
    /\ Forall (fun m => interrupts m = true) I'
    /\ gather E (T ++ I ++ X) (Gathered tr found intr)
       = (Gathered (tr ++ T) found (intr ++ I ++ I'), X').
Proof.
  intros HT. induction HT as [|t T [Ha Hid] _ IHT]; intros HI HX tr found intr.
  - cbn [app]. revert intr. induction HI as [|i I Hi _ IHI]; intros intr.
    + cbn [app]. revert intr. induction X as [|x X IHX]; intros intr.
      * exists [], []. rewrite !app_nil_r. repeat split. constructor.
      * cbn [quiet] in HX. cbn [gather tool_results found_tool_ids interrupted_messages]. fold (answering x). fold (interrupts x).
        destruct (interrupts x) eqn:Hx.
        -- rewrite (interrupts_not_answering x Hx).
           destruct (IHX HX (intr ++ [x])) as (I' & X' & -> & HI' & Hg).
           exists (x :: I'), X'. rewrite Hg, <- app_assoc.
           repeat split. now constructor.
        -- apply negb_true_iff in HX. rewrite HX.
           exists [], (x :: X). rewrite !app_nil_r. repeat split. constructor.
    + cbn [app gather tool_results found_tool_ids interrupted_messages]. fold (answering i). fold (interrupts i).
      rewrite (interrupts_not_answering i Hi), Hi.
      destruct (IHI (intr ++ [i])) as (I' & X' & -> & HI' & Hg).
      exists I', X'. rewrite Hg, <- !app_assoc. repeat split. exact HI'.
  - cbn [app gather tool_results found_tool_ids interrupted_messages]. fold (answering t). fold (tid t). rewrite Ha.
    rewrite bool_decide_eq_false_2 by exact Hid.
    destruct (IHT HI HX (tr ++ [t]) found intr) as (I' & X' & -> & HI' & Hg).
    exists I', X'. rewrite Hg, <- !app_assoc. repeat split. exact HI'.
Qed.

(** The rounds of the outer loop. *)
Lemma clean_step_plain (m : ChatMessage) (rest fixed : list ChatMessage) :
  calling m = false -> is_role r_tool m = false ->
  clean_step m rest fixed = (fixed ++ [m], rest).
Proof.
  intros Hc Ht. unfold clean_step. fold (calling m). now rewrite Hc, Ht.
Qed.

Lemma clean_step_tool (m : ChatMessage) (rest fixed : list ChatMessage) :
  is_role r_tool m = true ->
  clean_step m rest fixed =
    if has_matching_tool_use (tool_call_id m) (rev fixed)
    then (fixed ++ [if content_is_empty (content m) then filled m else m], rest)
    else (fixed, rest).
Proof.
  intros Ht. unfold clean_step.
  rewrite (is_role_other _ r_assistant _ Ht) by discriminate. cbn [andb]. rewrite Ht.
  destruct (has_matching_tool_use _ _), (content_is_empty (content m)); reflexivity.
Qed.

Lemma clean_step_complete (A : ChatMessage) (rest fixed : list ChatMessage)
  (g : gathered) (rest' : list ChatMessage) :
  calling A = true ->
  gather (list_to_set (call_ids A)) rest (Gathered [] ∅ []) = (g, rest') ->
  (forall i, i ∈ call_ids A -> i ∈ found_tool_ids g) ->
  clean_step A rest fixed
    = (fixed ++ [A] ++ tool_results g ++ interrupted_messages g, rest').
Proof.
  intros Hc Hg Hf. unfold clean_step. fold (calling A).
  rewrite Hc, expected_ids_call_ids. cbv zeta. rewrite Hg.
  rewrite bool_decide_eq_true_2.
  - cbn [negb]. now rewrite <- app_assoc.
  - apply elem_of_equiv_empty_L. intros i [Hi Hn]%elem_of_difference.
    apply Hn, Hf. now apply elem_of_list_to_set in Hi.
Qed.

Lemma clean_step_missing (A : ChatMessage) (rest fixed : list ChatMessage)
  (g : gathered) (rest' : list ChatMessage) (id : pystr) :
  calling A = true -> call_ids A = [id] ->
  gather (list_to_set (call_ids A)) rest (Gathered [] ∅ []) = (g, rest') ->
  found_tool_ids g = ∅ ->
  clean_step A rest fixed
    = (fixed ++ clean_alone A ++ interrupted_messages g, rest').
Proof.
  intros Hc Hids Hg Hf. unfold clean_step, clean_alone. fold (calling A).
  rewrite Hc, expected_ids_call_ids. cbv zeta. rewrite Hg, Hf, Hids.
  rewrite difference_empty_L.
  rewrite bool_decide_eq_false_2 by (rewrite list_to_set_cons; set_solver). cbn [negb].
  rewrite filter_none.
  - rewrite (filter_none (fun tr => bool_decide (default [] (tool_call_id tr) ∈ (∅ : gset pystr))))
      by (intros x _; apply bool_decide_eq_false_2; set_solver).
    cbn [app]. unfold set_last. rewrite removelast_last.
    destruct (content_truthy (content A)); rewrite <- ?app_assoc, ?app_nil_l; reflexivity.
  - intros tc Htc.
    destruct (tc_truthy tc && ostr_truthy (tc_id tc)) eqn:Ht; [|reflexivity].
    cbn [andb]. apply negb_false_iff, bool_decide_eq_true.
    rewrite <- Hids, <- expected_ids_call_ids. apply elem_of_list_to_set.
    now apply expected_id_of_call.
Qed.

Lemma clean_all_interrupts (I X : list ChatMessage) :
  Forall (fun m => interrupts m = true) I ->
  forall fixed, clean_all (I ++ X) fixed = clean_all X (fixed ++ I).
Proof.
  induction 1 as [|i I Hi _ IH]; intros fixed.
  - now rewrite app_nil_r.
  - cbn [app]. rewrite clean_all_cons, clean_step_plain.
    + cbn [fst snd]. rewrite IH, <- app_assoc. reflexivity.
    + now apply interrupts_not_calling.
    + now apply interrupts_plain in Hi as [? _].
Qed.

(** No message kept so far makes a call outside [AT]. *)
Definition fix_inv (AT : gset pystr) (fixed : list ChatMessage) : Prop :=
  Forall (fun m => calling m = true -> known_calls AT m) fixed.

Lemma calls_mention_id (id : pystr) (m : ChatMessage) :
  str_truthy id = true -> calls_mention (Some id) m = true -> id ∈ call_ids m.
Proof.
  intros Hid H. unfold calls_mention in H. apply existsb_exists in H as (tc & Hin & Htc).
  apply andb_prop in Htc as [_ Heq]. apply bool_decide_eq_true in Heq.
  unfold call_ids. apply list_elem_of_omap. exists tc.
  split; [now apply list_elem_of_In|]. now rewrite Heq, Hid.
Qed.

Lemma no_matching_tool_use (AT : gset pystr) (id : pystr) (l : list ChatMessage) :
  str_truthy id = true -> id ∉ AT -> fix_inv AT l ->
  has_matching_tool_use (Some id) l = false.
Proof.
  intros Hid Hout. induction 1 as [|x l Hx _ IH]; [reflexivity|].
  cbn [has_matching_tool_use]. fold (calling x). destruct (calling x) eqn:Hc.
  - destruct (calls_mention (Some id) x) eqn:Hm; [|exact IH].
    exfalso. apply Hout, (Hx eq_refl). now apply calls_mention_id.
  - destruct (is_role r_assistant x); [reflexivity | exact IH].
Qed.

Lemma clean_all_plain (L X : list ChatMessage) :
  Forall (fun m => calling m = false /\ is_role r_tool m = false) L ->
  forall fixed, clean_all (L ++ X) fixed = clean_all X (fixed ++ L).
Proof.
  induction 1 as [|x L [Hc Ht] _ IH]; intros fixed.
  - now rewrite app_nil_r.
  - cbn [app]. rewrite clean_all_cons, clean_step_plain by assumption.
    cbn [fst snd]. rewrite IH, <- app_assoc. reflexivity.
Qed.

Lemma clean_nil_out (fixed out : list ChatMessage) :
  clean_all [] fixed = fixed ++ out -> out = [].
Proof.
  rewrite clean_all_nil. intros H. apply (app_inv_head fixed). now rewrite app_nil_r.
Qed.

Lemma last_is_user_swap (I rest out : list ChatMessage) :
  (rest = [] -> out = []) ->
  (last_is_user rest -> last_is_user out) ->
  last_is_user (I ++ rest) -> last_is_user (I ++ out).
Proof.
  intros Hnil Hlast H. destruct rest as [|x rest]; [now rewrite Hnil|].
  apply last_is_user_app, Hlast. destruct H as (u & Hl & Hu). exists u.
  split; [|exact Hu]. rewrite last_app in Hl. destruct (last (x :: rest)) eqn:Hx; [exact Hl|].
  now apply last_None in Hx.
Qed.

(** A tool result as Pass B keeps it. *)
Definition refill (m : ChatMessage) : ChatMessage :=
  if content_is_empty (content m) then filled m else m.

Lemma refill_facts (m : ChatMessage) :
  is_role r_tool (refill m) = is_role r_tool m
  /\ tool_call_id (refill m) = tool_call_id m
  /\ content_is_empty (content (refill m)) = false.
Proof.
  unfold refill. destruct (content_is_empty (content m)) eqn:He; auto.
Qed.

Lemma refill_answering (m : ChatMessage) :
  answering (refill m) = answering m /\ tid (refill m) = tid m
  /\ refill (refill m) = refill m.
Proof.
  destruct (refill_facts m) as (Hr & Hi & He). unfold answering, tid.
  rewrite Hr, Hi. repeat split. unfold refill at 1. now rewrite He.
Qed.

Lemma gather_answer (E : gset pystr) (r : ChatMessage) (L tr : list ChatMessage)
  (found : gset pystr) (intr : list ChatMessage) :
  answering r = true -> tid r ∈ E ->
  gather E (r :: L) (Gathered tr found intr)
    = gather E L (Gathered (tr ++ [refill r]) (found ∪ {[tid r]}) intr).
Proof.
  intros Ha Hin. cbn [gather tool_results found_tool_ids interrupted_messages].
  fold (answering r). fold (tid r). rewrite Ha, bool_decide_eq_true_2 by exact Hin.
  unfold refill. destruct (content_is_empty (content r)); reflexivity.
Qed.

Lemma tool_facts (m : ChatMessage) :
  is_role r_tool m = true -> calling m = false /\ interrupts m = false.
Proof.
  intros Ht. unfold calling, interrupts.
  rewrite (is_role_other _ r_assistant _ Ht), (is_role_other _ r_user _ Ht),
    (is_role_other _ r_system _ Ht) by discriminate. auto.
Qed.

Lemma shape_strays (AT : gset pystr) (Q : ChatMessage -> Prop) (seen : gset pystr)
  (T L : list ChatMessage) :
  Forall (fun m => answering m = true /\ tid m ∉ AT) T ->
  Shape AT Q seen L -> Shape AT Q seen (T ++ L).
Proof.
  intros HT HL. induction HT as [|t T [Ha Hid] _ IH]; [exact HL|].
  cbn [app]. apply Shape_one; auto.
  rewrite (answering_not_calling t Ha). discriminate.
Qed.

Lemma shape_plain (AT : gset pystr) (Q : ChatMessage -> Prop) (seen : gset pystr)
  (B L : list ChatMessage) :
  Forall (fun m => calling m = false /\ answering m = false) B ->
  Shape AT Q seen L -> Shape AT Q seen (B ++ L).
Proof.
  intros HB HL. induction HB as [|b B [Hc Ha] _ IH]; [exact HL|].
  cbn [app]. apply Shape_one; auto; congruence.
Qed.

Lemma fix_inv_app (AT : gset pystr) (fixed L : list ChatMessage) :
  fix_inv AT fixed -> Forall (fun m => calling m = false) L -> fix_inv AT (fixed ++ L).
Proof.
  intros Hf HL. apply Forall_app. split; [exact Hf|].
  eapply Forall_impl; [exact HL|]. cbn. intros m Hm. congruence.
Qed.

Lemma caller_stable (A : ChatMessage) (pre T I X fixed : list ChatMessage)
  (found : gset pystr) :
  calling A = true ->
  (forall L, gather (list_to_set (call_ids A)) (pre ++ L) (Gathered [] ∅ [])
             = gather (list_to_set (call_ids A)) L (Gathered pre found [])) ->
  (forall i, i ∈ call_ids A -> i ∈ found) ->
  Forall (fun m => answering m = true
                   /\ tid m ∉ (list_to_set (call_ids A) : gset pystr)) T ->
  Forall (fun m => interrupts m = true) I ->
  quiet X = true ->
  clean_all X (fixed ++ [A] ++ pre ++ T ++ I) = (fixed ++ [A] ++ pre ++ T ++ I) ++ X ->
  clean_all (A :: pre ++ T ++ I ++ X) fixed = fixed ++ A :: pre ++ T ++ I ++ X.
Proof.
  intros Hc Hpre Hf HT HI HX Hrest.
  destruct (gather_again _ T I X HT HI HX pre found []) as (I' & X' & HXeq & HI' & Hg).
  rewrite clean_all_cons.
  rewrite (clean_step_complete A _ fixed (Gathered (pre ++ T) found ([] ++ I ++ I')) X' Hc).
  - cbn [fst snd tool_results interrupted_messages app].
    replace (fixed ++ A :: (pre ++ T) ++ I ++ I')
      with ((fixed ++ [A] ++ pre ++ T ++ I) ++ I')
      by (rewrite <- !app_assoc; reflexivity).
    rewrite <- (clean_all_interrupts I' X' HI'), <- HXeq, Hrest.
    rewrite <- !app_assoc. reflexivity.
  - rewrite Hpre. exact Hg.
  - exact Hf.
Qed.

Lemma fix_inv_rev (AT : gset pystr) (fixed : list ChatMessage) :
  fix_inv AT fixed -> fix_inv AT (rev fixed).
Proof. apply Forall_rev. Qed.

Lemma not_user (m : ChatMessage) (R : list ChatMessage) :
  is_role r_user m = false -> last_is_user (m :: R) -> last_is_user R.
Proof.
  intros Hm H. apply last_is_user_cons in H as [[_ Hu]|H]; [congruence | exact H].
Qed.

Lemma calling_not_user (m : ChatMessage) : calling m = true -> is_role r_user m = false.
Proof.
  unfold calling. intros H. apply andb_prop in H as [Hr _].
  apply (is_role_other _ _ _ Hr). discriminate.
Qed.

Ltac same_list :=
  repeat first [rewrite <- app_assoc | progress cbn [app]]; reflexivity.

(** Pass B on the output of Pass A: what it returns is of the same
    shape, with no call left unanswered, and Pass B returns it unchanged
    when run on it again. *)
Lemma clean_shape (AT : gset pystr) :
  forall n R seen fixed,
    (length R <= n)%nat ->
    Shape AT (known_calls AT) seen R ->
    Forall settled R ->
    fix_inv AT fixed ->
    exists out,
      clean_all R fixed = fixed ++ out
      /\ clean_all out fixed = fixed ++ out
      /\ Shape AT no_call_ids seen out
      /\ quiet out = true
      /\ Forall settled out
      /\ (last_is_user R -> last_is_user out).
Proof.
  induction n as [|n IH]; intros R seen fixed Hlen HR Hset Hfix.
  { destruct R; [|simpl in Hlen; lia]. exists []. rewrite app_nil_r.
    repeat split; auto; constructor. }
  destruct R as [|m R0].
  { exists []. rewrite app_nil_r. repeat split; auto; constructor. }
  simpl in Hlen. apply Forall_cons in Hset as [Hm Hset0].
  inversion HR as [|seen' A r id R2 HA Hids Hid Hns Hr Htid HR2
                   |seen' m' R' Hans Hcall HR0]; subst.
  - (* an assistant message and the result of its call *)
    apply Forall_cons in Hset0 as [_ Hset2]. cbn [length] in Hlen.
    assert (HE : forall i, i ∈ (list_to_set (call_ids m) : gset pystr) -> i ∈ AT).
    { intros i Hi. rewrite Hids in Hi. apply elem_of_list_to_set, list_elem_of_singleton in Hi.
      now subst. }
    destruct (gather_shape AT _ _ HE _ _ HR2 ([] ++ [refill r]) (∅ ∪ {[tid r]}) [])
      as (T & I & rest & Hg & HT & HI & HP & Hsh & Hl & Hlast).
    destruct (HP settled Hset2) as (HsT & HsI & Hsrest).
    destruct (refill_answering r) as (Hra & Hrt & Hrr).
    destruct (IH rest (seen ∪ {[tid r]}) (fixed ++ [m] ++ [refill r] ++ T ++ I))
      as (out & H1 & H2 & H3 & H4 & H5 & H6); auto; [lia| |].
    { apply Forall_app. split; [exact Hfix|].
      constructor.
      - intros _ i Hi. rewrite Hids in Hi. apply list_elem_of_singleton in Hi. now subst.
      - constructor; [rewrite (answering_not_calling _ (eq_trans Hra Hr)); discriminate|].
        apply Forall_app. split.
        + eapply Forall_impl; [exact HT|]. cbn. intros x [Hx _].
          rewrite (answering_not_calling x Hx). discriminate.
        + eapply Forall_impl; [exact HI|]. cbn. intros x Hx.
          rewrite (interrupts_not_calling x Hx). discriminate. }
    exists (m :: [refill r] ++ T ++ I ++ out).
    split; [|split; [|split; [|split; [|split]]]].
    + rewrite clean_all_cons.
      rewrite (clean_step_complete m _ fixed
                 (Gathered (([] ++ [refill r]) ++ T) (∅ ∪ {[tid r]}) ([] ++ I)) rest HA).
      * cbn [fst snd tool_results interrupted_messages app].
        cbn [app] in H1. rewrite H1. same_list.
      * rewrite gather_answer; [exact Hg | exact Hr|].
        rewrite Hids. apply elem_of_list_to_set. now left.
      * cbn [found_tool_ids]. intros i Hi. rewrite Hids in Hi.
        apply list_elem_of_singleton in Hi. subst.
        apply elem_of_union. right. now apply elem_of_singleton.
    + apply (caller_stable m [refill r] T I out fixed (∅ ∪ {[tid r]})); auto.
      * intros L. cbn [app]. rewrite gather_answer.
        -- now rewrite Hrr, Hrt.
        -- now rewrite Hra.
        -- rewrite Hrt, Hids. apply elem_of_list_to_set. now left.
      * intros i Hi. rewrite Hids in Hi. apply list_elem_of_singleton in Hi. subst.
        apply elem_of_union. right. now apply elem_of_singleton.
      * eapply Forall_impl; [exact HT|]. cbn. intros x [Hx Hn]. split; [exact Hx|].
        intros Hin. apply Hn, HE, Hin.
    + apply Shape_pair with (id := tid r); auto; [now rewrite Hra|].
      apply shape_strays; [exact HT|]. apply shape_plain; [|exact H3].
      eapply Forall_impl; [exact HI|]. cbn. intros x Hx.
      split; [now apply interrupts_not_calling | now apply interrupts_not_answering].
    + cbn [quiet]. destruct (interrupts m) eqn:Hi.
      * rewrite (interrupts_not_calling m Hi) in HA. discriminate.
      * destruct (answering m) eqn:Ha; [|reflexivity].
        rewrite (answering_not_calling m Ha) in HA. discriminate.
    + constructor; [exact Hm|]. constructor.
      * apply tool_settled. rewrite (proj1 (refill_facts r)).
        now apply answering_id in Hr as [? _].
      * repeat (apply Forall_app; split); auto.
    + intros Hlu. apply (last_is_user_app [m; refill r]).
      apply (last_is_user_app T).
      apply (last_is_user_swap I rest out).
      * intros ->. now apply clean_nil_out in H1.
      * exact H6.
      * apply Hlast. apply (not_user r); [|apply (not_user m); [|exact Hlu]].
        -- apply answering_id in Hr as [Hr' _]. apply (is_role_other _ _ _ Hr'). discriminate.
        -- now apply calling_not_user.
  - destruct (calling m) eqn:Hc.
    + pose proof (Hcall eq_refl) as Hknown.
      assert (HE : forall i, i ∈ (list_to_set (call_ids m) : gset pystr) -> i ∈ AT).
      { intros i Hi. apply elem_of_list_to_set in Hi. now apply Hknown. }
      destruct (gather_shape AT _ _ HE _ _ HR0 [] ∅ [])
        as (T & I & rest & Hg & HT & HI & HP & Hsh & Hl & Hlast).
      destruct (HP settled Hset0) as (HsT & HsI & Hsrest).
      destruct (call_ids_short m Hm Hc) as [Hids|[id Hids]].
      * (* an assistant message whose call has no id *)
        destruct (IH rest seen (fixed ++ [m] ++ T ++ I))
          as (out & H1 & H2 & H3 & H4 & H5 & H6); auto; [lia| |].
        { apply Forall_app. split; [exact Hfix|].
          constructor; [intros _; exact Hknown|].
          apply Forall_app. split.
          + eapply Forall_impl; [exact HT|]. cbn. intros x [Hx _].
            rewrite (answering_not_calling x Hx). discriminate.
          + eapply Forall_impl; [exact HI|]. cbn. intros x Hx.
            rewrite (interrupts_not_calling x Hx). discriminate. }
        exists (m :: T ++ I ++ out).
        split; [|split; [|split; [|split; [|split]]]].
        -- rewrite clean_all_cons.
           rewrite (clean_step_complete m _ fixed (Gathered ([] ++ T) ∅ ([] ++ I)) rest Hc Hg).
           ++ cbn [fst snd tool_results interrupted_messages app].
              cbn [app] in H1. rewrite H1. same_list.
           ++ intros i Hi. rewrite Hids in Hi. now apply elem_of_nil in Hi.
        -- apply (caller_stable m [] T I out fixed ∅); auto.
           ++ intros i Hi. rewrite Hids in Hi. now apply elem_of_nil in Hi.
           ++ eapply Forall_impl; [exact HT|]. cbn. intros x [Hx Hn]. split; [exact Hx|].
              intros Hin. apply Hn, HE, Hin.
        -- cbn [app]. apply Shape_one; [|intros _; exact Hids|].
           ++ intros Ha. rewrite (answering_not_calling m Ha) in Hc. discriminate.
           ++ apply shape_strays; [exact HT|]. apply shape_plain; [|exact H3].
              eapply Forall_impl; [exact HI|]. cbn. intros x Hx.
              split; [now apply interrupts_not_calling | now apply interrupts_not_answering].
        -- cbn [quiet app]. destruct (interrupts m) eqn:Hi.
           ++ rewrite (interrupts_not_calling m Hi) in Hc. discriminate.
           ++ destruct (answering m) eqn:Ha; [|reflexivity].
              rewrite (answering_not_calling m Ha) in Hc. discriminate.
        -- cbn [app]. constructor; [exact Hm|]. repeat (apply Forall_app; split); auto.
        -- intros Hlu. apply (last_is_user_app [m]). apply (last_is_user_app T).
           apply (last_is_user_swap I rest out).
           ++ intros ->. now apply clean_nil_out in H1.
           ++ exact H6.
           ++ apply Hlast. apply (not_user m); [now apply calling_not_user | exact Hlu].
      * (* an assistant message whose call has no result *)
        assert (Halone : Forall (fun x => (calling x = false /\ is_role r_tool x = false)
                                          /\ interrupts x = false /\ settled x)
                           (clean_alone m)).
        { apply Forall_forall. intros x Hx.
          pose proof (clean_alone_settled m x Hx) as (Hrt & _ & Hsx).
          unfold clean_alone in Hx. fold (calling m) in Hx.
          rewrite Hc, expected_ids_call_ids, Hids in Hx.
          destruct (content_truthy (content m)); [|now apply elem_of_nil in Hx].
          apply list_elem_of_singleton in Hx. subst x.
          pose proof (calling_not_tool m Hc) as Hmt.
          unfold calling in Hc. apply andb_prop in Hc as [Hrole _].
          repeat split; auto.
          - unfold calling, has_tool_calls. cbn. now rewrite andb_false_r.
          - unfold interrupts, is_role in *. cbn [role].
            pose proof (is_role_other _ r_user _ Hrole) as Hu.
            pose proof (is_role_other _ r_system _ Hrole) as Hs.
            unfold is_role in Hu, Hs. rewrite Hu, Hs by discriminate. reflexivity.
          - apply Hsx, Hm. }
        destruct (IH rest seen (fixed ++ clean_alone m ++ I))
          as (out & H1 & H2 & H3 & H4 & H5 & H6); auto; [lia| |].
        { apply fix_inv_app; [exact Hfix|]. apply Forall_app. split.
          + eapply Forall_impl; [exact Halone|]. cbn. tauto.
          + eapply Forall_impl; [exact HI|]. cbn. intros x Hx.
            now apply interrupts_not_calling. }
        assert (Hplain : Forall (fun x => calling x = false /\ is_role r_tool x = false)
                           (clean_alone m ++ I)).
        { apply Forall_app. split.
          + eapply Forall_impl; [exact Halone|]. cbn. tauto.
          + eapply Forall_impl; [exact HI|]. cbn. intros x Hx.
            split; [now apply interrupts_not_calling | now apply interrupts_plain in Hx as [? _]]. }
        exists ((clean_alone m ++ I) ++ out).
        split; [|split; [|split; [|split; [|split]]]].
        -- rewrite clean_all_cons.
           rewrite (clean_step_missing m _ fixed (Gathered ([] ++ T) ∅ ([] ++ I)) rest id Hc Hids Hg)
             by reflexivity.
           cbn [fst snd interrupted_messages app]. rewrite H1. same_list.
        -- rewrite clean_all_plain by exact Hplain.
           rewrite <- app_assoc, H2. same_list.
        -- apply shape_plain; [|exact H3].
           eapply Forall_impl; [exact Hplain|]. cbn. intros x [Hx Ht].
           split; [exact Hx|]. unfold answering. now rewrite Ht.
        -- rewrite <- app_assoc.
           destruct (clean_alone m) as [|x l] eqn:Hal.
           ++ cbn [app]. now rewrite quiet_app.
           ++ apply Forall_cons in Halone as [((_ & Hxt) & Hxi & _) _].
              cbn [app quiet]. rewrite Hxi. unfold answering. now rewrite Hxt.
        -- repeat (apply Forall_app; split); auto.
           eapply Forall_impl; [exact Halone|]. cbn. tauto.
        -- intros Hlu. rewrite <- app_assoc. apply last_is_user_app.
           apply (last_is_user_swap I rest out).
           ++ intros ->. now apply clean_nil_out in H1.
           ++ exact H6.
           ++ apply Hlast. apply (not_user m); [now apply calling_not_user | exact Hlu].
    + destruct (is_role r_tool m) eqn:Ht.
      * destruct (tool_facts m Ht) as (_ & Hmi).
        assert (Hmu : is_role r_user m = false)
          by (apply (is_role_other _ _ _ Ht); discriminate).
        destruct (has_matching_tool_use (tool_call_id m) (rev fixed)) eqn:Hmatch.
        -- (* a tool result without an id that follows a call without one *)
           assert (Ha : answering m = false).
           { destruct (answering m) eqn:Ha; [|reflexivity].
             pose proof (answering_id m Ha) as (_ & Hi & Htr). rewrite Hi in Hmatch.
             rewrite (no_matching_tool_use AT (tid m)) in Hmatch; auto.
             now apply fix_inv_rev. }
           destruct (refill_facts m) as (Hrr & Hri & Hre).
           destruct (refill_answering m) as (Hra & _ & Hrf).
           destruct (tool_facts (refill m) (eq_trans Hrr Ht)) as (Hrc & Hrint).
           destruct (IH R0 seen (fixed ++ [refill m]))
             as (out & H1 & H2 & H3 & H4 & H5 & H6); auto; [lia| |].
           { apply fix_inv_app; [exact Hfix|]. constructor; [exact Hrc | constructor]. }
           exists ([refill m] ++ out).
           split; [|split; [|split; [|split; [|split]]]].
           ++ rewrite clean_all_cons, clean_step_tool, Hmatch by exact Ht.
              cbn [fst snd]. fold (refill m). rewrite H1. same_list.
           ++ cbn [app]. rewrite clean_all_cons, clean_step_tool, Hri, Hmatch
                by (now rewrite Hrr).
              cbn [fst snd]. fold (refill (refill m)). rewrite Hrf, H2. same_list.
           ++ cbn [app]. apply Shape_one; [| |exact H3]; congruence.
           ++ cbn [app quiet]. now rewrite Hrint, Hra, Ha.
           ++ cbn [app]. constructor; [|exact H5]. apply tool_settled. now rewrite Hrr.
           ++ intros Hlu. apply last_is_user_app, H6. now apply (not_user m).
        -- (* a tool result that answers nothing *)
           destruct (IH R0 seen fixed) as (out & H1 & H2 & H3 & H4 & H5 & H6); auto; [lia|].
           exists out. split; [|split; [|split; [|split; [|split]]]]; auto.
           ++ rewrite clean_all_cons, clean_step_tool, Hmatch by exact Ht. exact H1.
           ++ intros Hlu. apply H6. now apply (not_user m).
      * (* any other message *)
        assert (Ha : answering m = false) by (unfold answering; now rewrite Ht).
        destruct (IH R0 seen (fixed ++ [m]))
          as (out & H1 & H2 & H3 & H4 & H5 & H6); auto; [lia| |].
        { apply fix_inv_app; [exact Hfix|]. constructor; [exact Hc | constructor]. }
        exists ([m] ++ out).
        split; [|split; [|split; [|split; [|split]]]].
        -- rewrite clean_all_cons, clean_step_plain by assumption.
           cbn [fst snd]. rewrite H1. same_list.
        -- cbn [app]. rewrite clean_all_cons, clean_step_plain by assumption.
           cbn [fst snd]. rewrite H2. same_list.
        -- cbn [app]. apply Shape_one; [| |exact H3]; congruence.
        -- cbn [app quiet]. rewrite Ha. now destruct (interrupts m).
        -- cbn [app]. constructor; assumption.
        -- intros Hlu. apply last_is_user_cons in Hlu as [[-> Hu]|Hlu].
           ++ apply clean_nil_out in H1. subst out. exists m. split; [reflexivity | exact Hu].
           ++ apply last_is_user_app. now apply H6.
Qed.

(** *** The normalizer on a history that ends with a user message *)

Lemma last_is_user_snoc (l : list ChatMessage) :
  last_is_user l -> exists l' u, l = l' ++ [u] /\ is_role r_user u = true.
Proof.
  intros (u & Hl & Hu). apply last_Some in Hl as [l' ->]. now exists l', u.
Qed.

Lemma last_of_users (l : list ChatMessage) :
  l <> [] -> Forall (fun m => is_role r_user m = true) l -> last_is_user l.
Proof.
  intros Hne Hall. destruct (last l) as [u|] eqn:Hl; [|now apply last_None in Hl].
  exists u. split; [exact Hl|].
  apply last_Some_elem_of in Hl. rewrite Forall_forall in Hall. now apply Hall.
Qed.

Lemma expand_message_user (u : ChatMessage) :
  is_role r_user u = true -> last_is_user (expand_message u).
Proof.
  intros Hu. assert (Hself : last_is_user [u]) by (exists u; split; [reflexivity | exact Hu]).
  unfold expand_message. rewrite Hu.
  destruct (content u) as [|t|l]; try exact Hself.
  destruct (1 <? length (normalize_content_to_list (CList l)))%nat eqn:Hlen; [|exact Hself].
  apply Nat.ltb_lt in Hlen. apply last_of_users.
  - intros Hnil. apply (f_equal length) in Hnil. rewrite length_map in Hnil.
    cbn [length] in Hnil. lia.
  - apply Forall_forall. intros x Hx. apply list_elem_of_In, in_map_iff in Hx as (seg & <- & _).
    destruct (seg_is_text seg); reflexivity.
Qed.

Lemma expand_last_user (history : list ChatMessage) :
  last_is_user history -> last_is_user (expand history).
Proof.
  intros H. apply last_is_user_snoc in H as (l & u & -> & Hu).
  unfold expand. rewrite flat_map_app. apply last_is_user_app.
  cbn [flat_map]. rewrite app_nil_r. now apply expand_message_user.
Qed.

Lemma scan_last_input_user (l : list ChatMessage) :
  last_is_user l -> scan_last_input (rev l) = None.
Proof.
  intros H. apply last_is_user_snoc in H as (l' & u & -> & Hu).
  rewrite rev_unit. cbn [scan_last_input].
  destruct (user_plain u Hu) as (Ht & _). now rewrite Ht, Hu.
Qed.

Lemma expand_settled (history : list ChatMessage) : Forall settled (expand history).
Proof.
  apply Forall_forall. intros x Hx. unfold expand in Hx.
  apply list_elem_of_In, in_flat_map in Hx as (m & _ & Hx).
  apply (expand_message_settled m). now apply list_elem_of_In.
Qed.



(** Pass A on a history that ends with a user message. *)
Lemma reorder_shape (history : list ChatMessage) :
  last_is_user history ->
  exists AT,
    Shape AT (known_calls AT) ∅ (reorder_messages_for_anthropic history)
    /\ Forall settled (reorder_messages_for_anthropic history)
    /\ last_is_user (reorder_messages_for_anthropic history).
Proof.
  intros Hlast. pose proof (expand_last_user _ Hlast) as HlastE.
  assert (Hne : history <> []) by (intros ->; destruct Hlast as (u & Hl & _); discriminate).
  assert (Hdef : reorder_messages_for_anthropic history =
                 let expanded := expand history in
                 let last_input := scan_last_input (rev expanded) in
                 let '(by_id, assistant_tc_ids) := index_messages expanded in
                 let st := fold_left (walk_step last_input assistant_tc_ids) expanded
                             (WalkState [] None by_id) in
                 match last_input, trailing_assistant_msg st with
                 | Some lid, Some t =>
                     result st ++ [t] ++
                     match tool_results_by_id st !! lid with
                     | Some tr => [tr]
                     | None => []
                     end
                 | _, _ => result st
                 end)
    by (destruct history; [congruence | reflexivity]).
  rewrite Hdef. cbv zeta. rewrite (scan_last_input_user _ HlastE).
  pose proof (index_by_id (expand history) ∅ ∅) as Hby.
  pose proof (index_ids (expand history) ∅ ∅) as Hids.
  unfold index_messages.
  destruct (fold_left index_step (expand history) (∅, ∅)) as [by_id AT].
  cbn [fst snd] in Hby, Hids.
  pose proof (expand_settled history) as Hset.
  destruct (walk_shape AT (expand history) [] by_id ∅ Hset)
    as (out & by_id' & Hf & Hsh & Hst & Hl).
  - intros m Hm Hc i Hi. apply Hids. right. exists m. auto.
  - intros k r Hk. rewrite Hby, lookup_empty in Hk.
    apply first_answer_Some in Hk as (Hin & Ha & Ht). repeat split; auto.
    rewrite Forall_forall in Hset. now apply Hset.
  - intros k Hk. now apply elem_of_empty in Hk.
  - exists AT. rewrite Hf. cbn [app result trailing_assistant_msg]. auto.
Qed.




Definition ends_with_user (history : list ChatMessage) : bool :=
  match last history with
  | Some u => is_role r_user u
  | None => false
  end.




End NormalizerLaws.

(** * Further properties of the embedded code *)

(** ** The cleaner on any message list (protobuf2openai/reorder.py) *)

Module NormalizerInvariants.
Import Reorder Clean NormalizerProps NormalizerLaws.

(** The tool messages at the head of a list. *)
Fixpoint leading_tools (l : list ChatMessage) : list ChatMessage :=
  match l with
  | m :: rest => if is_role r_tool m then m :: leading_tools rest else []
  | [] => []
  end.

Lemma leading_tools_app (K l : list ChatMessage) (r : ChatMessage) :
  r ∈ leading_tools K -> r ∈ leading_tools (K ++ l).
Proof.
  induction K as [|k K IH]; cbn [leading_tools app]; [intros H; now apply elem_of_nil in H|].
  destruct (is_role r_tool k); [|intros H; now apply elem_of_nil in H].
  intros H. apply elem_of_cons in H as [->|H]; [now left | right; now apply IH].
Qed.

Lemma leading_tools_all (K : list ChatMessage) :
  Forall (fun m => answering m = true) K -> leading_tools K = K.
Proof.
  induction 1 as [|k K Hk _ IH]; [reflexivity|]. cbn [leading_tools].
  apply answering_id in Hk as (Hk & _). now rewrite Hk, IH.
Qed.

(** The inner loop on any list: what it gathers and what it leaves. *)
Lemma gather_any (E : gset pystr) (msgs : list ChatMessage) :
  forall tr found intr,
  exists T I found' rest,
    gather E msgs (Gathered tr found intr) = (Gathered (tr ++ T) found' (intr ++ I), rest)
    /\ Forall (fun m => answering m = true) T
    /\ Forall (fun m => interrupts m = true) I
    /\ filter (fun m => interrupts m) msgs = I ++ filter (fun m => interrupts m) rest
    /\ (forall k, k ∈ found' -> k ∈ found \/ (k ∈ E /\ exists r, r ∈ T /\ tid r = k))
    /\ (forall P : ChatMessage -> Prop, Forall P msgs -> Forall P rest).
Proof.
  induction msgs as [|m msgs IH]; intros tr found intr.
  - exists [], [], found, []. rewrite !app_nil_r. repeat split; auto; constructor.
  - cbn [gather tool_results found_tool_ids interrupted_messages].
    fold (answering m). fold (tid m). fold (interrupts m). fold (refill m).
    destruct (answering m) eqn:Ha.
    + assert (Hni : interrupts m = false).
      { destruct (interrupts m) eqn:Hi; [|reflexivity].
        rewrite (interrupts_not_answering m Hi) in Ha. discriminate. }
      rewrite filter_cons, decide_False by (rewrite Hni; exact id).
      destruct (bool_decide (tid m ∈ E)) eqn:HE.
      * apply bool_decide_eq_true in HE.
        assert (Hstep : (if content_is_empty (content m)
                         then gather E msgs (Gathered (tr ++ [filled m]) (found ∪ {[tid m]}) intr)
                         else gather E msgs (Gathered (tr ++ [m]) (found ∪ {[tid m]}) intr))
                        = gather E msgs (Gathered (tr ++ [refill m]) (found ∪ {[tid m]}) intr))
          by (unfold refill; destruct (content_is_empty (content m)); reflexivity).
        rewrite Hstep.
        destruct (IH (tr ++ [refill m]) (found ∪ {[tid m]}) intr)
          as (T & I & found' & rest & Hg & HT & HI & Hf & Hfound & Hsuf).
        destruct (refill_answering m) as (Hra & Hrt & _).
        exists (refill m :: T), I, found', rest. rewrite Hg, <- app_assoc.
        split; [reflexivity|]. split; [constructor; [congruence | exact HT]|].
        split; [exact HI|]. split; [exact Hf|].
        split; [|intros P HP; apply Hsuf; now apply Forall_cons in HP as [_ ?]].
        intros k Hk. destruct (Hfound k Hk) as [Hin|(HkE & r & Hr & Hrk)].
        -- apply elem_of_union in Hin as [Hin|Hin]; [now left|].
           apply elem_of_singleton in Hin. subst k. right. split; [exact HE|].
           exists (refill m). split; [now left | exact Hrt].
        -- right. split; [exact HkE|]. exists r. split; [now right | exact Hrk].
      * destruct (IH (tr ++ [m]) found intr)
          as (T & I & found' & rest & Hg & HT & HI & Hf & Hfound & Hsuf).
        exists (m :: T), I, found', rest. rewrite Hg, <- app_assoc.
        split; [reflexivity|]. split; [constructor; assumption|].
        split; [exact HI|]. split; [exact Hf|].
        split; [|intros P HP; apply Hsuf; now apply Forall_cons in HP as [_ ?]].
        intros k Hk. destruct (Hfound k Hk) as [Hin|(HkE & r & Hr & Hrk)]; [now left|].
        right. split; [exact HkE|]. exists r. split; [now right | exact Hrk].
    + destruct (interrupts m) eqn:Hi.
      * rewrite filter_cons, decide_True by (rewrite Hi; exact I).
        destruct (IH tr found (intr ++ [m]))
          as (T & I & found' & rest & Hg & HT & HI & Hf & Hfound & Hsuf).
        exists T, (m :: I), found', rest. rewrite Hg, <- app_assoc.
        split; [reflexivity|]. split; [exact HT|]. split; [constructor; assumption|].
        split; [cbn [app]; now rewrite Hf|]. split; [exact Hfound|].
        intros P HP. apply Hsuf. now apply Forall_cons in HP as [_ ?].
      * exists [], [], found, (m :: msgs). rewrite !app_nil_r.
        repeat split; auto; constructor.
Qed.

(** The calls of an assistant message that Pass B keeps when some of
    its calls lack a result, and the message it writes in its place. *)
Definition valid_calls (A : ChatMessage) (missing : gset pystr) : list tool_call :=
  filter (fun tc => tc_truthy tc && ostr_truthy (tc_id tc)
                    && negb (bool_decide (default [] (tc_id tc) ∈ missing)))
         (tool_calls_or_nil A).

Definition trimmed (A : ChatMessage) (missing : gset pystr) : list ChatMessage :=
  match valid_calls A missing with
  | _ :: _ => [Msg (role A) (content A) None (Some (valid_calls A missing)) None]
  | [] => if content_truthy (content A)
          then [Msg (role A) (content A) None None None] else []
  end.

Lemma clean_step_incomplete (A : ChatMessage) (rest fixed : list ChatMessage)
  (g : gathered) (rest' : list ChatMessage) :
  calling A = true ->
  gather (list_to_set (call_ids A)) rest (Gathered [] ∅ []) = (g, rest') ->
  (list_to_set (call_ids A) : gset pystr) ∖ found_tool_ids g <> ∅ ->
  clean_step A rest fixed
    = (fixed ++ trimmed A (list_to_set (call_ids A) ∖ found_tool_ids g)
         ++ filter (fun tr => bool_decide (tid tr ∈ found_tool_ids g)) (tool_results g)
         ++ interrupted_messages g, rest').
Proof.
  intros Hc Hg Hm. unfold clean_step. fold (calling A).
  rewrite Hc, expected_ids_call_ids. cbv zeta. rewrite Hg.
  rewrite bool_decide_eq_false_2 by exact Hm. cbn [negb].
  unfold trimmed, valid_calls, set_last. rewrite removelast_last.
  destruct (filter _ (tool_calls_or_nil A)) as [|tc l];
    [destruct (content_truthy (content A))|]; f_equal; same_list.
Qed.

(** What one round of the outer loop appends for the message [m]: a
    head [H] (the message, rewritten or dropped), the tool results [K]
    gathered behind it and the user and system messages [I] met on the
    way. *)
Inductive round (fixed : list ChatMessage) (m : ChatMessage)
  : list ChatMessage -> list ChatMessage -> list ChatMessage -> Prop :=
| round_call H K I :
    calling m = true ->
    Forall (fun a => is_role r_assistant a = true) H ->
    (length H <= 1)%nat ->
    Forall (fun a => (length (tool_calls_or_nil a) <= length (tool_calls_or_nil m))%nat) H ->
    (forall a, a ∈ H -> forall k, k ∈ call_ids a -> exists r, r ∈ K /\ tid r = k) ->
    (K <> [] -> exists a, H = [a] /\ calling a = true) ->
    round fixed m H K I
| round_tool H :
    is_role r_tool m = true ->
    H = [] \/ (H = [refill m]
               /\ has_matching_tool_use (tool_call_id m) (rev fixed) = true) ->
    round fixed m H [] []
| round_plain :
    calling m = false -> is_role r_tool m = false -> round fixed m [m] [] [].

Lemma trimmed_calls (A : ChatMessage) (missing : gset pystr) (a : ChatMessage) :
  calling A = true -> a ∈ trimmed A missing ->
  is_role r_assistant a = true
  /\ (forall k, k ∈ call_ids a ->
        k ∈ call_ids A /\ k ∉ missing)
  /\ (valid_calls A missing <> [] -> calling a = true).
Proof.
  intros Hc Ha. unfold calling in Hc. apply andb_prop in Hc as [Hr _].
  unfold trimmed in Ha. destruct (valid_calls A missing) as [|tc l] eqn:Hv.
  - destruct (content_truthy (content A)); [|now apply elem_of_nil in Ha].
    apply list_elem_of_singleton in Ha. subst a. split; [exact Hr|].
    split; [|congruence]. intros k Hk. cbn in Hk. now apply elem_of_nil in Hk.
  - apply list_elem_of_singleton in Ha. subst a. split; [exact Hr|]. split.
    + intros k Hk. unfold call_ids, tool_calls_or_nil in Hk. cbn [tool_calls] in Hk.
      apply list_elem_of_omap in Hk as (tc' & Hin & Hid).
      rewrite <- Hv in Hin. unfold valid_calls in Hin.
      apply list_elem_of_filter in Hin as [Hp Hin].
      destruct (tc_id tc') as [i|] eqn:Hi; [|discriminate].
      destruct (str_truthy i) eqn:Hs; [|discriminate]. injection Hid as ->.
      apply Is_true_true in Hp. apply andb_prop in Hp as [_ Hn].
      apply negb_true_iff, bool_decide_eq_false in Hn. cbn in Hn. split; [|exact Hn].
      unfold call_ids. apply list_elem_of_omap. exists tc'. split; [exact Hin|].
      now rewrite Hi, Hs.
    + intros _. unfold calling, has_tool_calls, is_role in *. cbn [tool_calls role].
      now rewrite Hr.
Qed.

Lemma call_id_valid (A : ChatMessage) (missing : gset pystr) (k : pystr) :
  k ∈ call_ids A -> k ∉ missing -> valid_calls A missing <> [].
Proof.
  intros Hk Hn Hv. unfold call_ids in Hk. apply list_elem_of_omap in Hk as (tc & Hin & Hid).
  destruct (tc_id tc) as [i|] eqn:Hi; [|discriminate].
  destruct (str_truthy i) eqn:Hs; [|discriminate]. injection Hid as ->.
  assert (Htc : tc ∈ valid_calls A missing).
  { unfold valid_calls. apply list_elem_of_filter. split; [|exact Hin].
    apply Is_true_true. rewrite Hi. cbn [ostr_truthy default from_option id].
    rewrite Hs, bool_decide_eq_false_2 by exact Hn.
    unfold tc_truthy. now rewrite Hi. }
  rewrite Hv in Htc. now apply elem_of_nil in Htc.
Qed.

Lemma clean_step_round (m : ChatMessage) (rest fixed : list ChatMessage) :
  exists H K I rest',
    clean_step m rest fixed = (fixed ++ H ++ K ++ I, rest')
    /\ round fixed m H K I
    /\ Forall (fun r => answering r = true) K
    /\ Forall (fun i => interrupts i = true) I
    /\ filter (fun x => interrupts x) rest = I ++ filter (fun x => interrupts x) rest'
    /\ (forall P : ChatMessage -> Prop, Forall P rest -> Forall P rest').
Proof.
  destruct (calling m) eqn:Hc.
  - destruct (gather_any (list_to_set (call_ids m)) rest [] ∅ [])
      as (T & I & found' & rest' & Hg & HT & HI & Hf & Hfound & Hsuf).
    cbn [app] in Hg.
    assert (Hfound' : forall k, k ∈ found' ->
                        k ∈ call_ids m /\ exists r, r ∈ T /\ tid r = k).
    { intros k Hk. destruct (Hfound k Hk) as [Hin|[HE Hr]]; [now apply elem_of_empty in Hin|].
      split; [now apply elem_of_list_to_set in HE | exact Hr]. }
    assert (Hdiff : forall k, k ∈ call_ids m ->
                      k ∉ (list_to_set (call_ids m) : gset pystr) ∖ found' -> k ∈ found').
    { intros k Hk Hn. destruct (decide (k ∈ found')) as [H|H]; [exact H|]. exfalso. apply Hn.
      apply elem_of_difference. split; [now apply elem_of_list_to_set | exact H]. }
    destruct (decide ((list_to_set (call_ids m) : gset pystr) ∖ found' = ∅)) as [He|Hne].
    + assert (Hall : forall k, k ∈ call_ids m -> k ∈ found').
      { intros k Hk. apply (Hdiff k Hk). rewrite He. apply not_elem_of_empty. }
      exists [m], T, I, rest'. split; [|split; [|auto]].
      * now rewrite (clean_step_complete m rest fixed _ rest' Hc Hg Hall).
      * apply round_call; [exact Hc | | reflexivity | | |].
        -- constructor; [|constructor]. unfold calling in Hc. now apply andb_prop in Hc as [? _].
        -- constructor; [reflexivity | constructor].
        -- intros a Ha k Hk. apply list_elem_of_singleton in Ha. subst a.
           now apply Hfound', Hall.
        -- intros _. now exists m.
    + exists (trimmed m (list_to_set (call_ids m) ∖ found')),
        (filter (fun tr => bool_decide (tid tr ∈ found')) T), I, rest'.
      split; [|split; [|split; [|auto]]].
      * now rewrite (clean_step_incomplete m rest fixed _ rest' Hc Hg Hne).
      * apply round_call; [exact Hc | | | | |].
        -- apply Forall_forall. intros a Ha. now apply (trimmed_calls m _ a Hc Ha).
        -- unfold trimmed. destruct (valid_calls m _); [destruct (content_truthy _)|];
             cbn; lia.
        -- unfold trimmed.
           destruct (valid_calls m _) as [|tc l] eqn:Hv;
             [destruct (content_truthy _); repeat constructor; cbn; lia|].
           constructor; [|constructor]. unfold tool_calls_or_nil at 1. cbn [tool_calls].
           rewrite <- Hv. unfold valid_calls. apply length_filter.
        -- intros a Ha k Hk.
           destruct (trimmed_calls m _ a Hc Ha) as (_ & Hids & _).
           destruct (Hids k Hk) as [Hin Hnm].
           pose proof (Hdiff k Hin Hnm) as Hkf.
           destruct (Hfound' k Hkf) as (_ & r & Hr & Hrk).
           exists r. split; [|exact Hrk].
           apply list_elem_of_filter. split; [|exact Hr].
           apply Is_true_true, bool_decide_eq_true. now rewrite Hrk.
        -- intros HK.
           assert (Hv : valid_calls m (list_to_set (call_ids m) ∖ found') <> []).
           { destruct (filter _ T) as [|r K] eqn:HKeq; [congruence|].
             assert (Hr : r ∈ filter (fun tr => bool_decide (tid tr ∈ found')) T)
               by (rewrite HKeq; now left).
             apply list_elem_of_filter in Hr as [Hp _].
             apply Is_true_true, bool_decide_eq_true in Hp.
             destruct (Hfound' _ Hp) as (Hin & _).
             apply (call_id_valid m _ (tid r) Hin).
             intros Hd. apply elem_of_difference in Hd as [_ Hd]. now apply Hd. }
           unfold trimmed in *.
           destruct (valid_calls m _) as [|tc l] eqn:Hveq; [congruence|].
           eexists. split; [reflexivity|].
           unfold calling in Hc. apply andb_prop in Hc as [Hr _].
           unfold calling, has_tool_calls, is_role in *. cbn [tool_calls role]. now rewrite Hr.
      * apply Forall_forall. intros r Hr. apply list_elem_of_filter in Hr as [_ Hr].
        rewrite Forall_forall in HT. now apply HT.
  - destruct (is_role r_tool m) eqn:Ht.
    + rewrite (clean_step_tool m rest fixed Ht). fold (refill m).
      destruct (has_matching_tool_use (tool_call_id m) (rev fixed)) eqn:Hm.
      * exists [refill m], [], [], rest.
        split; [reflexivity|]. split; [apply round_tool; auto|].
        repeat split; auto; constructor.
      * exists [], [], [], rest. rewrite app_nil_r.
        split; [reflexivity|]. split; [apply round_tool; auto|].
        repeat split; auto; constructor.
    + rewrite (clean_step_plain m rest fixed Hc Ht).
      exists [m], [], [], rest.
      split; [reflexivity|]. split; [now apply round_plain|].
      repeat split; auto; constructor.
Qed.

(** An invariant of the outer loop is kept to its end. *)
Lemma clean_all_inv (Inv : list ChatMessage -> list ChatMessage -> Prop) :
  (forall m rest fixed H K I rest',
      Inv (m :: rest) fixed ->
      round fixed m H K I ->
      Forall (fun r => answering r = true) K ->
      Forall (fun i => interrupts i = true) I ->
      filter (fun x => interrupts x) rest = I ++ filter (fun x => interrupts x) rest' ->
      (forall P : ChatMessage -> Prop, Forall P rest -> Forall P rest') ->
      Inv rest' (fixed ++ H ++ K ++ I)) ->
  forall n msgs fixed,
    (length msgs <= n)%nat -> Inv msgs fixed -> Inv [] (clean_all msgs fixed).
Proof.
  intros Hstep. induction n as [|n IH]; intros msgs fixed Hlen Hinv.
  - destruct msgs; [exact Hinv | simpl in Hlen; lia].
  - destruct msgs as [|m rest]; [exact Hinv|]. rewrite clean_all_cons.
    pose proof (clean_step_rest_length m rest fixed) as Hl.
    destruct (clean_step_round m rest fixed)
      as (H & K & I & rest' & Hs & Hr & HK & HI & Hf & Hsuf).
    rewrite Hs in *. cbn [fst snd] in *. simpl in Hlen.
    apply IH; [lia|]. now apply (Hstep m rest fixed H K I rest').
Qed.

(** *** No tool call is left without its result *)

(** Every call with an id of every assistant message of a list is
    answered by one of the tool messages that follow the message
    directly. *)
Fixpoint answered (l : list ChatMessage) : Prop :=
  match l with
  | [] => True
  | A :: post =>
      (is_role r_assistant A = true ->
       forall k, k ∈ call_ids A ->
                 exists r, r ∈ leading_tools post /\ tool_call_id r = Some k)
      /\ answered post
  end.

Lemma answered_app (l1 l2 : list ChatMessage) :
  answered l1 -> answered l2 -> answered (l1 ++ l2).
Proof.
  induction l1 as [|A l1 IH]; [auto|]. cbn [app answered]. intros [HA H1] H2.
  split; [|now apply IH]. intros Hr k Hk. destruct (HA Hr k Hk) as (r & Hin & Hi).
  exists r. split; [now apply leading_tools_app | exact Hi].
Qed.

Lemma not_calling_no_ids (m : ChatMessage) :
  calling m = false -> is_role r_assistant m = true -> call_ids m = [].
Proof.
  unfold calling, call_ids, tool_calls_or_nil, has_tool_calls. intros Hc Hr.
  rewrite Hr in Hc. destruct (tool_calls m) as [[|tc l]|]; try reflexivity. discriminate.
Qed.

Lemma answered_quiet (l : list ChatMessage) :
  Forall (fun m => calling m = false) l -> answered l.
Proof.
  induction 1 as [|m l Hm _ IH]; [exact I|]. split; [|exact IH].
  intros Hr k Hk. rewrite (not_calling_no_ids m Hm Hr) in Hk. now apply elem_of_nil in Hk.
Qed.

Lemma answered_round (fixed : list ChatMessage) (m : ChatMessage)
  (H K I : list ChatMessage) :
  round fixed m H K I ->
  Forall (fun r => answering r = true) K ->
  Forall (fun i => interrupts i = true) I ->
  answered (H ++ K ++ I).
Proof.
  intros Hround HK HI.
  assert (Hq : answered (K ++ I)).
  { apply answered_quiet, Forall_app. split.
    - eapply Forall_impl; [exact HK|]. intros x. apply answering_not_calling.
    - eapply Forall_impl; [exact HI|]. intros x. apply interrupts_not_calling. }
  destruct Hround as [H K I Hc Hrole Hlen Hcalls Hids Hhead|H Ht Hcase|Hc Ht].
  - destruct H as [|a [|b H]]; [exact Hq| |simpl in Hlen; lia].
    cbn [app answered]. split; [|exact Hq].
    intros _ k Hk. destruct (Hids a (list_elem_of_here _ _) k Hk) as (r & Hr & Hrk).
    exists r. split.
    + apply leading_tools_app. now rewrite (leading_tools_all K HK).
    + rewrite Forall_forall in HK. pose proof (HK r Hr) as Har.
      apply answering_id in Har as (_ & Hi & _). now rewrite Hi, Hrk.
  - destruct Hcase as [->|[-> _]]; [exact I|].
    apply answered_quiet. constructor; [|constructor].
    apply tool_facts. now rewrite (proj1 (refill_facts m)).
  - apply answered_quiet. constructor; [exact Hc | constructor].
Qed.

(** X1.  In what [clean_incomplete_tool_calls] returns, and so in what
    the normalizer returns, every tool call with an id of every
    assistant message has its result among the tool messages that
    follow that message directly: no tool call is left incomplete,
    whatever the input. *)
Theorem cleaned_calls_have_results :
  forall (messages pre post : list ChatMessage) (A : ChatMessage) (k : pystr),
    (clean_incomplete_tool_calls messages = pre ++ A :: post
     \/ normalize messages = pre ++ A :: post) ->
    is_role r_assistant A = true ->
    k ∈ call_ids A ->
    exists r, r ∈ leading_tools post /\ is_role r_tool r = true
              /\ tool_call_id r = Some k.
Proof.
  assert (Hclean : forall messages, answered (clean_incomplete_tool_calls messages)).
  { intros messages. rewrite clean_incomplete_tool_calls_all.
    apply (clean_all_inv (fun _ fixed => answered fixed)) with (n := length messages);
      [|reflexivity|exact I].
    intros m rest fixed H K I rest' Hinv Hr HK HI _ _.
    apply answered_app; [exact Hinv|]. now apply (answered_round fixed m). }
  assert (Hsplit : forall l pre A post,
             answered l -> l = pre ++ A :: post -> is_role r_assistant A = true ->
             forall k, k ∈ call_ids A ->
             exists r, r ∈ leading_tools post /\ tool_call_id r = Some k).
  { intros l pre. revert l. induction pre as [|x pre IH]; intros l A post Hl -> Hr k Hk.
    - now apply (proj1 Hl).
    - apply (IH (pre ++ A :: post) A post (proj2 Hl) eq_refl Hr k Hk). }
  assert (Htool : forall post r, r ∈ leading_tools post -> is_role r_tool r = true).
  { induction post as [|x post IH]; cbn [leading_tools]; intros r Hr;
      [now apply elem_of_nil in Hr|].
    destruct (is_role r_tool x) eqn:Hx; [|now apply elem_of_nil in Hr].
    apply elem_of_cons in Hr as [->|Hr]; [exact Hx | now apply IH]. }
  intros messages pre post A k Hout Hr Hk.
  assert (Ha : exists l, answered l /\ l = pre ++ A :: post).
  { destruct Hout as [Hout|Hout]; eexists; (split; [|exact Hout]); [apply Hclean|].
    unfold normalize. apply Hclean. }
  destruct Ha as (l & Hl & Heq).
  destruct (Hsplit l pre A post Hl Heq Hr k Hk) as (r & Hin & Hi).
  exists r. split; [exact Hin|]. split; [now apply (Htool post) | exact Hi].
Qed.

(** A list that begins with an assistant message with tool calls, its
    result and a request to go on; the second call has no result. *)
Definition half_answered : list ChatMessage :=
  [ assistant_calls "" ["t1"%string; "t2"%string]; tool_result "t1" "r";
    user_says "go on" ].

Lemma cleaned_calls_have_results_witness :
  exists r, r ∈ leading_tools [tool_result "t1" "r"; user_says "go on"]
            /\ is_role r_tool r = true /\ tool_call_id r = Some (py "t1").
Proof.
  apply (cleaned_calls_have_results half_answered []
           [tool_result "t1" "r"; user_says "go on"]
           (Msg r_assistant (CStr []) None (Some [call "t1"]) None) (py "t1")).
  - left. vm_compute. reflexivity.
  - reflexivity.
  - vm_compute. left.
Defined.

(** *** A tool message always has its assistant message before it *)

(** Going back from the end of a list: whether the first assistant
    message met carries tool calls. *)
Fixpoint open_scan (reversed : list ChatMessage) : bool :=
  match reversed with
  | [] => false
  | x :: rest => if is_role r_assistant x then has_tool_calls x else open_scan rest
  end.

Definition tools_follow_calls (l : list ChatMessage) : Prop :=
  forall pre t post,
    l = pre ++ t :: post -> is_role r_tool t = true -> open_scan (rev pre) = true.

Lemma tools_follow_snoc (l : list ChatMessage) (x : ChatMessage) :
  tools_follow_calls l ->
  (is_role r_tool x = true -> open_scan (rev l) = true) ->
  tools_follow_calls (l ++ [x]).
Proof.
  intros Hl Hx pre t post Heq Ht.
  destruct post as [|p post _] using rev_ind.
  - apply app_inj_tail in Heq as [-> ->]. now apply Hx.
  - rewrite app_comm_cons, app_assoc in Heq. apply app_inj_tail in Heq as [-> _].
    now apply (Hl pre t post).
Qed.

Lemma open_scan_skip (l K : list ChatMessage) :
  Forall (fun m => is_role r_assistant m = false) K ->
  open_scan (rev (l ++ K)) = open_scan (rev l).
Proof.
  induction K as [|k K IH] using rev_ind; intros HK; [now rewrite app_nil_r|].
  apply Forall_app in HK as [HK Hk]. apply Forall_cons in Hk as [Hk _].
  rewrite app_assoc, rev_unit. cbn [open_scan]. rewrite Hk. now apply IH.
Qed.

Lemma tools_follow_app (l K : list ChatMessage) :
  tools_follow_calls l ->
  Forall (fun m => is_role r_assistant m = false) K ->
  (Exists (fun m => is_role r_tool m = true) K -> open_scan (rev l) = true) ->
  tools_follow_calls (l ++ K).
Proof.
  induction K as [|k K IH] using rev_ind; intros Hl HK Hopen; [now rewrite app_nil_r|].
  apply Forall_app in HK as [HK Hk].
  rewrite app_assoc. apply tools_follow_snoc.
  - apply IH; [exact Hl | exact HK|]. intros Hex. apply Hopen.
    apply Exists_app. now left.
  - intros Ht. rewrite (open_scan_skip l K HK). apply Hopen.
    apply Exists_app. right. now constructor.
Qed.

Lemma has_matching_open (tid : option pystr) (reversed : list ChatMessage) :
  has_matching_tool_use tid reversed = true -> open_scan reversed = true.
Proof.
  induction reversed as [|x rest IH]; [discriminate|].
  cbn [has_matching_tool_use open_scan].
  destruct (is_role r_assistant x); cbn [andb]; [|exact IH].
  destruct (has_tool_calls x); [intros _; reflexivity | exact id].
Qed.

Lemma tools_follow_round (fixed : list ChatMessage) (m : ChatMessage)
  (H K I : list ChatMessage) :
  tools_follow_calls fixed ->
  round fixed m H K I ->
  Forall (fun r => answering r = true) K ->
  Forall (fun i => interrupts i = true) I ->
  tools_follow_calls (fixed ++ H ++ K ++ I).
Proof.
  intros Hf Hround HK HI.
  assert (HKa : Forall (fun x => is_role r_assistant x = false) K).
  { eapply Forall_impl; [exact HK|]. intros x Hx. apply answering_id in Hx as (Hx & _).
    apply (is_role_other _ _ _ Hx). discriminate. }
  assert (HIa : Forall (fun x => is_role r_assistant x = false) I).
  { eapply Forall_impl; [exact HI|]. intros x Hx. now apply interrupts_plain in Hx. }
  assert (HIt : Exists (fun x => is_role r_tool x = true) I -> False).
  { intros Hex. apply Exists_exists in Hex as (x & Hx & Ht).
    rewrite Forall_forall in HI. apply HI, interrupts_plain in Hx as [Hx _]. congruence. }
  destruct Hround as [H K I Hc Hrole Hlen Hcalls Hids Hhead|H Ht Hcase|Hc Ht].
  - destruct H as [|a [|b H]]; [| |simpl in Hlen; lia].
    + destruct K as [|k K]; [|destruct Hhead as (a & Ha & _); [discriminate|discriminate]].
      cbn [app]. apply tools_follow_app; [exact Hf | exact HIa|]. intros Hex. now destruct HIt.
    + apply Forall_cons in Hrole as [Ha _].
      rewrite (app_assoc fixed), (app_assoc (fixed ++ [a])).
      apply tools_follow_app; [|exact HIa | intros Hex; now destruct HIt].
      apply tools_follow_app; [|exact HKa|].
      * apply tools_follow_snoc; [exact Hf|]. intros Ht.
        rewrite (is_role_other _ r_tool _ Ha) in Ht by discriminate. discriminate.
      * intros Hex. rewrite rev_unit. cbn [open_scan]. rewrite Ha.
        destruct K as [|k K]; [now apply Exists_nil in Hex|].
        destruct Hhead as (a' & Heq & Hca); [discriminate|]. injection Heq as <-.
        unfold calling in Hca. now apply andb_prop in Hca as [_ ?].
  - cbn [app]. rewrite app_nil_r. destruct Hcase as [->|[-> Hm]]; [now rewrite app_nil_r|].
    apply tools_follow_snoc; [exact Hf|]. intros _. now apply (has_matching_open _ _ Hm).
  - cbn [app]. apply tools_follow_snoc; [exact Hf|]. congruence.
Qed.

Lemma open_scan_last (pre : list ChatMessage) :
  open_scan (rev pre) = true ->
  exists a, last (filter (fun m => is_role r_assistant m) pre) = Some a
            /\ has_tool_calls a = true.
Proof.
  induction pre as [|x pre IH] using rev_ind; [discriminate|].
  rewrite rev_unit, filter_app. cbn [open_scan].
  destruct (is_role r_assistant x) eqn:Hx.
  - intros Hh. exists x. split; [|exact Hh].
    rewrite filter_cons, decide_True by (rewrite Hx; exact I).
    rewrite filter_nil, last_snoc. reflexivity.
  - intros Ho. rewrite filter_cons, decide_False by (rewrite Hx; exact id).
    rewrite filter_nil, app_nil_r. now apply IH.
Qed.

(** X2.  In what [clean_incomplete_tool_calls] returns, and so in what
    the normalizer returns, the nearest assistant message before a tool
    message exists and carries tool calls: the output never starts with
    a tool result and no tool result follows a plain assistant reply. *)
Theorem cleaned_tool_results_follow_calls :
  forall (messages pre post : list ChatMessage) (t : ChatMessage),
    (clean_incomplete_tool_calls messages = pre ++ t :: post
     \/ normalize messages = pre ++ t :: post) ->
    is_role r_tool t = true ->
    exists a, last (filter (fun m => is_role r_assistant m) pre) = Some a
              /\ has_tool_calls a = true.
Proof.
  assert (Hclean : forall messages, tools_follow_calls (clean_incomplete_tool_calls messages)).
  { intros messages. rewrite clean_incomplete_tool_calls_all.
    apply (clean_all_inv (fun _ fixed => tools_follow_calls fixed))
      with (n := length messages); [|reflexivity|].
    - intros m rest fixed H K I rest' Hinv Hr HK HI _ _.
      now apply (tools_follow_round fixed m).
    - intros pre t post Heq. now destruct pre. }
  intros messages pre post t Hout Ht. apply open_scan_last.
  destruct Hout as [Hout|Hout].
  - now apply (Hclean messages pre t post).
  - now apply (Hclean (reorder_messages_for_anthropic messages) pre t post).
Qed.

(** A stray tool result before anything else and one after a plain
    reply, around a call with its result. *)
Definition history_with_strays : list ChatMessage :=
  [ tool_result "t0" "x"; assistant_calls "" ["t1"%string]; tool_result "t1" "r";
    assistant_says "done"; tool_result "t1" "again" ].

Lemma cleaned_tool_results_follow_calls_witness :
  exists a, last (filter (fun m => is_role r_assistant m)
                         [assistant_calls "" ["t1"%string]]) = Some a
            /\ has_tool_calls a = true.
Proof.
  apply (cleaned_tool_results_follow_calls history_with_strays
           [assistant_calls "" ["t1"%string]] [assistant_says "done"]
           (tool_result "t1" "r")).
  - left. vm_compute. reflexivity.
  - reflexivity.
Defined.

(** *** User and system messages are never lost *)

Lemma filter_interrupts_none (l : list ChatMessage) :
  Forall (fun m => interrupts m = false) l -> filter (fun m => interrupts m) l = [].
Proof.
  intros H. apply filter_none. intros x Hx. rewrite Forall_forall in H. now apply H.
Qed.

Lemma filter_interrupts_all (l : list ChatMessage) :
  Forall (fun m => interrupts m = true) l -> filter (fun m => interrupts m) l = l.
Proof.
  induction 1 as [|x l Hx _ IH]; [reflexivity|].
  rewrite filter_cons, decide_True by (rewrite Hx; exact I). now rewrite IH.
Qed.

Lemma assistant_not_interrupts (a : ChatMessage) :
  is_role r_assistant a = true -> interrupts a = false.
Proof.
  intros Ha. unfold interrupts.
  rewrite (is_role_other _ r_user _ Ha), (is_role_other _ r_system _ Ha) by discriminate.
  reflexivity.
Qed.

Lemma interrupts_not_calling_conv (m : ChatMessage) :
  calling m = true -> interrupts m = false.
Proof.
  intros Hc. apply assistant_not_interrupts. unfold calling in Hc.
  now apply andb_prop in Hc as [? _].
Qed.

Lemma answering_not_interrupts (r : ChatMessage) :
  answering r = true -> interrupts r = false.
Proof.
  intros Ha. apply answering_id in Ha as (Ht & _). now apply tool_facts in Ht as [_ ?].
Qed.

Lemma round_interrupts (fixed : list ChatMessage) (m : ChatMessage)
  (H K I : list ChatMessage) :
  round fixed m H K I ->
  Forall (fun r => answering r = true) K ->
  Forall (fun i => interrupts i = true) I ->
  filter (fun x => interrupts x) (H ++ K ++ I) = filter (fun x => interrupts x) [m] ++ I.
Proof.
  intros Hround HK HI. rewrite !filter_app, (filter_interrupts_all I HI).
  rewrite (filter_interrupts_none K)
    by (eapply Forall_impl; [exact HK|]; intros x; apply answering_not_interrupts).
  destruct Hround as [H K I Hc Hrole Hlen Hcalls Hids Hhead|H Ht Hcase|Hc Ht].
  - rewrite (filter_interrupts_none H)
      by (eapply Forall_impl; [exact Hrole|]; intros x; apply assistant_not_interrupts).
    rewrite (filter_interrupts_none [m]); [reflexivity|].
    constructor; [|constructor]. apply assistant_not_interrupts.
    unfold calling in Hc. now apply andb_prop in Hc as [? _].
  - destruct (tool_facts m Ht) as [_ Hm].
    rewrite (filter_interrupts_none [m]) by (constructor; [exact Hm | constructor]).
    destruct Hcase as [->|[-> _]]; [reflexivity|].
    rewrite (filter_interrupts_none [refill m]); [reflexivity|].
    constructor; [|constructor]. apply tool_facts. now rewrite (proj1 (refill_facts m)).
  - reflexivity.
Qed.

Lemma clean_keeps_interrupts (messages : list ChatMessage) :
  filter (fun m => interrupts m) (clean_incomplete_tool_calls messages)
    = filter (fun m => interrupts m) messages.
Proof.
  rewrite clean_incomplete_tool_calls_all.
  pose proof (clean_all_inv
                (fun msgs fixed =>
                   filter (fun m => interrupts m) fixed ++ filter (fun m => interrupts m) msgs
                   = filter (fun m => interrupts m) messages)) as Hinv.
  cbn beta in Hinv. rewrite <- (app_nil_r (filter _ (clean_all messages []))).
  apply (Hinv) with (n := length messages); [|reflexivity|reflexivity].
  intros m rest fixed H K I rest' Hi Hr HK HI Hf _.
  rewrite <- Hi. rewrite filter_app, (round_interrupts fixed m H K I Hr HK HI).
  change (m :: rest) with ([m] ++ rest). rewrite (filter_app _ [m] rest), Hf.
  now rewrite <- !app_assoc.
Qed.

(** *** Pass A only moves messages *)

Lemma pop_results_spec (ids : list pystr) :
  forall res (by_id : gmap pystr ChatMessage),
  exists popped by_id',
    pop_results ids res by_id = (res ++ popped, by_id')
    /\ Forall (fun r => exists k, by_id !! k = Some r) popped
    /\ by_id' ⊆ by_id.
Proof.
  induction ids as [|i ids IH]; intros res by_id; cbn [pop_results].
  - exists [], by_id. rewrite app_nil_r. repeat split; [constructor | reflexivity].
  - destruct (by_id !! i) as [tr|] eqn:Hi; [|apply IH].
    destruct (IH (res ++ [tr]) (delete i by_id)) as (popped & by_id' & Hp & Hall & Hsub).
    exists (tr :: popped), by_id'. rewrite Hp, <- app_assoc. split; [reflexivity|]. split.
    + constructor; [now exists i|]. eapply Forall_impl; [exact Hall|].
      intros r (k & Hk). exists k. now apply lookup_delete_Some in Hk as [_ ?].
    + etransitivity; [exact Hsub | apply delete_subseteq].
Qed.

(** One step of the walk: the message is appended with the results
    popped for it, or nothing is appended and the message is a tool
    result or an assistant message with tool calls. *)
Lemma walk_step_spec (last_input : option pystr) (AT : gset pystr)
  (st : walk_state) (m : ChatMessage) :
  exists out popped,
    result (walk_step last_input AT st m) = result st ++ out
    /\ Forall (fun r => exists k, tool_results_by_id st !! k = Some r) popped
    /\ (out = m :: popped \/ (out = [] /\ (is_role r_tool m = true \/ calling m = true)))
    /\ tool_results_by_id (walk_step last_input AT st m) ⊆ tool_results_by_id st
    /\ (trailing_assistant_msg (walk_step last_input AT st m) = trailing_assistant_msg st
        \/ trailing_assistant_msg (walk_step last_input AT st m) = Some m
           /\ calling m = true).
Proof.
  unfold walk_step. destruct (is_role r_tool m) eqn:Ht.
  - destruct (negb _ || negb _).
    + exists [m], []. cbn. repeat split; auto.
      destruct (tool_call_id m) as [i|]; [destruct (str_truthy i)|];
        try reflexivity. apply delete_subseteq.
    + exists [], []. rewrite app_nil_r. repeat split; auto.
  - fold (calling m). destruct (calling m) eqn:Hc.
    + destruct (match last_input with Some lid => _ | None => false end).
      * exists [], []. cbn. rewrite app_nil_r. repeat split; auto.
        destruct (trailing_assistant_msg st); auto.
      * destruct (pop_results_spec (call_ids m) (result st ++ [m]) (tool_results_by_id st))
          as (popped & by_id' & Hp & Hall & Hsub).
        rewrite Hp. exists (m :: popped), popped. cbn. rewrite <- app_assoc.
        repeat split; auto.
    + exists [m], []. cbn. repeat split; auto.
Qed.

Lemma walk_spec (last_input : option pystr) (AT : gset pystr)
  (P : ChatMessage -> Prop) :
  forall E st,
    Forall P E ->
    Forall P (result st) ->
    (forall k r, tool_results_by_id st !! k = Some r -> P r /\ is_role r_tool r = true) ->
    (forall t, trailing_assistant_msg st = Some t -> P t /\ calling t = true) ->
    let st' := fold_left (walk_step last_input AT) E st in
    Forall P (result st')
    /\ (forall k r, tool_results_by_id st' !! k = Some r -> P r /\ is_role r_tool r = true)
    /\ (forall t, trailing_assistant_msg st' = Some t -> P t /\ calling t = true)
    /\ filter (fun x => interrupts x) (result st')
       = filter (fun x => interrupts x) (result st) ++ filter (fun x => interrupts x) E.
Proof.
  induction E as [|m E IH]; intros st HE Hres Hby Htr; cbv zeta.
  - cbn. rewrite app_nil_r. auto.
  - apply Forall_cons in HE as [Hm HE]. cbn [fold_left].
    destruct (walk_step_spec last_input AT st m)
      as (out & popped & Hr & Hpop & Hout & Hsub & Htrail).
    assert (Hpop' : Forall (fun r => P r /\ is_role r_tool r = true) popped).
    { eapply Forall_impl; [exact Hpop|]. intros r (k & Hk). now apply (Hby k). }
    assert (Hfi : filter (fun x => interrupts x) out = filter (fun x => interrupts x) [m]).
    { destruct Hout as [->|[-> Hq]].
      - change (m :: popped) with ([m] ++ popped).
        rewrite filter_app, (filter_interrupts_none popped); [now rewrite app_nil_r|].
        eapply Forall_impl; [exact Hpop'|]. intros r [_ Hrt]. now apply tool_facts in Hrt.
      - symmetry. apply filter_interrupts_none. constructor; [|constructor].
        destruct Hq as [Hq|Hq]; [now apply tool_facts in Hq|].
        now apply interrupts_not_calling_conv. }
    destruct (IH (walk_step last_input AT st m) HE) as (H1 & H2 & H3 & H4).
    + rewrite Hr. apply Forall_app. split; [exact Hres|].
      destruct Hout as [->|[-> _]]; [|constructor].
      constructor; [exact Hm|]. eapply Forall_impl; [exact Hpop'|]. now intros r [? _].
    + intros k r Hk. apply (Hby k). eapply lookup_weaken; [exact Hk | exact Hsub].
    + intros t Ht. destruct Htrail as [Heq|[Heq Hc]].
      * apply Htr. now rewrite <- Heq.
      * rewrite Heq in Ht. injection Ht as <-. auto.
    + split; [exact H1|]. split; [exact H2|]. split; [exact H3|].
      rewrite H4, Hr, filter_app, Hfi, <- app_assoc.
      change (m :: E) with ([m] ++ E). now rewrite (filter_app _ [m] E).
Qed.

Lemma reorder_spec (P : ChatMessage -> Prop) (history : list ChatMessage) :
  Forall P (expand history) ->
  Forall P (reorder_messages_for_anthropic history)
  /\ filter (fun x => interrupts x) (reorder_messages_for_anthropic history)
     = filter (fun x => interrupts x) (expand history).
Proof.
  intros HP. destruct history as [|m0 h0] eqn:Hh; [split; [constructor | reflexivity]|].
  rewrite <- Hh in *.
  assert (Hdef : reorder_messages_for_anthropic history =
                 let expanded := expand history in
                 let last_input := scan_last_input (rev expanded) in
                 let '(by_id, assistant_tc_ids) := index_messages expanded in
                 let st := fold_left (walk_step last_input assistant_tc_ids) expanded
                             (WalkState [] None by_id) in
                 match last_input, trailing_assistant_msg st with
                 | Some lid, Some t =>
                     result st ++ [t] ++
                     match tool_results_by_id st !! lid with
                     | Some tr => [tr]
                     | None => []
                     end
                 | _, _ => result st
                 end)
    by (rewrite Hh; reflexivity).
  rewrite Hdef. cbv zeta. clear Hdef Hh.
  pose proof (index_by_id (expand history) ∅ ∅) as Hby. unfold index_messages.
  destruct (fold_left index_step (expand history) (∅, ∅)) as [by_id AT]. cbn [fst] in Hby.
  destruct (walk_spec (scan_last_input (rev (expand history))) AT P (expand history)
              (WalkState [] None by_id) HP) as (H1 & H2 & H3 & H4).
  - constructor.
  - cbn. intros k r Hk. rewrite Hby, lookup_empty in Hk.
    apply first_answer_Some in Hk as (Hin & Ha & _).
    rewrite Forall_forall in HP. split; [now apply HP|]. now apply answering_id in Ha.
  - cbn. discriminate.
  - cbn [result] in H4. cbn [app] in H4.
    destruct (scan_last_input (rev (expand history))) as [lid|]; [|now split].
    destruct (trailing_assistant_msg _) as [t|] eqn:Ht; [|now split].
    destruct (H3 t eq_refl) as [HPt Hct].
    match goal with
    | |- context [result ?st ++ ?tl] => set (tail := tl)
    end.
    assert (Htail : Forall (fun r => P r /\ interrupts r = false) tail).
    { subst tail. constructor; [split; [exact HPt | now apply interrupts_not_calling_conv]|].
      destruct (_ !! lid) as [tr|] eqn:Hl; [|constructor].
      destruct (H2 lid tr Hl) as [HPr Hr]. constructor; [|constructor].
      split; [exact HPr | now apply tool_facts in Hr]. }
    split.
    + apply Forall_app. split; [exact H1|]. eapply Forall_impl; [exact Htail|]. now intros r [? _].
    + rewrite filter_app, H4, (filter_interrupts_none tail); [now rewrite app_nil_r|].
      eapply Forall_impl; [exact Htail|]. now intros r [_ ?].
Qed.

(** X3.  The normalizer keeps every user and system message, in order:
    Pass B returns those of its input, Pass A those of the expanded
    history (a user message with several content parts is first split,
    one message per part), and nothing is added, dropped or moved among
    them. *)
Theorem normalizer_keeps_user_and_system_messages :
  forall (history : list ChatMessage),
    filter (fun m => is_role r_user m || is_role r_system m)
           (clean_incomplete_tool_calls history)
      = filter (fun m => is_role r_user m || is_role r_system m) history
    /\ filter (fun m => is_role r_user m || is_role r_system m) (normalize history)
       = filter (fun m => is_role r_user m || is_role r_system m) (expand history).
Proof.
  intros history. split; [apply clean_keeps_interrupts|].
  unfold normalize. etransitivity; [apply clean_keeps_interrupts|].
  apply (reorder_spec (fun _ => True)). apply Forall_forall. auto.
Qed.

(** *** One tool call per assistant message *)

Definition one_call (m : ChatMessage) : Prop :=
  is_role r_assistant m = true -> (length (tool_calls_or_nil m) <= 1)%nat.

Lemma settled_one_call_at_most (m : ChatMessage) : settled m -> one_call m.
Proof.
  unfold settled, one_call, expand_message. intros Hs Hr.
  rewrite (is_role_other _ r_user _ Hr), Hr in Hs by discriminate. cbn [andb] in Hs.
  unfold has_tool_calls, tool_calls_or_nil in *.
  destruct (tool_calls m) as [[|tc [|tc' l]]|]; cbn; try lia.
  exfalso. cbn in Hs. destruct (str_truthy _); discriminate.
Qed.

Lemma clean_one_call (messages : list ChatMessage) :
  Forall one_call messages -> Forall one_call (clean_incomplete_tool_calls messages).
Proof.
  intros Hall. rewrite clean_incomplete_tool_calls_all.
  apply (clean_all_inv (fun msgs fixed => Forall one_call fixed /\ Forall one_call msgs))
    with (n := length messages) (msgs := messages); [|reflexivity|split; [constructor|exact Hall]].
  intros m rest fixed H K I rest' [Hfixed Hmsgs] Hr HK HI _ Hsuf.
  apply Forall_cons in Hmsgs as [Hm Hrest]. split; [|now apply Hsuf].
  apply Forall_app. split; [exact Hfixed|].
  assert (HKI : Forall one_call (K ++ I)).
  { apply Forall_app. split.
    - eapply Forall_impl; [exact HK|]. intros x Hx Hrole.
      apply answering_id in Hx as (Hx & _).
      rewrite (is_role_other _ r_assistant _ Hx) in Hrole by discriminate. discriminate.
    - eapply Forall_impl; [exact HI|]. intros x Hx Hrole.
      apply interrupts_plain in Hx as [_ Hx]. congruence. }
  apply Forall_app. split; [|exact HKI].
  destruct Hr as [H K I Hc Hrole Hlen Hcalls Hids Hhead|H Ht Hcase|Hc Ht].
  - unfold calling in Hc. apply andb_prop in Hc as [Hmr _]. specialize (Hm Hmr).
    eapply Forall_impl; [exact Hcalls|]. cbn. intros a Hle _. lia.
  - destruct Hcase as [->|[-> _]]; [constructor|]. constructor; [|constructor].
    intros Hrole. pose proof (proj1 (refill_facts m)) as Hrt.
    assert (Hx : is_role r_tool (refill m) = true) by now rewrite Hrt.
    rewrite (is_role_other _ r_assistant _ Hx) in Hrole by discriminate. discriminate.
  - constructor; [exact Hm | constructor].
Qed.

(** X4.  Every assistant message of the normalized history carries at
    most one tool call: Pass A splits a message with several calls into
    one message per call and Pass B only removes calls. *)
Theorem normalized_messages_carry_one_call :
  forall (history : list ChatMessage) (m : ChatMessage),
    m ∈ normalize history ->
    is_role r_assistant m = true ->
    (length (tool_calls_or_nil m) <= 1)%nat.
Proof.
  intros history m Hin.
  assert (Hall : Forall one_call (normalize history)).
  { unfold normalize. apply clean_one_call. apply (reorder_spec one_call).
    eapply Forall_impl; [apply expand_settled|]. apply settled_one_call_at_most. }
  rewrite Forall_forall in Hall. now apply Hall.
Qed.

(** An assistant message with three calls, of which two have a
    result. *)
Definition three_calls : list ChatMessage :=
  [ user_says "do it"; assistant_calls "ok" ["a"%string; "b"%string; "c"%string];
    tool_result "c" "3"; tool_result "a" "1"; user_says "next" ].

Lemma normalized_messages_carry_one_call_witness :
  normalize three_calls
    = [ user_says "do it"; assistant_says "ok";
        assistant_calls "" ["a"%string]; tool_result "a" "1";
        assistant_calls "" ["c"%string]; tool_result "c" "3"; user_says "next" ]
  /\ (length (tool_calls_or_nil (assistant_calls "" ["c"%string])) <= 1)%nat.
Proof.
  split; [vm_compute; reflexivity|].
  apply (normalized_messages_carry_one_call three_calls (assistant_calls "" ["c"%string])).
  - vm_compute. do 4 right. left.
  - reflexivity.
Defined.

(** *** Calls and results are paired when the user has the last word *)

(** The ids of the calls that the assistant messages of a list make. *)
Definition kept_call_ids (l : list ChatMessage) : list pystr :=
  flat_map (fun m => if is_role r_assistant m then call_ids m else []) l.

Lemma assistant_call_ids (m : ChatMessage) :
  (if is_role r_assistant m then call_ids m else [])
  = if calling m then call_ids m else [].
Proof.
  unfold calling. destruct (is_role r_assistant m) eqn:Hr; [|reflexivity]. cbn [andb].
  destruct (has_tool_calls m) eqn:Hh; [reflexivity|].
  apply not_calling_no_ids; [|exact Hr]. unfold calling. now rewrite Hr, Hh.
Qed.

Lemma shape_paired (AT : gset pystr) :
  forall seen l,
    Shape AT no_call_ids seen l ->
    (forall pre A post k,
        l = pre ++ A :: post -> is_role r_assistant A = true -> k ∈ call_ids A ->
        exists r post', post = r :: post' /\ is_role r_tool r = true
                        /\ tool_call_id r = Some k)
    /\ NoDup (kept_call_ids l)
    /\ (forall k, k ∈ kept_call_ids l -> k ∉ seen).
Proof.
  intros seen l HS.
  induction HS as [seen|seen A0 r0 cid R HA Hids Hid Hseen Hr Htid HR IH
                   |seen m R Hans Hcall HR IH].
  - split; [intros [|x pre] A post k Heq; discriminate|].
    split; [constructor | intros k Hk; now apply elem_of_nil in Hk].
  - destruct IH as (IH1 & IH2 & IH3).
    pose proof (answering_id r0 Hr) as (Hrt & Hri & _).
    assert (Hk0 : kept_call_ids (A0 :: r0 :: R) = cid :: kept_call_ids R).
    { unfold kept_call_ids. cbn [flat_map]. rewrite !assistant_call_ids, HA, Hids.
      now rewrite (answering_not_calling r0 Hr). }
    split; [|split].
    + intros [|x [|y pre]] A post k Heq Hrole Hk.
      * injection Heq as <- <-. rewrite Hids in Hk. apply list_elem_of_singleton in Hk.
        subst k. exists r0, R. rewrite Hri, Htid. auto.
      * injection Heq as <- <- <-.
        rewrite (is_role_other _ r_assistant _ Hrt) in Hrole by discriminate. discriminate.
      * injection Heq as <- <- ->. now apply (IH1 pre A post k).
    + rewrite Hk0. constructor; [|exact IH2]. intros Hin. apply (IH3 cid Hin).
      apply elem_of_union. right. now apply elem_of_singleton.
    + rewrite Hk0. intros k Hk. apply elem_of_cons in Hk as [->|Hk]; [exact Hseen|].
      intros Hin. apply (IH3 k Hk). apply elem_of_union. now left.
  - destruct IH as (IH1 & IH2 & IH3).
    assert (Hk0 : kept_call_ids (m :: R) = kept_call_ids R).
    { unfold kept_call_ids. cbn [flat_map]. rewrite assistant_call_ids.
      destruct (calling m) eqn:Hc; [|reflexivity]. now rewrite (Hcall eq_refl). }
    split; [|rewrite Hk0; auto].
    intros [|x pre] A post k Heq Hrole Hk.
    + injection Heq as <- <-. exfalso.
      destruct (calling m) eqn:Hc.
      * rewrite (Hcall eq_refl) in Hk. now apply elem_of_nil in Hk.
      * rewrite (not_calling_no_ids m Hc Hrole) in Hk. now apply elem_of_nil in Hk.
    + injection Heq as <- ->. now apply (IH1 pre A post k).
Qed.

Lemma normalize_shape (history : list ChatMessage) :
  ends_with_user history = true ->
  exists AT, Shape AT no_call_ids ∅ (normalize history).
Proof.
  intros H. assert (Hlast : last_is_user history).
  { unfold ends_with_user in H. destruct (last history) as [u|] eqn:Hl; [|discriminate].
    now exists u. }
  unfold normalize. destruct (reorder_shape history Hlast) as (AT & Hsh & Hst & Hl).
  destruct (clean_shape AT (length (reorder_messages_for_anthropic history))
              (reorder_messages_for_anthropic history) ∅ [] (le_n _) Hsh Hst
              (List.Forall_nil _))
    as (N & H1 & _ & H3 & _).
  cbn [app] in H1. rewrite clean_incomplete_tool_calls_all, H1. now exists AT.
Qed.

(** X5.  When the history ends with a user message, the normalized
    history pairs calls and results: an assistant message that keeps a
    tool call with an id is immediately followed by the tool message
    with that id, and no id is kept by two assistant messages. *)
Theorem normalized_calls_are_paired :
  forall (history : list ChatMessage),
    ends_with_user history = true ->
    (forall pre A post k,
        normalize history = pre ++ A :: post ->
        is_role r_assistant A = true -> k ∈ call_ids A ->
        exists r post', post = r :: post' /\ is_role r_tool r = true
                        /\ tool_call_id r = Some k)
    /\ NoDup (kept_call_ids (normalize history)).
Proof.
  intros history H. destruct (normalize_shape history H) as (AT & Hsh).
  destruct (shape_paired AT ∅ _ Hsh) as (H1 & H2 & _). split; [exact H1 | exact H2].
Qed.

Lemma normalized_calls_are_paired_witness :
  (forall pre A post k,
      normalize three_calls = pre ++ A :: post ->
      is_role r_assistant A = true -> k ∈ call_ids A ->
      exists r post', post = r :: post' /\ is_role r_tool r = true
                      /\ tool_call_id r = Some k)
  /\ NoDup (kept_call_ids (normalize three_calls)).
Proof.
  apply (normalized_calls_are_paired three_calls). reflexivity.
Defined.

End NormalizerInvariants.

(** ** The Anthropic stream translator on any stream
       (protobuf2openai/anthropic_sse_transform.py) *)

Module AnthropicInvariants.
Import AnthropicSse.

(** The index of a content-block event. *)
Definition block_index (e : event) : option nat :=
  match e with
  | ContentBlockStartText i | ContentBlockStartToolUse i _ _
  | ContentBlockDeltaText i _ | ContentBlockDeltaJson i _
  | ContentBlockStop i => Some i
  | _ => None
  end.

Definition is_block_event (e : event) : Prop := is_Some (block_index e).

(** Events of blocks whose indices do not decrease and stay between
    [lo] and [hi]. *)
Fixpoint climbs (lo hi : nat) (out : list event) : Prop :=
  match out with
  | [] => (lo <= hi)%nat
  | e :: rest =>
      match block_index e with
      | Some i => (lo <= i)%nat /\ climbs i hi rest
      | None => False
      end
  end.

Lemma climbs_le (out : list event) : forall lo hi, climbs lo hi out -> (lo <= hi)%nat.
Proof.
  induction out as [|e out IH]; intros lo hi; cbn [climbs]; [auto|].
  destruct (block_index e) as [i|]; [|tauto]. intros [Hlo Hc].
  specialize (IH i hi Hc). lia.
Qed.

Lemma climbs_weaken (out : list event) :
  forall lo lo' hi hi', climbs lo hi out -> (lo' <= lo)%nat -> (hi <= hi')%nat ->
                        climbs lo' hi' out.
Proof.
  induction out as [|e out IH]; intros lo lo' hi hi'; cbn [climbs]; [lia|].
  destruct (block_index e) as [i|]; [|tauto]. intros [Hlo Hc] H1 H2.
  split; [lia|]. now apply (IH i i hi hi').
Qed.

Lemma climbs_app (a b : list event) :
  forall lo mid hi, climbs lo mid a -> climbs mid hi b -> climbs lo hi (a ++ b).
Proof.
  induction a as [|e a IH]; intros lo mid hi; cbn [climbs app].
  - intros Hle Hb. now apply (climbs_weaken b mid lo hi hi).
  - destruct (block_index e) as [i|]; [|tauto]. intros [Hlo Ha] Hb.
    split; [exact Hlo|]. now apply (IH i mid hi).
Qed.

Lemma tool_call_step_climbs (tool_call : tool_call_delta) (st : state) (out : list event) :
  exists new,
    snd (tool_call_step (st, out) tool_call) = out ++ new
    /\ climbs (content_index st) (content_index (fst (tool_call_step (st, out) tool_call))) new.
Proof.
  unfold tool_call_step.
  set (opened :=
         match tcd_id tool_call, tcd_name tool_call with
         | Some id, Some tool_name =>
             if str_truthy id && str_truthy tool_name then
               let '(idx, out) :=
                 if has_text_content st
                 then (S (content_index st), out ++ [ContentBlockStop (content_index st)])
                 else (content_index st, out) in
               let idx := if has_tool_calls st then S idx else idx in
               (State idx false true (Some (id, tool_name, [])) (input_tokens st)
                      (output_tokens st),
                out ++ [ContentBlockStartToolUse idx id tool_name])
             else (st, out)
         | _, _ => (st, out)
         end).
  assert (Hopen : exists new1, snd opened = out ++ new1
                               /\ climbs (content_index st) (content_index (fst opened)) new1).
  { subst opened. destruct (tcd_id tool_call) as [id|]; [|exists []; rewrite app_nil_r; cbn; auto].
    destruct (tcd_name tool_call) as [nm|]; [|exists []; rewrite app_nil_r; cbn; auto].
    destruct (str_truthy id && str_truthy nm); [|exists []; rewrite app_nil_r; cbn; auto].
    destruct (has_text_content st), (has_tool_calls st); cbn [fst snd content_index];
      eexists; (split; [rewrite <- ?app_assoc; reflexivity|]); cbn; lia. }
  destruct opened as [st1 out1]. cbn [fst snd] in Hopen.
  destruct Hopen as (new1 & -> & Hc1).
  destruct (current_tool_call st1) as [[[id nm] args]|];
    [|exists new1; split; [reflexivity | exact Hc1]].
  destruct (tcd_arguments tool_call) as [chunk|];
    [|exists new1; split; [reflexivity | exact Hc1]].
  destruct (str_truthy chunk); [|exists new1; split; [reflexivity | exact Hc1]].
  exists (new1 ++ [ContentBlockDeltaJson (content_index st1) chunk]).
  cbn [fst snd content_index]. split; [now rewrite app_assoc|].
  apply (climbs_app new1 _ _ (content_index st1) _ Hc1). cbn. lia.
Qed.

Lemma tool_calls_climb (calls : list tool_call_delta) :
  forall st out,
  exists new,
    snd (fold_left tool_call_step calls (st, out)) = out ++ new
    /\ climbs (content_index st)
              (content_index (fst (fold_left tool_call_step calls (st, out)))) new.
Proof.
  induction calls as [|c calls IH]; intros st out; cbn [fold_left].
  - exists []. rewrite app_nil_r. cbn. auto.
  - destruct (tool_call_step_climbs c st out) as (new1 & H1 & Hc1).
    destruct (tool_call_step (st, out) c) as [st1 out1]. cbn [fst snd] in *. subst out1.
    destruct (IH st1 (out ++ new1)) as (new2 & H2 & Hc2).
    exists (new1 ++ new2). rewrite H2, app_assoc. split; [reflexivity|].
    now apply (climbs_app new1 new2 _ (content_index st1)).
Qed.

(** The end of a stream: nothing, [message_delta] and [message_stop],
    or an error event. *)
Inductive ending : list event -> Prop :=
| ending_none : ending []
| ending_stop reason i o :
    ending [MessageDelta (stop_reason_mapping reason) i o; MessageStop]
| ending_error message : ending [ErrorEvent message].

Lemma chunk_step_spec (st : state) (chunk : chunk_t) :
  exists body fin,
    snd (fst (chunk_step st chunk)) = body ++ fin
    /\ climbs (content_index st) (content_index (fst (fst (chunk_step st chunk)))) body
    /\ (if snd (chunk_step st chunk)
        then exists reason i o, fin = [MessageDelta (stop_reason_mapping reason) i o; MessageStop]
        else fin = []).
Proof.
  unfold chunk_step.
  destruct (choices chunk) as [|choice _]; [exists [], []; cbn; auto|].
  destruct (bool_decide _ && _ && _); [exists [], []; cbn; auto|].
  set (spoken :=
         match delta_content (choice_delta choice) with
         | Some text_content =>
             if str_truthy text_content then
               let '(st, out) :=
                 if has_text_content st then (st, [])
                 else (State (content_index st) true (has_tool_calls st)
                             (current_tool_call st) (input_tokens st) (output_tokens st),
                       [ContentBlockStartText (content_index st)]) in
               (st, out ++ [ContentBlockDeltaText (content_index st) text_content])
             else (st, [])
         | None => (st, [])
         end).
  assert (Hsp : content_index (fst spoken) = content_index st
                /\ climbs (content_index st) (content_index st) (snd spoken)).
  { subst spoken. destruct (delta_content (choice_delta choice)) as [t|]; [|cbn; auto].
    destruct (str_truthy t); [|cbn; auto].
    destruct (has_text_content st); cbn; auto. }
  destruct spoken as [st1 out1]. cbn [fst snd] in Hsp. destruct Hsp as [Hi1 Hc1].
  destruct (tool_calls_climb (delta_tool_calls (choice_delta choice)) st1 out1)
    as (new & Hnew & Hc2).
  destruct (fold_left tool_call_step _ (st1, out1)) as [st2 out2]. cbn [fst snd] in *.
  subst out2. rewrite Hi1 in Hc2.
  pose proof (climbs_app out1 new _ _ _ Hc1 Hc2) as Hbody.
  destruct (finish_reason choice) as [reason|];
    [|exists (out1 ++ new), []; rewrite app_nil_r; cbn; auto].
  destruct (str_truthy reason);
    [|exists (out1 ++ new), []; rewrite app_nil_r; cbn; auto].
  assert (Hstop : climbs (content_index st) (content_index st2)
                    ((out1 ++ new) ++ [ContentBlockStop (content_index st2)])).
  { apply (climbs_app _ [ContentBlockStop (content_index st2)] _ _ _ Hbody). cbn. lia. }
  destruct (usage chunk) as [u|]; destruct (has_text_content st2 || has_tool_calls st2);
    cbn [fst snd content_index];
    match goal with
    | |- exists body fin, ?a ++ ?f = body ++ fin /\ _ => exists a, f
    end;
    (split; [reflexivity|]); (split; [assumption | eauto]).
Qed.

Lemma translate_lines_spec (lines : list openai_line) :
  forall st,
  exists body fin hi,
    translate_lines st lines = body ++ fin
    /\ climbs (content_index st) hi body
    /\ ending fin.
Proof.
  induction lines as [|l lines IH]; intros st.
  - exists [], [], (content_index st). cbn. split; [reflexivity|]. split; [lia | constructor].
  - destruct l as [| | | |chunk|message]; cbn [translate_lines]; try apply IH.
    + exists [], [], (content_index st). cbn. split; [reflexivity|]. split; [lia | constructor].
    + destruct (chunk_step_spec st chunk) as (body & fin & Hout & Hc & Hfin).
      destruct (chunk_step st chunk) as [[st' out] completed]. cbn [fst snd] in *. subst out.
      destruct completed.
      * destruct Hfin as (reason & i & o & ->).
        exists body, [MessageDelta (stop_reason_mapping reason) i o; MessageStop],
          (content_index st').
        split; [reflexivity|]. split; [exact Hc | constructor].
      * subst fin. rewrite app_nil_r.
        destruct (IH st') as (body' & fin' & hi & Heq & Hc' & Hend).
        exists (body ++ body'), fin', hi. rewrite Heq, app_assoc.
        split; [reflexivity|]. split; [|exact Hend].
        now apply (climbs_app body body' _ (content_index st')).
    + exists [], [ErrorEvent message], (content_index st). cbn.
      split; [reflexivity|]. split; [lia | constructor].
Qed.

Lemma climbs_bounds (out : list event) :
  forall lo hi, climbs lo hi out ->
  forall e, e ∈ out -> exists i, block_index e = Some i /\ (lo <= i <= hi)%nat.
Proof.
  induction out as [|x out IH]; intros lo hi Hc e He; [now apply elem_of_nil in He|].
  cbn [climbs] in Hc. destruct (block_index x) as [i|] eqn:Hx; [|tauto].
  destruct Hc as [Hlo Hc]. pose proof (climbs_le out i hi Hc) as Hhi.
  apply elem_of_cons in He as [->|He].
  - exists i. split; [exact Hx | lia].
  - destruct (IH i hi Hc e He) as (j & Hj & Hb). exists j. split; [exact Hj | lia].
Qed.

Lemma climbs_pairwise (pre : list event) :
  forall lo hi e1 rest i,
    climbs lo hi (pre ++ e1 :: rest) -> block_index e1 = Some i ->
    forall e2 j, e2 ∈ rest -> block_index e2 = Some j -> (i <= j)%nat.
Proof.
  induction pre as [|x pre IH]; intros lo hi e1 rest i Hc H1 e2 j H2 Hj.
  - cbn [app climbs] in Hc. rewrite H1 in Hc. destruct Hc as [_ Hc].
    destruct (climbs_bounds rest i hi Hc e2 H2) as (j' & Hj' & Hb).
    rewrite Hj in Hj'. injection Hj' as <-. lia.
  - cbn [app climbs] in Hc. destruct (block_index x) as [k|]; [|tauto].
    destruct Hc as [_ Hc]. now apply (IH k hi e1 rest i Hc H1 e2 j).
Qed.

(** X6.  Whatever the OpenAI stream holds, the Anthropic stream is
    [message_start], then content-block events only, then one of three
    endings: nothing (the input ended or said [DONE] before a
    finish_reason), [message_delta] followed by [message_stop] with one
    of the four Anthropic stop reasons, or a single error event.  So
    [message_start] and [message_stop] occur at most once and nothing
    follows [message_stop] or an error. *)
Theorem anthropic_stream_grammar :
  forall (lines : list openai_line),
  exists body fin,
    stream_anthropic_sse lines = MessageStart :: body ++ fin
    /\ Forall is_block_event body
    /\ (fin = []
        \/ (exists reason i o,
              fin = [MessageDelta reason i o; MessageStop]
              /\ reason ∈ [py "end_turn"; py "max_tokens"; py "tool_use";
                            py "stop_sequence"])
        \/ exists message, fin = [ErrorEvent message]).
Proof.
  intros lines. unfold stream_anthropic_sse.
  destruct (translate_lines_spec lines initial_state) as (body & fin & hi & Heq & Hc & Hend).
  exists body, fin. rewrite Heq. split; [reflexivity|]. split.
  - apply Forall_forall. intros e He.
    destruct (climbs_bounds body _ _ Hc e He) as (i & Hi & _).
    unfold is_block_event. now rewrite Hi.
  - destruct Hend as [|reason i o|message]; [now left | right; left | right; right].
    + exists (stop_reason_mapping reason), i, o. split; [reflexivity|].
      unfold stop_reason_mapping.
      repeat match goal with
             | |- context [if ?b then _ else _] => destruct b
             end; set_solver.
    + now exists message.
Qed.

(** Numbers that do not decrease, from [lo] on. *)
Fixpoint rising (lo : nat) (l : list nat) : Prop :=
  match l with
  | [] => True
  | x :: rest => (lo <= x)%nat /\ rising x rest
  end.

Lemma climbs_rising (out : list event) :
  forall lo hi, climbs lo hi out -> rising lo (omap block_index out).
Proof.
  induction out as [|e out IH]; intros lo hi Hc.
  - exact I.
  - cbn [climbs] in Hc. change (omap block_index (e :: out))
      with (match block_index e with
            | Some i => i :: omap block_index out
            | None => omap block_index out
            end).
    destruct (block_index e) as [i|]; [|tauto]. destruct Hc as [Hlo Hc].
    split; [exact Hlo | now apply (IH i hi)].
Qed.

Lemma rising_all (l : list nat) :
  forall lo, rising lo l -> forall x, x ∈ l -> (lo <= x)%nat.
Proof.
  induction l as [|y l IH]; intros lo Hr x Hx; [now apply elem_of_nil in Hx|].
  destruct Hr as [Hlo Hr]. apply elem_of_cons in Hx as [->|Hx]; [exact Hlo|].
  specialize (IH y Hr x Hx). lia.
Qed.

Lemma rising_pair (a : list nat) :
  forall lo i b j c, rising lo (a ++ i :: b ++ j :: c) -> (i <= j)%nat.
Proof.
  induction a as [|x a IH]; intros lo i b j c Hr.
  - destruct Hr as [_ Hr]. apply (rising_all _ i Hr). set_solver.
  - destruct Hr as [_ Hr]. now apply (IH x i b j c).
Qed.

(** X7.  The block indices of the events of a stream never decrease,
    whatever the OpenAI stream holds: of two content-block events, the
    later one has the same index as the earlier one or a greater one. *)
Theorem anthropic_indices_never_decrease :
  forall (lines : list openai_line) (pre mid post : list event) (e1 e2 : event)
         (i j : nat),
    stream_anthropic_sse lines = pre ++ e1 :: mid ++ e2 :: post ->
    block_index e1 = Some i ->
    block_index e2 = Some j ->
    (i <= j)%nat.
Proof.
  intros lines pre mid post e1 e2 i j Heq H1 H2. unfold stream_anthropic_sse in Heq.
  destruct (translate_lines_spec lines initial_state) as (body & fin & hi & Hb & Hc & Hend).
  rewrite Hb in Heq. apply climbs_rising in Hc.
  assert (Hfin : omap block_index fin = []) by (destruct Hend; reflexivity).
  apply (f_equal (omap block_index)) in Heq.
  change (MessageStart :: body ++ fin) with ([MessageStart] ++ body ++ fin) in Heq.
  rewrite !omap_app, Hfin, app_nil_r in Heq. cbn [omap list_omap block_index app] in Heq.
  rewrite H1 in Heq. rewrite omap_app in Heq. cbn [omap list_omap] in Heq.
  rewrite H2 in Heq. rewrite Heq in Hc. now apply (rising_pair _ _ _ _ _ _ Hc).
Qed.

Lemma anthropic_indices_never_decrease_witness :
  (0 <= 1)%nat.
Proof.
  apply (anthropic_indices_never_decrease AnthropicProps.two_tool_calls
           [MessageStart]
           [ContentBlockDeltaJson 0 (py "{}");
            ContentBlockStartToolUse 1 (py "c2") (py "Bash");
            ContentBlockDeltaJson 1 (py "{}")]
           [MessageDelta (py "tool_use") 2000 7; MessageStop]
           (ContentBlockStartToolUse 0 (py "c1") (py "Read"))
           (ContentBlockStop 1) 0 1); reflexivity.
Defined.

(** *** Streams without tool calls *)

(** The first choice of a chunk, if the translator reads one. *)
Definition first_choice (l : openai_line) : option choice_t :=
  match l with
  | LChunk c => head (choices c)
  | _ => None
  end.

(** No chunk of the stream carries tool calls. *)
Definition text_only (lines : list openai_line) : bool :=
  forallb (fun l => match first_choice l with
                    | Some choice =>
                        match delta_tool_calls (choice_delta choice) with
                        | [] => true
                        | _ :: _ => false
                        end
                    | None => true
                    end) lines.

(** The non-empty text of a chunk. *)
Definition chunk_texts (l : openai_line) : list pystr :=
  match first_choice l with
  | Some choice =>
      match delta_content (choice_delta choice) with
      | Some text_content => if str_truthy text_content then [text_content] else []
      | None => []
      end
  | None => []
  end.

(** The non-empty texts of the chunks of a stream, in order. *)
Definition texts (lines : list openai_line) : list pystr := flat_map chunk_texts lines.

(** A line after which the translator reads on: a line it skips, or a
    chunk without a [finish_reason]. *)
Definition keeps_open (l : openai_line) : bool :=
  match l with
  | LBlank | LOther | LBadJson => true
  | LDone | LRaise _ => false
  | LChunk c =>
      match choices c with
      | choice :: _ => negb (ostr_truthy (finish_reason choice))
      | [] => true
      end
  end.

(** A chunk that announces the role carries nothing else: no text and
    no [finish_reason] (the translator skips such a chunk whole while no
    block is open). *)
Definition plain_role (l : openai_line) : bool :=
  match first_choice l with
  | Some choice =>
      if bool_decide (delta_role (choice_delta choice) = Some r_assistant)
      then match chunk_texts l with [] => true | _ => false end
           && negb (ostr_truthy (finish_reason choice))
      else true
  | None => true
  end.

(** The text block of a stream: opened before its first delta, closed
    when the stream finishes. *)
Definition text_block (deltas : list pystr) : list event :=
  match deltas with
  | [] => []
  | _ => ContentBlockStartText 0 :: map (ContentBlockDeltaText 0) deltas
  end.

Definition text_block_stop (deltas : list pystr) : list event :=
  match deltas with
  | [] => []
  | _ => [ContentBlockStop 0]
  end.

(** The same with the block already open ([b]) or not. *)
Definition opening (b : bool) (deltas : list pystr) : list event :=
  if b then map (ContentBlockDeltaText 0) deltas else text_block deltas.

Definition some (deltas : list pystr) : bool :=
  match deltas with [] => false | _ => true end.

Definition closing (b : bool) : list event :=
  if b then [ContentBlockStop 0] else [].

(** The usage the last chunk reports, or the tokens counted so far. *)
Definition reported_usage (c : chunk_t) (i o : Z) : Z * Z :=
  match usage c with
  | Some u => (prompt_tokens u, completion_tokens u)
  | None => (i, o)
  end.

Lemma opening_app (b : bool) (said deltas : list pystr) :
  opening b said ++ opening (b || some said) deltas = opening b (said ++ deltas).
Proof.
  destruct b; cbn [opening orb].
  - now rewrite map_app.
  - destruct said as [|t said]; cbn [some opening text_block app map]; [reflexivity|].
    now rewrite map_app.
Qed.

Lemma some_app (b : bool) (said deltas : list pystr) :
  b || some said || some deltas = b || some (said ++ deltas).
Proof. destruct b, said, deltas; reflexivity. Qed.

(** A chunk that keeps the stream open adds its text to the block. *)
Lemma chunk_step_open (c : chunk_t) (b : bool) (i o : Z) :
  text_only [LChunk c] = true ->
  keeps_open (LChunk c) = true ->
  plain_role (LChunk c) = true ->
  chunk_step (State 0 b false None i o) c
  = (State 0 (b || some (chunk_texts (LChunk c))) false None i o,
     opening b (chunk_texts (LChunk c)), false).
Proof.
  unfold text_only, keeps_open, plain_role, chunk_texts, chunk_step, first_choice.
  cbn [forallb]. destruct (choices c) as [|choice more]; cbn [head].
  { intros _ _ _. destruct b; reflexivity. }
  rewrite andb_true_r.
  destruct (delta_tool_calls (choice_delta choice)) eqn:Htools; [|discriminate].
  intros _ Hopen Hrole.
  cbn [fold_left has_text_content has_tool_calls content_index
         current_tool_call input_tokens output_tokens negb andb].
  rewrite andb_true_r.
  assert (Hfin : match finish_reason choice with
                 | Some reason => str_truthy reason = false
                 | None => True
                 end).
  { destruct (finish_reason choice) as [reason|]; [|exact I].
    cbn [ostr_truthy] in Hopen. now apply negb_true_iff in Hopen. }
  destruct (bool_decide (delta_role (choice_delta choice) = Some r_assistant)).
  - apply andb_prop in Hrole as [Hnone _].
    destruct (delta_content (choice_delta choice)) as [t|];
      [destruct (str_truthy t); [discriminate|]|];
      destruct b;
      cbn [negb andb has_text_content has_tool_calls content_index
             current_tool_call input_tokens output_tokens orb some opening text_block map];
      try reflexivity;
      (destruct (finish_reason choice) as [reason|]; [rewrite Hfin|]; reflexivity).
  - cbn [andb].
    destruct (delta_content (choice_delta choice)) as [t|];
      [destruct (str_truthy t)|];
      destruct b;
      cbn [has_text_content has_tool_calls content_index
             current_tool_call input_tokens output_tokens orb some opening text_block
             map app];
      (destruct (finish_reason choice) as [reason|]; [rewrite Hfin|]; reflexivity).
Qed.

(** A chunk with a [finish_reason] adds its text, closes the block if
    there is one and ends the message. *)
Lemma chunk_step_finish (c : chunk_t) (choice : choice_t) (others : list choice_t)
  (reason : pystr) (b : bool) (i o : Z) :
  text_only [LChunk c] = true ->
  plain_role (LChunk c) = true ->
  choices c = choice :: others ->
  finish_reason choice = Some reason ->
  str_truthy reason = true ->
  exists st',
    chunk_step (State 0 b false None i o) c
    = (st',
       opening b (chunk_texts (LChunk c))
       ++ closing (b || some (chunk_texts (LChunk c)))
       ++ [MessageDelta (stop_reason_mapping reason)
             (fst (reported_usage c i o)) (snd (reported_usage c i o));
           MessageStop],
       true).
Proof.
  unfold text_only, plain_role, chunk_texts, chunk_step, first_choice, reported_usage.
  cbn [forallb]. intros Htext Hrole Hc Hreason Htruthy. rewrite Hc in *. cbn [head] in *.
  rewrite andb_true_r in Htext.
  destruct (delta_tool_calls (choice_delta choice)) eqn:Htools; [|discriminate].
  rewrite Hreason in *. cbn [ostr_truthy] in Hrole. rewrite Htruthy in *.
  cbn [negb] in Hrole. rewrite andb_false_r in Hrole.
  destruct (bool_decide (delta_role (choice_delta choice) = Some r_assistant));
    [discriminate|].
  cbn [fold_left has_text_content has_tool_calls content_index
         current_tool_call input_tokens output_tokens negb andb].
  destruct (delta_content (choice_delta choice)) as [t|];
    [destruct (str_truthy t)|];
    destruct b; destruct (usage c) as [u|];
    cbn [has_text_content has_tool_calls content_index
           current_tool_call input_tokens output_tokens orb some opening closing
           text_block map app fst snd];
    eexists; reflexivity.
Qed.

Lemma text_only_app (a b : list openai_line) :
  text_only (a ++ b) = text_only a && text_only b.
Proof. apply forallb_app. Qed.

(** The lines that keep the stream open, read in any state of the text
    block. *)
Lemma translate_open_lines (prefix : list openai_line) :
  forall (tail : list openai_line) (b : bool) (i o : Z),
    text_only prefix = true ->
    forallb keeps_open prefix = true ->
    forallb plain_role prefix = true ->
    translate_lines (State 0 b false None i o) (prefix ++ tail)
    = opening b (texts prefix)
      ++ translate_lines (State 0 (b || some (texts prefix)) false None i o) tail.
Proof.
  induction prefix as [|l prefix IH]; intros tail b i o Htext Hopen Hrole.
  - cbn. rewrite orb_false_r. now destruct b.
  - change (l :: prefix) with ([l] ++ prefix) in Htext. rewrite text_only_app in Htext.
    apply andb_prop in Htext as [Hl Htext].
    cbn [forallb] in Hopen, Hrole.
    apply andb_prop in Hopen as [Hlo Hopen]. apply andb_prop in Hrole as [Hlr Hrole].
    assert (Hskip : chunk_texts l = [] ->
                    translate_lines (State 0 b false None i o) ((l :: prefix) ++ tail)
                    = translate_lines (State 0 b false None i o) (prefix ++ tail) ->
                    translate_lines (State 0 b false None i o) ((l :: prefix) ++ tail)
                    = opening b (texts (l :: prefix))
                      ++ translate_lines
                           (State 0 (b || some (texts (l :: prefix))) false None i o) tail).
    { intros Hnone ->. unfold texts. cbn [flat_map]. rewrite Hnone. cbn [app].
      now apply IH. }
    destruct l as [| | | |c|message]; try discriminate; try (now apply Hskip).
    cbn [app translate_lines].
    rewrite (chunk_step_open c b i o Hl Hlo Hlr).
    rewrite (IH tail _ i o Htext Hopen Hrole).
    unfold texts. cbn [flat_map]. fold (texts prefix).
    now rewrite app_assoc, opening_app, some_app.
Qed.

(** X8.  A stream without tool calls, in which a chunk that announces
    the role carries nothing else, is translated into at most one text
    block, at index 0, that holds exactly the non-empty texts of the
    chunks read, in order: [content_block_start] once, before the first
    text, and one text delta for each non-empty text.  A stream that
    ends without a [finish_reason] (it ends, or sends [data: [DONE]])
    leaves it at that; a failing source adds the [error] event; the
    first chunk with a [finish_reason] adds its text, closes the block
    if there is one and ends the message, whatever follows it, with the
    mapped stop reason and the usage of that chunk (0 and 0 if it has
    none).  A stream without text has no block at all. *)
Theorem anthropic_text_stream_is_one_block :
  forall (prefix tail : list openai_line),
    text_only (prefix ++ tail) = true ->
    forallb keeps_open prefix = true ->
    forallb plain_role (prefix ++ tail) = true ->
    ((tail = [] \/ exists more, tail = LDone :: more) ->
     stream_anthropic_sse (prefix ++ tail) = MessageStart :: text_block (texts prefix))
    /\ (forall message more,
          tail = LRaise message :: more ->
          stream_anthropic_sse (prefix ++ tail)
          = MessageStart :: text_block (texts prefix) ++ [ErrorEvent message])
    /\ (forall c choice others reason more,
          tail = LChunk c :: more ->
          choices c = choice :: others ->
          finish_reason choice = Some reason ->
          str_truthy reason = true ->
          stream_anthropic_sse (prefix ++ tail)
          = MessageStart
            :: text_block (texts (prefix ++ [LChunk c]))
            ++ text_block_stop (texts (prefix ++ [LChunk c]))
            ++ [MessageDelta (stop_reason_mapping reason)
                  (fst (reported_usage c 0 0)) (snd (reported_usage c 0 0));
                MessageStop]).
Proof.
  intros prefix tail Htext Hopen Hrole.
  rewrite text_only_app in Htext. apply andb_prop in Htext as [Htp Htt].
  rewrite forallb_app in Hrole. apply andb_prop in Hrole as [Hrp Hrt].
  unfold stream_anthropic_sse, initial_state.
  rewrite (translate_open_lines prefix tail false 0 0 Htp Hopen Hrp).
  cbn [opening orb]. split; [|split].
  - intros [->|[more ->]]; cbn [translate_lines]; now rewrite app_nil_r.
  - intros message more ->. reflexivity.
  - intros c choice others reason more -> Hc Hreason Htruthy.
    cbn [translate_lines].
    assert (Hct : text_only [LChunk c] = true).
    { change (LChunk c :: more) with ([LChunk c] ++ more) in Htt.
      rewrite text_only_app in Htt. now apply andb_prop in Htt as [Htc _]. }
    cbn [forallb] in Hrt. apply andb_prop in Hrt as [Hrc _].
    destruct (chunk_step_finish c choice others reason (some (texts prefix)) 0 0
                Hct Hrc Hc Hreason Htruthy) as (st' & ->).
    unfold texts. rewrite flat_map_app. cbn [flat_map]. rewrite app_nil_r.
    fold (texts prefix).
    rewrite app_assoc.
    change (text_block (texts prefix)) with (opening false (texts prefix)).
    rewrite (opening_app false). cbn [opening orb].
    rewrite <- (orb_false_l (some (texts prefix) || some (chunk_texts (LChunk c)))).
    rewrite orb_assoc, (some_app false). cbn [orb].
    f_equal. f_equal. now destruct (texts prefix ++ chunk_texts (LChunk c)).
Qed.

(** A stream that says "Hi" and stops. *)
Definition hello_stream : list openai_line :=
  [LChunk (Chunk [Choice (Delta (Some r_assistant) None []) None] None);
   LBlank;
   LChunk (Chunk [Choice (Delta None (Some (py "Hi")) []) None] None);
   LChunk (Chunk [Choice (Delta None None []) (Some (py "stop"))] (Some (Usage 5 1)));
   LDone].

Lemma anthropic_text_stream_is_one_block_witness :
  stream_anthropic_sse hello_stream
  = [MessageStart; ContentBlockStartText 0; ContentBlockDeltaText 0 (py "Hi");
     ContentBlockStop 0; MessageDelta (py "end_turn") 5 1; MessageStop].
Proof.
  destruct (anthropic_text_stream_is_one_block (firstn 3 hello_stream)
              (skipn 3 hello_stream) eq_refl eq_refl eq_refl) as (_ & _ & H).
  apply (H (Chunk [Choice (Delta None None []) (Some (py "stop"))] (Some (Usage 5 1)))
           (Choice (Delta None None []) (Some (py "stop"))) [] (py "stop") [LDone]);
    reflexivity.
Defined.

End AnthropicInvariants.

(** ** The OpenAI stream translator and its recovery driver on any
       upstream answer (protobuf2openai/sse_transform.py) *)

Module StreamInvariants.
Import Packets SseTransform.

(** The chunks that carry a delta: text or a tool call. *)
Definition is_delta (c : sse_chunk) : bool :=
  match c with
  | ContentChunk _ | ToolCallsChunk _ _ _ => true
  | _ => false
  end.


(** The chunks the translator makes of an answer: deltas, and
    terminating chunks whose [finish_reason] is "stop" or "tool_calls". *)
Definition is_completion (c : sse_chunk) : bool :=
  match c with
  | ContentChunk _ | ToolCallsChunk _ _ _ => true
  | FinalChunk finish_reason _ _ _ =>
      pystr_eqb finish_reason (py "stop") || pystr_eqb finish_reason (py "tool_calls")
  | _ => false
  end.

(** The text a chunk shows. *)
Definition chunk_text (c : sse_chunk) : pystr :=
  match c with
  | ContentChunk text => text
  | _ => []
  end.

(** The text of the content deltas of a stream, in order. *)
Definition texts (out : list sse_chunk) : pystr := flat_map chunk_text out.

Lemma texts_app (a b : list sse_chunk) : texts (a ++ b) = texts a ++ texts b.
Proof. apply flat_map_app. Qed.


Lemma delta_is_completion (out : list sse_chunk) :
  Forall (fun c => is_delta c = true) out -> Forall (fun c => is_completion c = true) out.
Proof. intros H. apply (Forall_impl _ _ _ H). now intros [| | | | |]. Qed.

(** *** Substrings *)

Lemma starts_with_app (sub a b : pystr) :
  starts_with sub a = true -> starts_with sub (a ++ b) = true.
Proof.
  revert a. induction sub as [|c sub IH]; intros a; [reflexivity|].
  destruct a as [|d a]; cbn [starts_with app]; [discriminate|].
  intros H. apply andb_true_iff in H as [Hc Hs]. now rewrite Hc, (IH a Hs).
Qed.

Lemma starts_with_self (sub b : pystr) : starts_with sub (sub ++ b) = true.
Proof.
  induction sub as [|c sub IH]; [reflexivity|]. cbn [starts_with app].
  now rewrite N.eqb_refl, IH.
Qed.

Lemma contains_app_l (sub a b : pystr) :
  contains sub a = true -> contains sub (a ++ b) = true.
Proof.
  induction a as [|c a IH].
  - cbn [contains app]. rewrite orb_false_r. destruct sub; [|discriminate].
    intros _. now destruct b.
  - cbn [contains app]. intros H. apply orb_true_iff in H as [H|H].
    + pose proof (starts_with_app sub (c :: a) b H) as H'. cbn [app] in H'.
      now rewrite H'.
    + rewrite (IH H). apply orb_true_r.
Qed.

Lemma contains_app_r (sub a b : pystr) :
  contains sub b = true -> contains sub (a ++ b) = true.
Proof.
  intros H. induction a as [|c a IH]; [exact H|].
  cbn [contains app]. rewrite IH. apply orb_true_r.
Qed.

Lemma contains_self (sub a b : pystr) : contains sub (a ++ sub ++ b) = true.
Proof.
  apply contains_app_r. destruct (sub ++ b) eqn:E; cbn [contains].
  - destruct sub; [reflexivity|discriminate].
  - rewrite <- E, starts_with_self. reflexivity.
Qed.

Section Translator.

Variable json : Type.
Variable embedded_todos : pystr -> option pystr.
Variable tool_match : pystr -> option pystr.
Variable count_tokens : pystr -> pystr -> nat.
Variable count_packet_tokens : packet json -> pystr -> Z.

Local Abbreviation step_message := (message_step embedded_todos).
Local Abbreviation step_action := (action_step embedded_todos).
Local Abbreviation step_event := (event_step embedded_todos tool_match count_tokens).
Local Abbreviation process := (process_frames embedded_todos tool_match count_tokens).
Local Abbreviation process_lines :=
  (_process_sse_response_lines embedded_todos tool_match count_tokens).
Local Abbreviation try_once := (attempt embedded_todos tool_match count_tokens).
Local Abbreviation driver_rec :=
  (stream_openai_sse_rec json embedded_todos tool_match count_tokens count_packet_tokens).
Local Abbreviation driver :=
  (stream_openai_sse json embedded_todos tool_match count_tokens count_packet_tokens).

(** A step yields deltas only and adds the text it yields to
    [output_text]. *)
Definition speaks {A : Type} (step : tstate -> A -> tstate * list sse_chunk) : Prop :=
  forall st a,
    Forall (fun c => is_delta c = true) (snd (step st a))
    /\ output_text (fst (step st a)) = output_text st ++ texts (snd (step st a)).

Lemma emit_text_speaks : speaks emit_text.
Proof.
  intros st t. unfold emit_text. destruct (str_truthy t); cbn.
  - split; [repeat constructor|now rewrite app_nil_r].
  - split; [constructor|now rewrite app_nil_r].
Qed.

Lemma emit_opt_text_speaks : speaks emit_opt_text.
Proof.
  intros st [t|]; cbn [emit_opt_text]; [apply emit_text_speaks|].
  cbn. split; [constructor|now rewrite app_nil_r].
Qed.

Lemma message_step_speaks : speaks step_message.
Proof.
  intros st m. unfold message_step.
  assert (Hnone : Forall (fun c => is_delta c = true) (snd (st, @nil sse_chunk))
                  /\ output_text (fst (st, @nil sse_chunk))
                     = output_text st ++ texts (snd (st, @nil sse_chunk))).
  { cbn. split; [constructor|now rewrite app_nil_r]. }
  destruct (tm_tool_call_result m) as [res|].
  - destruct (ostr_truthy (tcr_tool_call_id res)); [|exact Hnone].
    destruct (if str_truthy (tcr_serialized_result res) then _ else _); [|exact Hnone].
    cbn. split; [repeat constructor|now rewrite app_nil_r].
  - destruct (tm_tool_call m) as [[cid [[name args]|]]|];
      try apply emit_opt_text_speaks.
    destruct (str_truthy name); [|apply emit_opt_text_speaks].
    cbn. split; [repeat constructor|now rewrite app_nil_r].
Qed.

Lemma run_speaks {A : Type} (step : tstate -> A -> tstate * list sse_chunk) :
  speaks step -> speaks (run step).
Proof.
  intros Hstep st l. revert st. induction l as [|a l IH]; intros st; cbn [run].
  - cbn. split; [constructor|now rewrite app_nil_r].
  - destruct (Hstep st a) as [H1 T1]. destruct (step st a) as [st1 out1].
    destruct (IH st1) as [H2 T2]. destruct (run step st1 l) as [st2 out2].
    cbn [fst snd] in *. split; [now apply Forall_app|].
    now rewrite T2, T1, texts_app, app_assoc.
Qed.

(** Two steps in a row. *)
Lemma speaks_then (st st1 st2 : tstate) (out1 out2 : list sse_chunk) :
  Forall (fun c => is_delta c = true) out1 /\ output_text st1 = output_text st ++ texts out1 ->
  Forall (fun c => is_delta c = true) out2 /\ output_text st2 = output_text st1 ++ texts out2 ->
  Forall (fun c => is_delta c = true) (out1 ++ out2)
  /\ output_text st2 = output_text st ++ texts (out1 ++ out2).
Proof.
  intros [H1 T1] [H2 T2]. split; [now apply Forall_app|].
  now rewrite T2, T1, texts_app, app_assoc.
Qed.

Lemma action_step_speaks : speaks step_action.
Proof.
  intros st a. unfold action_step.
  pose proof (emit_opt_text_speaks st (append_to_message_content a)) as H1.
  destruct (emit_opt_text st (append_to_message_content a)) as [st1 o1].
  pose proof (run_speaks step_message message_step_speaks st1
                (default [] (add_messages_to_task a))) as H2.
  destruct (run step_message st1 _) as [st2 o2].
  pose proof (emit_opt_text_speaks st2 (update_task_message a)) as H3.
  destruct (emit_opt_text st2 (update_task_message a)) as [st3 o3].
  pose proof (run_speaks emit_text emit_text_speaks st3 (default [] (create_task a))) as H4.
  destruct (run emit_text st3 _) as [st4 o4].
  pose proof (emit_opt_text_speaks st4 (update_task_summary a)) as H5.
  destruct (emit_opt_text st4 (update_task_summary a)) as [st5 o5].
  cbn [fst snd] in *.
  apply (speaks_then st st1 st5 _ _ H1). apply (speaks_then st1 st2 st5 _ _ H2).
  apply (speaks_then st2 st3 st5 _ _ H3). now apply (speaks_then st3 st4 st5 _ _ H4).
Qed.

(** The [completion_tokens] for a text. *)
Definition completion_of (text model_id : pystr) : Z :=
  Z.max 1 (if str_truthy text then Z.of_nat (count_tokens text model_id) else 0).

Lemma estimated_output_tokens_text (st : tstate) (model_id : pystr) :
  estimated_output_tokens count_tokens st model_id = completion_of (output_text st) model_id.
Proof.
  unfold estimated_output_tokens, completion_of.
  destruct (str_truthy (output_text st)); [|reflexivity].
  destruct (Z.eqb_spec (Z.of_nat (count_tokens (output_text st) model_id)) 0); lia.
Qed.

(** Every terminating chunk of [out] reports the tokens of the text
    shown before it, [text] being the text shown before [out]. *)
Fixpoint counted (model_id text : pystr) (out : list sse_chunk) : Prop :=
  match out with
  | [] => True
  | FinalChunk _ prompt completion total :: rest =>
      completion = completion_of text model_id
      /\ total = (prompt + completion)%Z
      /\ counted model_id text rest
  | c :: rest => counted model_id (text ++ chunk_text c) rest
  end.

Lemma counted_deltas (model_id : pystr) (out : list sse_chunk) :
  forall text, Forall (fun c => is_delta c = true) out -> counted model_id text out.
Proof.
  induction out as [|c out IH]; intros text Hall; [exact I|].
  inversion Hall as [|? ? Hc Hout]; subst.
  destruct c; try discriminate; cbn [counted]; now apply IH.
Qed.

Lemma counted_app (model_id : pystr) (a b : list sse_chunk) :
  forall text, counted model_id text a -> counted model_id (text ++ texts a) b ->
               counted model_id text (a ++ b).
Proof.
  induction a as [|c a IH]; intros text Ha Hb.
  - cbn in Hb. now rewrite app_nil_r in Hb.
  - assert (Hstep : counted model_id (text ++ chunk_text c) a ->
                    counted model_id (text ++ chunk_text c) (a ++ b)).
    { intros Ha'. apply IH; [exact Ha'|].
      unfold texts in Hb. cbn [flat_map] in Hb. now rewrite <- app_assoc. }
    destruct c; cbn [counted app] in *; auto.
    destruct Ha as (H1 & H2 & Ha). split; [exact H1|]. split; [exact H2|].
    apply IH; [exact Ha|]. unfold texts in Hb. cbn [flat_map chunk_text app] in Hb.
    exact Hb.
Qed.

Lemma counted_split (model_id : pystr) (pre : list sse_chunk) :
  forall text reason prompt completion total post,
    counted model_id text (pre ++ FinalChunk reason prompt completion total :: post) ->
    completion = completion_of (text ++ texts pre) model_id
    /\ total = (prompt + completion)%Z.
Proof.
  induction pre as [|c pre IH]; intros text reason prompt completion total post Hc.
  - cbn in Hc. cbn. rewrite app_nil_r. tauto.
  - assert (Hstep : counted model_id (text ++ chunk_text c)
                      (pre ++ FinalChunk reason prompt completion total :: post) ->
                    completion = completion_of (text ++ texts (c :: pre)) model_id
                    /\ total = (prompt + completion)%Z).
    { intros Hc'. apply IH in Hc'. unfold texts in *. cbn [flat_map].
      now rewrite app_assoc. }
    destruct c; cbn [counted app] in Hc; auto.
    destruct Hc as (_ & _ & Hc). apply IH in Hc.
    unfold texts in *. cbn [flat_map chunk_text app]. exact Hc.
Qed.

(** One event: deltas, then at most one terminating chunk, which
    reports the text shown so far. *)
Lemma event_step_spec (st : tstate) (model_id : pystr) (input_tokens : Z) (ev : event_data) :
  exists deltas fin,
    snd (fst (step_event st model_id input_tokens ev)) = deltas ++ fin
    /\ Forall (fun c => is_delta c = true) deltas
    /\ output_text (fst (fst (step_event st model_id input_tokens ev)))
       = output_text st ++ texts deltas
    /\ (fin = []
        \/ exists (called : bool) prompt,
             fin = [FinalChunk (if called then py "tool_calls" else py "stop") prompt
                      (completion_of (output_text st ++ texts deltas) model_id)
                      (prompt + completion_of (output_text st ++ texts deltas) model_id)]).
Proof.
  unfold event_step.
  pose proof (run_speaks step_action action_step_speaks st
                (default [] (client_actions ev))) as H1.
  destruct (run step_action st _) as [st1 o1].
  assert (H2 : Forall (fun c => is_delta c = true)
                 (snd (match update_task_description ev with
                       | Some task_desc => emit_text st1 (context_reset_notice task_desc)
                       | None => (st1, [])
                       end))
               /\ output_text (fst (match update_task_description ev with
                                    | Some task_desc =>
                                        emit_text st1 (context_reset_notice task_desc)
                                    | None => (st1, [])
                                    end))
                  = output_text st1
                    ++ texts (snd (match update_task_description ev with
                                   | Some task_desc =>
                                       emit_text st1 (context_reset_notice task_desc)
                                   | None => (st1, [])
                                   end))).
  { destruct (update_task_description ev) as [d|]; [apply emit_text_speaks|].
    cbn. split; [constructor|now rewrite app_nil_r]. }
  destruct (match update_task_description ev with
            | Some task_desc => emit_text st1 (context_reset_notice task_desc)
            | None => (st1, [])
            end) as [st2 o2].
  cbn [fst snd] in H1, H2.
  destruct (speaks_then st st1 st2 o1 o2 H1 H2) as [Hd Ht].
  destruct (finished ev) as [f|].
  - unfold finished_step. rewrite estimated_output_tokens_text, Ht.
    destruct (internal_error f) as [msg|];
      [|destruct (llm_unavailable f);
        [|destruct (estimate_prompt_tokens _ _ _) as [prompt|]]];
      cbn [fst snd].
    + exists (o1 ++ o2), []. rewrite !app_nil_r. auto.
    + exists (o1 ++ o2), []. rewrite !app_nil_r. auto.
    + exists (o1 ++ o2). eexists. split; [apply app_assoc|].
      split; [exact Hd|]. split; [exact Ht|]. right. eauto.
    + exists (o1 ++ o2), []. rewrite !app_nil_r. auto.
  - cbn [fst snd]. exists (o1 ++ o2), []. rewrite app_nil_r. auto.
Qed.

Lemma event_step_counted (st : tstate) (model_id : pystr) (input_tokens : Z) (ev : event_data) :
  Forall (fun c => is_completion c = true) (snd (fst (step_event st model_id input_tokens ev)))
  /\ counted model_id (output_text st) (snd (fst (step_event st model_id input_tokens ev)))
  /\ output_text (fst (fst (step_event st model_id input_tokens ev)))
     = output_text st ++ texts (snd (fst (step_event st model_id input_tokens ev))).
Proof.
  destruct (event_step_spec st model_id input_tokens ev)
    as (deltas & fin & -> & Hd & Ht & Hfin).
  split; [|split].
  - apply Forall_app. split; [now apply delta_is_completion|].
    destruct Hfin as [->|([|] & prompt & ->)]; repeat constructor.
  - apply counted_app; [now apply counted_deltas|].
    destruct Hfin as [->|(called & prompt & ->)]; cbn [counted]; auto.
  - rewrite Ht, texts_app.
    destruct Hfin as [->|(called & prompt & ->)]; cbn; now rewrite app_nil_r.
Qed.

(** [DONE] ends an answer that no exception ended. *)
Definition done_unless (e : option raised) : list sse_chunk :=
  match e with
  | Some _ => []
  | None => [DONE]
  end.

(** One answer: payload chunks, then [DONE] unless an exception ended
    it. *)
Lemma process_frames_spec (model_id : pystr) (input_tokens : Z) (frames : list frame) :
  forall st,
  exists body,
    fst (process st model_id input_tokens frames)
    = body ++ done_unless (snd (process st model_id input_tokens frames))
    /\ Forall (fun c => is_completion c = true) body
    /\ counted model_id (output_text st) body.
Proof.
  induction frames as [|f frames IH]; intros st; cbn [process_frames].
  - exists []. cbn. auto.
  - destruct f as [ev| |]; [|apply IH|exists []; cbn; auto].
    destruct (event_step_counted st model_id input_tokens ev) as (Hp & Hc & Ht).
    destruct (step_event st model_id input_tokens ev) as [[st' out] r].
    cbn [fst snd] in Hp, Hc, Ht. destruct r as [e|].
    + exists out. cbn [fst snd]. rewrite app_nil_r. auto.
    + destruct (IH st') as (body & Heq & Hb & Hcb).
      destruct (process st' model_id input_tokens frames) as [out' r'].
      cbn [fst snd] in *. exists (out ++ body). rewrite Heq, app_assoc.
      split; [reflexivity|]. split; [now apply Forall_app|].
      apply counted_app; [exact Hc|]. now rewrite <- Ht.
Qed.

(** X9.  The [usage] of every terminating chunk of an answer is computed
    from the text streamed before it: [completion_tokens] is the token
    count of the concatenation of the content deltas already yielded
    (tool-call chunks add nothing), and never below 1; [total_tokens] is
    [prompt_tokens + completion_tokens]. *)
Theorem usage_counts_streamed_text :
  forall (model_id : pystr) (input_tokens : Z) (frames : list frame)
         (pre post : list sse_chunk) (reason : pystr) (prompt completion total : Z)
         (e : option raised),
    process_lines model_id input_tokens frames
      = (pre ++ FinalChunk reason prompt completion total :: post, e) ->
    completion
      = Z.max 1 (if str_truthy (texts pre)
                 then Z.of_nat (count_tokens (texts pre) model_id) else 0)
    /\ total = (prompt + completion)%Z.
Proof.
  intros model_id input_tokens frames pre post reason prompt completion total e Heq.
  unfold _process_sse_response_lines in Heq.
  destruct (process_frames_spec model_id input_tokens frames (TState false []))
    as (body & Hout & _ & Hc).
  rewrite Heq in Hout. cbn [fst snd output_text] in Hout, Hc.
  assert (Hc' : counted model_id []
                  (pre ++ FinalChunk reason prompt completion total :: post)).
  { rewrite Hout. apply counted_app; [exact Hc|]. destruct e; cbn; auto. }
  apply counted_split in Hc'. exact Hc'.
Qed.






(** The first invocation ([retry_count = 0]), with its one possible
    retry. *)
Lemma driver_first_attempt (p : packet json) (model_id : pystr) (responses : list response) :
  driver p model_id responses
  = (let input_tokens := count_packet_tokens p model_id in
    let '(out, e, rest) := try_once model_id input_tokens responses in
    match e with
    | None => ([RoleChunk] ++ out, [p])
    | Some (InternalErrorRecoverable tool_name _) =>
        let '(out', posted) :=
          driver_rec 1 (add_recovery_hint json tool_name p) model_id 1 rest in
        ([RoleChunk] ++ out ++ [ContentChunk internal_error_notice] ++ out',
         p :: posted)
    | Some LLMUnavailableRecoverable =>
        let '(out', posted) :=
          driver_rec 1 (add_continue_hint json p) model_id 1 rest in
        ([RoleChunk] ++ out ++ [ContentChunk llm_unavailable_notice] ++ out',
         p :: posted)
    | Some OtherException => ([RoleChunk] ++ out ++ [ErrorChunk []; DONE], [p])
    end).
Proof. reflexivity. Qed.



(** *** The packet of a retry *)

(** What a retry may change of a packet: the query of its last input,
    by adding to it. *)
Definition same_but_last_query (p p' : packet json) : Prop :=
  task_messages p' = task_messages p
  /\ active_task_id p' = active_task_id p
  /\ model_base p' = model_base p
  /\ conversation_id p' = conversation_id p
  /\ mcp_tools p' = mcp_tools p
  /\ (inputs p' = inputs p
      \/ exists inputs0 q plain_text suffix,
           inputs p = inputs0 ++ [InUserQuery q plain_text]
           /\ inputs p' = inputs0 ++ [InUserQuery (q ++ suffix) plain_text]).

Lemma amend_last_query_same (skip : pystr -> bool) (suffix : pystr) (p : packet json) :
  same_but_last_query p (amend_last_query json skip suffix p).
Proof.
  unfold amend_last_query, same_but_last_query.
  destruct (last (inputs p)) as [[q plain_text|results]|] eqn:Hlast; auto 7.
  destruct (skip q); auto 7. cbn [task_messages active_task_id model_base
                                    conversation_id mcp_tools inputs].
  do 5 (split; [reflexivity|]). right.
  apply last_Some in Hlast as [inputs0 Hi]. exists inputs0, q, plain_text, suffix.
  rewrite Hi, removelast_last. auto.
Qed.

Lemma retry_posts_its_packet (fuel : nat) (p : packet json) (model_id : pystr)
  (responses : list response) :
  snd (driver_rec (S fuel) p model_id 1 responses) = [p].
Proof.
  cbn [stream_openai_sse_rec]. destruct (try_once _ _ _) as [[out e] rest].
  destruct e as [[tool_name msg| |]|]; reflexivity.
Qed.

(** X11.  A chat completion is retried at most once, whatever the bridge
    answers, and the packet of the retry is the packet of the request
    except for the query of its last input, to which text may have been
    added: the history, the tools, the model and the ids are never
    touched. *)
Theorem retry_changes_only_last_query :
  forall (p : packet json) (model_id : pystr) (responses : list response),
  exists more,
    snd (driver p model_id responses) = p :: more
    /\ (length more <= 1)%nat
    /\ forall p', p' ∈ more -> same_but_last_query p p'.
Proof.
  intros p model_id responses. rewrite driver_first_attempt. cbv zeta.
  destruct (try_once _ _ responses) as [[out e] rest].
  assert (Hnone : exists more : list (packet json),
             [p] = p :: more /\ (length more <= 1)%nat
             /\ forall p', p' ∈ more -> same_but_last_query p p').
  { exists []. split; [reflexivity|]. split; [cbn; lia|].
    intros p' Hp'. now apply elem_of_nil in Hp'. }
  destruct e as [[tool_name msg| |]|]; cbn [snd]; try exact Hnone.
  - pose proof (retry_posts_its_packet 0 (add_recovery_hint json tool_name p)
                  model_id rest) as Hr.
    destruct (driver_rec 1 _ model_id 1 rest) as [out' posted]. cbn [snd] in *.
    subst posted. eexists. split; [reflexivity|]. split; [cbn; lia|].
    intros p' Hp'. apply list_elem_of_singleton in Hp' as ->.
    apply amend_last_query_same.
  - pose proof (retry_posts_its_packet 0 (add_continue_hint json p) model_id rest) as Hr.
    destruct (driver_rec 1 _ model_id 1 rest) as [out' posted]. cbn [snd] in *.
    subst posted. eexists. split; [reflexivity|]. split; [cbn; lia|].
    intros p' Hp'. apply list_elem_of_singleton in Hp' as ->.
    apply amend_last_query_same.
Qed.

(** Amending a packet that was amended with a suffix the test
    recognises changes nothing. *)
Lemma amend_last_query_again (skip : pystr -> bool) (suffix suffix' : pystr)
  (p : packet json) :
  (forall q, skip (q ++ suffix) = true) ->
  amend_last_query json skip suffix' (amend_last_query json skip suffix p)
  = amend_last_query json skip suffix p.
Proof.
  intros Hskip.
  destruct (last (inputs p)) as [[q plain_text|results]|] eqn:Hlast.
  - destruct (skip q) eqn:Hq.
    + assert (Hsame : forall s, amend_last_query json skip s p = p)
        by (intros s; unfold amend_last_query; now rewrite Hlast, Hq).
      now rewrite !Hsame.
    + assert (Hnew : amend_last_query json skip suffix p
                     = Packet (task_messages p) (active_task_id p)
                         (removelast (inputs p) ++ [InUserQuery (q ++ suffix) plain_text])
                         (model_base p) (conversation_id p) (mcp_tools p))
        by (unfold amend_last_query; now rewrite Hlast, Hq).
      rewrite Hnew. unfold amend_last_query. cbn [inputs].
      now rewrite last_snoc, Hskip.
  - assert (Hsame : forall s, amend_last_query json skip s p = p)
      by (intros s; unfold amend_last_query; now rewrite Hlast).
    now rewrite !Hsame.
  - assert (Hsame : forall s, amend_last_query json skip s p = p)
      by (intros s; unfold amend_last_query; now rewrite Hlast).
    now rewrite !Hsame.
Qed.

Lemma recovery_prompt_marked (tool_name : option pystr) (q : pystr) :
  contains recovery_marker (q ++ recovery_prompt tool_name) = true.
Proof.
  apply contains_app_r. unfold recovery_prompt.
  destruct (ostr_truthy tool_name); do 2 apply contains_app_r.
  - apply contains_app_l. vm_compute. reflexivity.
  - vm_compute. reflexivity.
Qed.

(** X12.  The recovery texts are never added twice: a packet that got
    the recovery hint of an internal error is left as it is by a second
    hint, whatever tool either names, and so is a packet that got the
    hint of an unavailable model. *)
Theorem recovery_hints_are_added_once :
  forall (p : packet json) (tool_name tool_name' : option pystr),
    add_recovery_hint json tool_name' (add_recovery_hint json tool_name p)
    = add_recovery_hint json tool_name p
    /\ add_continue_hint json (add_continue_hint json p) = add_continue_hint json p.
Proof.
  intros p tool_name tool_name'. split.
  - apply amend_last_query_again. intros q. apply recovery_prompt_marked.
  - apply amend_last_query_again. intros q. apply orb_true_iff. right.
    apply contains_app_r. vm_compute. reflexivity.
Qed.

End Translator.

Lemma usage_counts_streamed_text_witness :
  (5 = Z.max 1 (if str_truthy (texts [ContentChunk (py "hello")])
                then Z.of_nat (length (texts [ContentChunk (py "hello")])) else 0)
   /\ 2005 = 2000 + 5)%Z.
Proof.
  apply (usage_counts_streamed_text (fun _ => None) (fun _ => None)
           (fun text _ => length text) TranslatorProps.sonnet 57
           [FEvent TranslatorProps.hello_event; FEvent TranslatorProps.finished_event]
           [ContentChunk (py "hello")] [DONE] (py "stop") 2000 5 2005 None).
  vm_compute. reflexivity.
Defined.

End StreamInvariants.

(** ** The request assembler on any history (protobuf2openai/packets.py,
       protobuf2openai/router.py, protobuf2openai/helpers.py) *)

Module AssemblerInvariants.
Import Helpers Packets Router.

(** The messages that can be the input of a request: a user message, or
    a tool message that carries an id. *)
Definition is_input (m : ChatMessage) : bool :=
  is_role r_user m || (is_role r_tool m && ostr_truthy (tool_call_id m)).

Lemma find_last_input_spec (reversed : list ChatMessage) :
  forall idx, idx = (length reversed - 1)%nat ->
    match find_last_input reversed idx with
    | None => Forall (fun m => is_input m = false) reversed
    | Some i =>
        exists after m before,
          reversed = after ++ m :: before
          /\ is_input m = true
          /\ Forall (fun m => is_input m = false) after
          /\ i = length before
    end.
Proof.
  induction reversed as [|m rest IH]; intros idx Hidx; cbn [find_last_input].
  - constructor.
  - assert (Hhere : is_input m = true ->
                    exists after m' before,
                      m :: rest = after ++ m' :: before
                      /\ is_input m' = true
                      /\ Forall (fun m => is_input m = false) after
                      /\ idx = length before).
    { intros Hm. exists [], m, rest. cbn [app length] in *.
      repeat split; auto. lia. }
    unfold is_input in Hhere.
    destruct (is_role r_user m) eqn:Hu; [now apply Hhere|].
    destruct (is_role r_tool m && ostr_truthy (tool_call_id m)) eqn:Ht; [now apply Hhere|].
    specialize (IH (idx - 1)%nat). cbn [length] in Hidx.
    assert (Hidx' : (idx - 1 = length rest - 1)%nat) by lia. specialize (IH Hidx').
    assert (Hm : is_input m = false) by (unfold is_input; now rewrite Hu, Ht).
    destruct (find_last_input rest (idx - 1)) as [i|].
    + destruct IH as (after & m' & before & -> & Hm' & Hafter & Hi).
      exists (m :: after), m', before. repeat split; auto.
    + now constructor.
Qed.

(** The final input is the last message that can be one. *)
Lemma last_input_index_spec (history : list ChatMessage) :
  match last_input_index history with
  | None => Forall (fun m => is_input m = false) history
  | Some i =>
      exists before m after,
        history = before ++ m :: after
        /\ is_input m = true
        /\ Forall (fun m => is_input m = false) after
        /\ i = length before
  end.
Proof.
  unfold last_input_index.
  pose proof (find_last_input_spec (rev history) (length history - 1)) as H.
  rewrite length_rev in H. specialize (H eq_refl).
  destruct (find_last_input _ _) as [i|].
  - destruct H as (after & m & before & Hrev & Hm & Hafter & Hi).
    exists (rev before), m, (rev after).
    split; [|split; [exact Hm|split]].
    + rewrite <- (rev_involutive history), Hrev, rev_app_distr. cbn [rev].
      now rewrite <- app_assoc.
    + now apply Forall_rev.
    + now rewrite length_rev.
  - rewrite <- (rev_involutive history). now apply Forall_rev.
Qed.

Section Assembler.

Variable json : Type.
Variable json_loads : pystr -> option json.
Variable json_truthy : json -> bool.
Variable empty_object : json.

Local Abbreviation message_of := (map_message json json_loads json_truthy empty_object).
Local Abbreviation entries_from := (map_entries json json_loads json_truthy empty_object).
Local Abbreviation history_to_messages :=
  (map_history_to_warp_messages json json_loads json_truthy empty_object).
Local Abbreviation packet_of := (build_packet json json_loads json_truthy empty_object).

(** The task messages of a list of history entries, in order; [None]
    when the arguments of a tool call are no JSON. *)
Fixpoint map_all (history : list ChatMessage) : option (list (warp_message json)) :=
  match history with
  | [] => Some []
  | m :: rest =>
      here ← message_of m;
      more ← map_all rest;
      Some (here ++ more)
  end.

Lemma map_all_app (a b : list ChatMessage) :
  map_all (a ++ b) = (ma ← map_all a; mb ← map_all b; Some (ma ++ mb)).
Proof.
  induction a as [|m a IH]; cbn [map_all app].
  - destruct (map_all b); reflexivity.
  - destruct (message_of m) as [here|]; [|reflexivity]. cbn. rewrite IH.
    destruct (map_all a) as [ma|]; [|reflexivity]. cbn.
    destruct (map_all b) as [mb|]; [|reflexivity]. cbn. now rewrite app_assoc.
Qed.

(** Entries are mapped one by one when the index to skip is not among
    theirs. *)
Lemma map_entries_all (history : list ChatMessage) :
  forall (last : option nat) (i : nat),
    (forall k, last = Some k -> (k < i \/ i + length history <= k)%nat) ->
    entries_from last i history = map_all history.
Proof.
  induction history as [|m rest IH]; intros last i Hout; [reflexivity|].
  cbn [map_entries map_all]. rewrite bool_decide_eq_false_2.
  - rewrite (IH last (S i)); [reflexivity|].
    intros k Hk. specialize (Hout k Hk). cbn [length] in Hout. lia.
  - intros Hk. specialize (Hout i Hk). cbn [length] in Hout. lia.
Qed.

(** The entry at the index to skip is left out, the others are mapped. *)
Lemma map_entries_skip (before : list ChatMessage) :
  forall (i : nat) (m : ChatMessage) (after : list ChatMessage),
    entries_from (Some (i + length before)%nat) i (before ++ m :: after)
    = map_all (before ++ after).
Proof.
  induction before as [|b before IH]; intros i m after.
  - cbn [app length map_entries]. rewrite Nat.add_0_r, bool_decide_eq_true_2 by reflexivity.
    apply map_entries_all. intros k [= <-]. lia.
  - cbn [app length map_entries map_all]. rewrite bool_decide_eq_false_2 by (intros [= H]; lia).
    replace (i + S (length before))%nat with (S i + length before)%nat by lia.
    now rewrite IH.
Qed.

(** The two messages that open every task context. *)
Definition preamble (server_tool_call_id : pystr) : list (warp_message json) :=
  [WServerToolCall server_tool_call_id (py "IgIQAQ==");
   WAgentOutput get_tool_restrictions_message].

(** X13.  The task context of a request is the two opening messages
    followed by the history mapped entry by entry, in order, with one
    entry left out: the last message that is a user message or a tool
    message with an id (the final input), wherever it stands in the
    history.  A history without such a message is mapped whole. *)
Theorem history_maps_all_but_final_input :
  forall (server_tool_call_id : pystr) (history : list ChatMessage),
  exists kept,
    history_to_messages server_tool_call_id history
    = (entries ← map_all kept; Some (preamble server_tool_call_id ++ entries))
    /\ ((kept = history /\ Forall (fun m => is_input m = false) history)
        \/ exists before m after,
             history = before ++ m :: after
             /\ kept = before ++ after
             /\ is_input m = true
             /\ Forall (fun m => is_input m = false) after).
Proof.
  intros sid history. unfold map_history_to_warp_messages.
  pose proof (last_input_index_spec history) as Hlast.
  destruct (last_input_index history) as [i|].
  - destruct Hlast as (before & m & after & -> & Hm & Hafter & ->).
    exists (before ++ after). split.
    + pose proof (map_entries_skip before 0 m after) as Hskip. cbn [Nat.add] in Hskip.
      rewrite Hskip. reflexivity.
    + right. exists before, m, after. auto.
  - exists history. split; [|left; auto].
    rewrite map_entries_all by (intros k [=]). reflexivity.
Qed.

Lemma is_input_last (before : list ChatMessage) (m : ChatMessage) :
  is_input m = true -> last_input_index (before ++ [m]) = Some (length before).
Proof.
  intros Hm. pose proof (last_input_index_spec (before ++ [m])) as Hlast.
  destruct (last_input_index (before ++ [m])) as [i|].
  - destruct Hlast as (before' & m' & after & Heq & Hm' & Hafter & ->).
    destruct after as [|a after _] using rev_ind.
    + apply app_inj_tail in Heq as [-> _]. reflexivity.
    + rewrite app_comm_cons, app_assoc in Heq. apply app_inj_tail in Heq as [_ ->].
      apply Forall_app in Hafter as [_ Ha]. inversion Ha as [|? ? Hx _]; subst.
      congruence.
  - apply Forall_app in Hlast as [_ Hl]. inversion Hl as [|? ? Hx _]; subst. congruence.
Qed.

(** X14.  When the normalized history of a request ends with a message
    that can be the input (a user message, or a tool message with an
    id), a packet that is built holds every message once: the task
    context is the two opening messages and the mapping of all the
    messages before the final one, and the final message is the only
    input. *)
Theorem packet_holds_history_and_final_input :
  forall (STATE : state) (req : ChatCompletionsRequest json) (p : packet json)
         (before : list ChatMessage) (m : ChatMessage),
    packet_of STATE req = Built p ->
    normalize (messages req) = before ++ [m] ->
    is_input m = true ->
    exists entries input,
      map_all before = Some entries
      /\ task_messages p = preamble (state_tool_call_id STATE) ++ entries
      /\ inputs p = [input]
      /\ attach_user_and_tools_to_inputs (@packet_template json) [m]
           (system_prompt_of (before ++ [m]))
         = Some (append_input packet_template input).
Proof.
  intros STATE req p before m Hbuilt Hnorm Hm. unfold build_packet in Hbuilt.
  destruct (messages req) as [|m0 ms]; [discriminate|]. rewrite Hnorm in Hbuilt.
  unfold map_history_to_warp_messages in Hbuilt.
  rewrite (is_input_last before m Hm) in Hbuilt.
  pose proof (map_entries_skip before 0 m []) as Hskip. cbn [Nat.add] in Hskip.
  rewrite Hskip, app_nil_r in Hbuilt.
  destruct (map_all before) as [entries|]; [|discriminate]. cbn [mbind option_bind] in Hbuilt.
  unfold attach_user_and_tools_to_inputs in *. rewrite last_snoc in Hbuilt.
  cbn [last]. unfold is_input in Hm.
  destruct (is_role r_user m) eqn:Hu.
  - injection Hbuilt as <-. exists entries. eexists.
    cbn [inputs task_messages append_input packet_template app].
    split; [reflexivity|]. split; [reflexivity|]. split; reflexivity.
  - cbn [orb] in Hm. rewrite Hm in *.
    injection Hbuilt as <-. exists entries. eexists.
    cbn [inputs task_messages append_input packet_template app].
    split; [reflexivity|]. split; [reflexivity|]. split; reflexivity.
Qed.

End Assembler.

(** A short conversation that ends with a question. *)
Definition short_chat : list ChatMessage :=
  [NormalizerProps.user_says "hi"; NormalizerProps.assistant_says "hello";
   NormalizerProps.user_says "more"].

Definition short_chat_request : ChatCompletionsRequest unit :=
  Build_ChatCompletionsRequest None short_chat false None.

Lemma packet_holds_history_and_final_input_witness :
  exists p entries input,
    build_packet unit (fun _ => Some tt) (fun _ => false) tt RouterProps.idle_state
      short_chat_request = Built p
    /\ map_all unit (fun _ => Some tt) (fun _ => false) tt
         [NormalizerProps.user_says "hi"; NormalizerProps.assistant_says "hello"]
       = Some entries
    /\ task_messages p = preamble unit (py "call") ++ entries
    /\ inputs p = [input]
    /\ attach_user_and_tools_to_inputs (@packet_template unit)
         [NormalizerProps.user_says "more"] (system_prompt_of short_chat)
       = Some (append_input packet_template input).
Proof.
  eexists.
  destruct (packet_holds_history_and_final_input unit (fun _ => Some tt) (fun _ => false) tt
              RouterProps.idle_state short_chat_request _
              [NormalizerProps.user_says "hi"; NormalizerProps.assistant_says "hello"]
              (NormalizerProps.user_says "more") eq_refl eq_refl eq_refl)
    as (entries & input & H1 & H2 & H3 & H4).
  exists entries, input. split; [reflexivity|]. auto.
Defined.

(** *** Content normalization (protobuf2openai/helpers.py) *)

Lemma normalize_item_stable (item seg : segment) :
  seg ∈ normalize_item item ->
  normalize_item seg = [seg] /\ ostr_truthy (seg_type seg) = true /\ seg_rest seg = [].
Proof.
  unfold normalize_item at 1.
  destruct item as [[ty|] [tx|] other]; cbn [seg_type seg_text].
  - destruct (str_truthy ty) eqn:Hty.
    + destruct (pystr_eqb ty t_text) eqn:Ht; intros ->%list_elem_of_singleton;
        unfold normalize_item; cbn [seg_type seg_text ostr_truthy].
      * auto.
      * now rewrite Hty, Ht.
    + intros ->%list_elem_of_singleton. auto.
  - destruct (str_truthy ty) eqn:Hty.
    + intros ->%list_elem_of_singleton.
      unfold normalize_item; cbn [seg_type seg_text ostr_truthy]. now rewrite Hty.
    + intros H. now apply elem_of_nil in H.
  - intros ->%list_elem_of_singleton. auto.
  - intros H. now apply elem_of_nil in H.
Qed.

Lemma normalize_items_stable (l : list segment) :
  (forall seg, seg ∈ l -> normalize_item seg = [seg]) ->
  flat_map normalize_item l = l.
Proof.
  induction l as [|seg l IH]; intros Hl; [reflexivity|].
  cbn [flat_map]. rewrite (Hl seg) by left. cbn [app]. f_equal.
  apply IH. intros s Hs. apply Hl. now right.
Qed.

Lemma normalized_segment (c : content_t) (seg : segment) :
  seg ∈ normalize_content_to_list c ->
  normalize_item seg = [seg] /\ ostr_truthy (seg_type seg) = true /\ seg_rest seg = [].
Proof.
  destruct c as [|s|l]; cbn [normalize_content_to_list].
  - intros H. now apply elem_of_nil in H.
  - intros ->%list_elem_of_singleton. auto.
  - intros H. apply list_elem_of_In, in_flat_map in H as (item & _ & H).
    apply list_elem_of_In in H. now apply (normalize_item_stable item).
Qed.

(** X15.  Content normalization is stable: the segments it returns are
    returned unchanged when they are normalized again, each of them has
    a non-empty type and no key but "type" and "text", and a string
    content gives back the string as its text. *)
Theorem content_normalization_is_stable :
  forall c : content_t,
    normalize_content_to_list (CList (normalize_content_to_list c))
    = normalize_content_to_list c
    /\ Forall (fun seg => ostr_truthy (seg_type seg) = true /\ seg_rest seg = [])
         (normalize_content_to_list c)
    /\ forall s, c = CStr s -> segments_to_text (normalize_content_to_list c) = s.
Proof.
  intros c. split; [|split].
  - cbn [normalize_content_to_list]. apply normalize_items_stable.
    intros seg Hseg. now apply (normalized_segment c).
  - apply Forall_forall. intros seg Hseg. now apply (normalized_segment c).
  - intros s ->. cbn. apply app_nil_r.
Qed.

End AssemblerInvariants.

(** ** The frame decoder on encoded frames
       (warp2protobuf/warp/api_client.py) *)

Module FrameRoundTrip.
Import Codecs ApiClient.

(** [bytes.hex()]: two lower-case digits a byte. *)
Definition hex_digit (v : N) : N := if v <? 10 then 48 + v else 87 + v.

Definition hex (b : bytes) : pystr :=
  flat_map (fun x => [hex_digit (x / 16); hex_digit (x mod 16)]) b.

(** The octets. *)
Definition is_bytes (b : bytes) : Prop := Forall (fun x => x < 256) b.

Lemma hex_value_digit (v : N) : v < 16 -> hex_value (hex_digit v) = Some v.
Proof.
  intros Hv. unfold hex_digit, hex_value.
  destruct (N.ltb_spec v 10) as [Hlt|Hge].
  - destruct (N.leb_spec 48 (48 + v)); [|lia].
    destruct (N.leb_spec (48 + v) 57); [|lia]. cbn [andb]. f_equal. lia.
  - destruct (N.leb_spec 48 (87 + v)); [|lia].
    destruct (N.leb_spec (87 + v) 57); [lia|]. cbn [andb].
    destruct (N.leb_spec 97 (87 + v)); [|lia].
    destruct (N.leb_spec (87 + v) 102); [|lia]. cbn [andb]. f_equal. lia.
Qed.

Lemma octet_digits (x : N) : x < 256 -> x / 16 < 16 /\ x mod 16 < 16 /\ x / 16 * 16 + x mod 16 = x.
Proof.
  intros Hx. split; [|split].
  - apply N.Div0.div_lt_upper_bound. lia.
  - apply N.mod_lt. lia.
  - rewrite N.mul_comm. symmetry. apply N.div_mod. lia.
Qed.

Lemma fromhex_hex (b : bytes) : is_bytes b -> fromhex (hex b) = Some b.
Proof.
  induction 1 as [|x b Hx _ IH]; [reflexivity|].
  destruct (octet_digits x Hx) as (Hhi & Hlo & Heq).
  change (hex (x :: b)) with (hex_digit (x / 16) :: hex_digit (x mod 16) :: hex b).
  cbn [fromhex]. rewrite (hex_value_digit _ Hhi), (hex_value_digit _ Hlo), IH.
  cbn [mbind option_bind]. now rewrite Heq.
Qed.

Lemma hex_all_hex (b : bytes) :
  is_bytes b -> forallb (fun c => bool_decide (is_Some (hex_value c))) (hex b) = true.
Proof.
  induction 1 as [|x b Hx _ IH]; [reflexivity|].
  destruct (octet_digits x Hx) as (Hhi & Hlo & _).
  change (hex (x :: b)) with (hex_digit (x / 16) :: hex_digit (x mod 16) :: hex b).
  cbn [forallb]. rewrite (hex_value_digit _ Hhi), (hex_value_digit _ Hlo), IH.
  reflexivity.
Qed.

(** The printable ASCII characters are no whitespace. *)
Lemma printable_no_space (c : N) : 33 <= c < 133 -> py_isspace c = false.
Proof.
  intros Hc. unfold py_isspace.
  rewrite (proj2 (N.leb_gt c 13)), (proj2 (N.leb_gt c 32)),
    (proj2 (N.leb_gt 8192 c)) by lia.
  rewrite (proj2 (N.eqb_neq c 133)), (proj2 (N.eqb_neq c 160)),
    (proj2 (N.eqb_neq c 5760)), (proj2 (N.eqb_neq c 8232)),
    (proj2 (N.eqb_neq c 8233)), (proj2 (N.eqb_neq c 8239)),
    (proj2 (N.eqb_neq c 8287)), (proj2 (N.eqb_neq c 12288)) by lia.
  now rewrite !andb_false_r.
Qed.

(** A hex digit is no whitespace and no bracket. *)
Lemma hex_char (c : N) :
  is_Some (hex_value c) -> py_isspace c = false /\ c <> 91.
Proof.
  unfold hex_value. intros [v Hv].
  assert (Hc : 48 <= c <= 57 \/ 97 <= c <= 102 \/ 65 <= c <= 70).
  { destruct (N.leb_spec 48 c), (N.leb_spec c 57), (N.leb_spec 97 c),
      (N.leb_spec c 102), (N.leb_spec 65 c), (N.leb_spec c 70);
      cbn [andb] in Hv; try discriminate; lia. }
  split; [apply printable_no_space|]; lia.
Qed.

Lemma lstrip_no_space (s : pystr) :
  Forall (fun c => py_isspace c = false) s -> lstrip s = s.
Proof. intros [|c r Hc _]; [reflexivity|]. cbn [lstrip]. now rewrite Hc. Qed.

Lemma strip_no_space (s : pystr) :
  Forall (fun c => py_isspace c = false) s -> strip s = s.
Proof.
  intros Hs. unfold strip. rewrite (lstrip_no_space s Hs).
  rewrite lstrip_no_space by now apply Forall_rev. apply rev_involutive.
Qed.

Lemma remove_whitespace_no_space (s : pystr) :
  Forall (fun c => py_isspace c = false) s -> remove_whitespace s = s.
Proof.
  unfold remove_whitespace. induction 1 as [|c r Hc _ IH]; [reflexivity|].
  rewrite filter_cons, IH. destruct (decide _) as [_|Hn]; [reflexivity|].
  rewrite Hc in Hn. now destruct Hn.
Qed.

Lemma hex_no_space (b : bytes) :
  is_bytes b -> Forall (fun c => py_isspace c = false) (hex b).
Proof.
  intros Hb. pose proof (hex_all_hex b Hb) as Hall.
  apply Forall_forall. intros c Hc.
  rewrite forallb_forall in Hall. apply list_elem_of_In in Hc.
  specialize (Hall c Hc). apply bool_decide_eq_true in Hall. now apply hex_char.
Qed.

Lemma hex_truthy (b : bytes) : b <> [] -> str_truthy (hex b) = true.
Proof. destruct b; [congruence|reflexivity]. Qed.

(** X16.  A frame written as hex text is decoded to its bytes, however
    the text is broken by whitespace. *)
Theorem hex_payload_round_trip :
  forall (b : bytes) (data_str : pystr),
    is_bytes b -> b <> [] ->
    remove_whitespace data_str = hex b ->
    _decode_payload_bytes data_str = Some b.
Proof.
  intros b data_str Hb Hne Hs. unfold _decode_payload_bytes. cbv zeta. rewrite Hs.
  unfold is_hex. rewrite (hex_truthy b Hne), (hex_all_hex b Hb), (fromhex_hex b Hb).
  reflexivity.
Qed.

Lemma hex_payload_round_trip_witness :
  _decode_payload_bytes (py "0a 1f" ++ [10] ++ py "ff") = Some [10; 31; 255].
Proof.
  apply (hex_payload_round_trip [10; 31; 255]).
  - repeat constructor.
  - discriminate.
  - vm_compute. reflexivity.
Defined.

(** The lines of a stream that sends each frame as hex text: a [data:]
    line, then the blank line that ends the record. *)
Definition record_lines (b : bytes) : list pystr := [data_prefix ++ hex b; []].

Definition done_line : pystr := Eval vm_compute in py "data: [DONE]".

Lemma data_line (payload buffer : pystr) (rest : list pystr) :
  Forall (fun c => py_isspace c = false) payload ->
  str_truthy payload = true ->
  hd 0 payload <> 91 ->
  frames_of_lines ((data_prefix ++ payload) :: rest) buffer
  = frames_of_lines rest (buffer ++ payload).
Proof.
  intros Hs Ht Hhd. cbn [frames_of_lines].
  change (starts_with data_prefix (data_prefix ++ payload)) with true. cbv iota.
  change (drop 5 (data_prefix ++ payload)) with payload.
  rewrite (strip_no_space payload Hs), Ht. cbn [negb].
  unfold pystr_eqb. rewrite bool_decide_eq_false_2; [reflexivity|].
  intros ->. now apply Hhd.
Qed.

(** X17.  A stream of records that each hold one frame as hex text,
    ended by [data: [DONE]], gives back exactly the frames, in order;
    nothing after [data: [DONE]] is read. *)
Theorem hex_stream_round_trip :
  forall (frames : list bytes) (after : list pystr),
    Forall (fun b => is_bytes b /\ b <> []) frames ->
    frames_of_lines (flat_map record_lines frames ++ done_line :: after) [] = frames.
Proof.
  intros frames after. induction 1 as [|b frames [Hb Hne] _ IH]; [reflexivity|].
  cbn [flat_map record_lines app].
  rewrite data_line.
  - cbn [app frames_of_lines].
    change (starts_with data_prefix []) with false. cbv iota.
    change (strip []) with (@nil N). rewrite (hex_truthy b Hne). cbn [str_truthy negb andb].
    rewrite (hex_payload_round_trip b (hex b) Hb Hne), IH; [reflexivity|].
    apply remove_whitespace_no_space. now apply hex_no_space.
  - now apply hex_no_space.
  - now apply hex_truthy.
  - destruct b as [|x b]; [congruence|]. inversion Hb as [|? ? Hx _]; subst.
    destruct (octet_digits x Hx) as (Hhi & _ & _). cbn [hex flat_map app hd].
    assert (Hsome : is_Some (hex_value (hex_digit (x / 16))))
      by (rewrite (hex_value_digit _ Hhi); eauto).
    now apply hex_char in Hsome.
Qed.

Lemma hex_stream_round_trip_witness :
  frames_of_lines
    (flat_map record_lines [[10; 31]; [255]] ++ done_line :: [py "data: 00"; []]) []
  = [[10; 31]; [255]].
Proof.
  apply (hex_stream_round_trip [[10; 31]; [255]] [py "data: 00"; []]).
  repeat constructor; discriminate.
Defined.

(** *** Base64 *)

(** The characters of the two alphabets of RFC 4648, as
    [base64.b64encode] and [base64.urlsafe_b64encode] write them. *)
Definition b64_char (urlsafe : bool) (v : N) : N :=
  if v <? 26 then 65 + v
  else if v <? 52 then 71 + v
  else if v <? 62 then v - 4
  else if v =? 62 then (if urlsafe then 45 else 43)
  else (if urlsafe then 95 else 47).

(** The encoding of a byte string, with its padding or without. *)
Fixpoint b64encode (urlsafe padding : bool) (b : bytes) : pystr :=
  match b with
  | [] => []
  | [x] =>
      [b64_char urlsafe (x / 4); b64_char urlsafe (x mod 4 * 16)]
      ++ (if padding then [61; 61] else [])
  | [x; y] =>
      [b64_char urlsafe (x / 4); b64_char urlsafe (x mod 4 * 16 + y / 16);
       b64_char urlsafe (y mod 16 * 4)]
      ++ (if padding then [61] else [])
  | x :: y :: z :: rest =>
      b64_char urlsafe (x / 4) :: b64_char urlsafe (x mod 4 * 16 + y / 16)
      :: b64_char urlsafe (y mod 16 * 4 + z / 64) :: b64_char urlsafe (z mod 64)
      :: b64encode urlsafe padding rest
  end.

(** Induction three bytes at a time. *)
Lemma triples_ind (P : bytes -> Prop) :
  P [] -> (forall x, P [x]) -> (forall x y, P [x; y]) ->
  (forall x y z rest, P rest -> P (x :: y :: z :: rest)) ->
  forall b, P b.
Proof.
  intros H0 H1 H2 H3 b.
  enough (H : P b /\ (forall x, P (x :: b)) /\ forall x y, P (x :: y :: b)) by tauto.
  induction b as [|z b (Hb & Hb1 & Hb2)]; [auto|].
  split; [apply Hb1|]. split; [intros x; apply Hb2|]. intros x y. now apply H3.
Qed.

Ltac euclid := zify; Z.to_euclidean_division_equations; lia.

Lemma sextets (x y z : N) :
  x < 256 -> y < 256 -> z < 256 ->
  x / 4 < 64 /\ x mod 4 * 16 + y / 16 < 64 /\ y mod 16 * 4 + z / 64 < 64 /\ z mod 64 < 64
  /\ x mod 4 * 16 < 64 /\ y mod 16 * 4 < 64.
Proof. intros Hx Hy Hz. repeat split; euclid. Qed.

Lemma octets (x y z : N) :
  x < 256 -> y < 256 -> z < 256 ->
  x / 4 * 4 + (x mod 4 * 16 + y / 16) / 16 = x
  /\ (x mod 4 * 16 + y / 16) mod 16 * 16 + (y mod 16 * 4 + z / 64) / 4 = y
  /\ (y mod 16 * 4 + z / 64) mod 4 * 64 + z mod 64 = z
  /\ x / 4 * 4 + (x mod 4 * 16) / 16 = x
  /\ (x mod 4 * 16 + y / 16) mod 16 * 16 + (y mod 16 * 4) / 4 = y.
Proof. intros Hx Hy Hz. repeat split; euclid. Qed.

Lemma b64_char_cases (urlsafe : bool) (v : N) :
  v < 64 ->
  (65 <= b64_char urlsafe v <= 90 /\ b64_char urlsafe v = 65 + v)
  \/ (97 <= b64_char urlsafe v <= 122 /\ b64_char urlsafe v = 71 + v)
  \/ (48 <= b64_char urlsafe v <= 57 /\ b64_char urlsafe v + 4 = v)
  \/ (v = 62 /\ b64_char urlsafe v = if urlsafe then 45 else 43)
  \/ (v = 63 /\ b64_char urlsafe v = if urlsafe then 95 else 47).
Proof.
  intros Hv. unfold b64_char.
  destruct (N.ltb_spec v 26); [left; lia|].
  destruct (N.ltb_spec v 52); [right; left; lia|].
  destruct (N.ltb_spec v 62); [right; right; left; lia|].
  destruct (N.eqb_spec v 62); [right; right; right; left; auto|].
  right; right; right; right. split; [lia|reflexivity].
Qed.

(** The translation [urlsafe_b64decode] applies before it decodes. *)
Definition to_standard (c : N) : N := if c =? 45 then 43 else if c =? 95 then 47 else c.

Lemma to_standard_char (urlsafe : bool) (v : N) :
  v < 64 -> to_standard (b64_char urlsafe v) = b64_char false v.
Proof.
  intros Hv. unfold to_standard, b64_char.
  destruct (N.ltb_spec v 26).
  { destruct (N.eqb_spec (65 + v) 45); [lia|].
    destruct (N.eqb_spec (65 + v) 95); [lia|reflexivity]. }
  destruct (N.ltb_spec v 52).
  { destruct (N.eqb_spec (71 + v) 45); [lia|].
    destruct (N.eqb_spec (71 + v) 95); [lia|reflexivity]. }
  destruct (N.ltb_spec v 62).
  { destruct (N.eqb_spec (v - 4) 45); [lia|].
    destruct (N.eqb_spec (v - 4) 95); [lia|reflexivity]. }
  destruct (N.eqb_spec v 62); destruct urlsafe; reflexivity.
Qed.

Lemma b64_value_char (v : N) :
  v < 64 -> b64_value (b64_char false v) = Some v /\ (b64_char false v =? 61) = false.
Proof.
  intros Hv. unfold b64_value.
  destruct (b64_char_cases false v Hv) as [[Hr He]|[[Hr He]|[[Hr He]|[[-> He]|[-> He]]]]].
  - destruct (N.leb_spec 65 (b64_char false v)); [|lia].
    destruct (N.leb_spec (b64_char false v) 90); [|lia]. cbn [andb].
    split; [f_equal; lia|apply N.eqb_neq; lia].
  - destruct (N.leb_spec 65 (b64_char false v)); [|lia].
    destruct (N.leb_spec (b64_char false v) 90); [lia|]. cbn [andb].
    destruct (N.leb_spec 97 (b64_char false v)); [|lia].
    destruct (N.leb_spec (b64_char false v) 122); [|lia]. cbn [andb].
    split; [f_equal; lia|apply N.eqb_neq; lia].
  - destruct (N.leb_spec 65 (b64_char false v)); [lia|]. cbn [andb].
    destruct (N.leb_spec 97 (b64_char false v)); [lia|]. cbn [andb].
    destruct (N.leb_spec 48 (b64_char false v)); [|lia].
    destruct (N.leb_spec (b64_char false v) 57); [|lia]. cbn [andb].
    split; [f_equal; lia|apply N.eqb_neq; lia].
  - rewrite He. split; reflexivity.
  - rewrite He. split; reflexivity.
Qed.

Lemma b64_char_ascii (urlsafe : bool) (v : N) :
  v < 64 -> 33 <= b64_char urlsafe v < 128.
Proof.
  intros Hv.
  destruct (b64_char_cases urlsafe v Hv) as [[Hr He]|[[Hr He]|[[Hr He]|[[-> He]|[-> He]]]]];
    try lia; rewrite He; destruct urlsafe; lia.
Qed.

(** One more character for the decoder, in each position of a quad. *)
Lemma a2b_char (v : N) (rest : list N) (quad_pos : nat) (leftchar : N) (pads : nat)
  (out : bytes) :
  v < 64 ->
  a2b_base64 (b64_char false v :: rest) quad_pos leftchar pads out
  = match quad_pos with
    | 0%nat => a2b_base64 rest 1 v 0 out
    | 1%nat => a2b_base64 rest 2 (v mod 16) 0 (out ++ [leftchar * 4 + v / 16])
    | 2%nat => a2b_base64 rest 3 (v mod 4) 0 (out ++ [leftchar * 16 + v / 4])
    | _ => a2b_base64 rest 0 0 0 (out ++ [leftchar * 64 + v])
    end.
Proof.
  intros Hv. destruct (b64_value_char v Hv) as [Hval Hpad].
  cbn [a2b_base64]. now rewrite Hpad, Hval.
Qed.

(** The decoder inverts the standard padded encoding. *)
Lemma a2b_base64_encode (b : bytes) :
  is_bytes b -> forall out, a2b_base64 (b64encode false true b) 0 0 0 out = Some (out ++ b).
Proof.
  induction b as [|x|x y|x y z rest IH] using triples_ind; intros Hb out.
  - cbn. now rewrite app_nil_r.
  - inversion Hb as [|? ? Hx _]; subst.
    destruct (sextets x 0 0) as (S1 & _ & _ & _ & S5 & _); [lia..|].
    destruct (octets x 0 0) as (_ & _ & _ & O4 & _); [lia..|].
    cbn [b64encode app]. rewrite !a2b_char by assumption.
    cbn [a2b_base64 N.eqb Pos.eqb Nat.leb Nat.add]. now rewrite O4.
  - inversion Hb as [|? ? Hx Hb']; subst. inversion Hb' as [|? ? Hy _]; subst.
    destruct (sextets x y 0) as (S1 & S2 & _ & _ & _ & S6); [lia..|].
    destruct (octets x y 0) as (O1 & _ & _ & _ & O5); [lia..|].
    cbn [b64encode app]. rewrite !a2b_char by assumption.
    cbn [a2b_base64 N.eqb Pos.eqb Nat.leb Nat.add]. rewrite O1, O5.
    now rewrite <- app_assoc.
  - inversion Hb as [|? ? Hx Hb']; subst. inversion Hb' as [|? ? Hy Hb'']; subst.
    inversion Hb'' as [|? ? Hz Hrest]; subst.
    destruct (sextets x y z) as (S1 & S2 & S3 & S4 & _ & _); [assumption..|].
    destruct (octets x y z) as (O1 & O2 & O3 & _ & _); [assumption..|].
    cbn [b64encode]. rewrite !a2b_char by assumption. rewrite O1, O2, O3, (IH Hrest).
    now rewrite <- !app_assoc.
Qed.

Lemma pad_quad (a b c d : N) (s : pystr) : pad (a :: b :: c :: d :: s) = pad s.
Proof.
  unfold pad. cbn [length].
  replace (S (S (S (S (length s))))) with (length s + 1 * 4)%nat by lia.
  now rewrite Nat.Div0.mod_add.
Qed.

(** The padding the decoder adds makes up for the padding the encoder
    left out, and the translation leads to the standard alphabet. *)
Lemma repaired (urlsafe padding : bool) (b : bytes) :
  is_bytes b ->
  map to_standard (b64encode urlsafe padding b ++ pad (b64encode urlsafe padding b))
  = b64encode false true b.
Proof.
  induction b as [|x|x y|x y z rest IH] using triples_ind; intros Hb.
  - reflexivity.
  - inversion Hb as [|? ? Hx _]; subst.
    destruct (sextets x 0 0) as (S1 & _ & _ & _ & S5 & _); [lia..|].
    cbn [b64encode]. destruct padding; cbn [app pad length map];
      rewrite !to_standard_char by assumption; reflexivity.
  - inversion Hb as [|? ? Hx Hb']; subst. inversion Hb' as [|? ? Hy _]; subst.
    destruct (sextets x y 0) as (S1 & S2 & _ & _ & _ & S6); [lia..|].
    cbn [b64encode]. destruct padding; cbn [app pad length map];
      rewrite !to_standard_char by assumption; reflexivity.
  - inversion Hb as [|? ? Hx Hb']; subst. inversion Hb' as [|? ? Hy Hb'']; subst.
    inversion Hb'' as [|? ? Hz Hrest]; subst.
    destruct (sextets x y z) as (S1 & S2 & S3 & S4 & _ & _); [assumption..|].
    cbn [b64encode]. rewrite pad_quad. cbn [app map].
    rewrite !to_standard_char by assumption. now rewrite (IH Hrest).
Qed.

Lemma b64encode_ascii (urlsafe padding : bool) (b : bytes) :
  is_bytes b -> Forall (fun c => 33 <= c < 128) (b64encode urlsafe padding b).
Proof.
  induction b as [|x|x y|x y z rest IH] using triples_ind; intros Hb.
  - constructor.
  - inversion Hb as [|? ? Hx _]; subst.
    destruct (sextets x 0 0) as (S1 & _ & _ & _ & S5 & _); [lia..|].
    cbn [b64encode app]. repeat (constructor; [now apply b64_char_ascii|]).
    destruct padding; repeat constructor; lia.
  - inversion Hb as [|? ? Hx Hb']; subst. inversion Hb' as [|? ? Hy _]; subst.
    destruct (sextets x y 0) as (S1 & S2 & _ & _ & _ & S6); [lia..|].
    cbn [b64encode app]. repeat (constructor; [now apply b64_char_ascii|]).
    destruct padding; repeat constructor; lia.
  - inversion Hb as [|? ? Hx Hb']; subst. inversion Hb' as [|? ? Hy Hb'']; subst.
    inversion Hb'' as [|? ? Hz Hrest]; subst.
    destruct (sextets x y z) as (S1 & S2 & S3 & S4 & _ & _); [assumption..|].
    cbn [b64encode]. repeat (constructor; [now apply b64_char_ascii|]). now apply IH.
Qed.

Lemma pad_ascii (s : pystr) : Forall (fun c => 33 <= c < 128) (pad s).
Proof.
  unfold pad. apply Forall_forall. intros c Hc. apply list_elem_of_In in Hc.
  apply repeat_spec in Hc. lia.
Qed.

Lemma is_ascii_forall (s : pystr) : Forall (fun c => 33 <= c < 128) s -> is_ascii s = true.
Proof.
  intros Hs. unfold is_ascii. apply forallb_forall. intros c Hc.
  apply list_elem_of_In in Hc. rewrite Forall_forall in Hs. specialize (Hs c Hc).
  apply N.ltb_lt. lia.
Qed.

(** X18.  A frame written as base64 text, in the standard or in the
    URL-safe alphabet, with its padding or without, is decoded to its
    bytes however the text is broken by whitespace, unless the text
    reads as an even number of hex digits (it is then hex-decoded). *)
Theorem base64_payload_round_trip :
  forall (urlsafe padding : bool) (b : bytes) (data_str : pystr),
    is_bytes b -> b <> [] ->
    remove_whitespace data_str = b64encode urlsafe padding b ->
    is_hex (b64encode urlsafe padding b)
    && Nat.even (length (b64encode urlsafe padding b)) = false ->
    _decode_payload_bytes data_str = Some b.
Proof.
  intros urlsafe padding b data_str Hb Hne Hs Hhex.
  unfold _decode_payload_bytes. cbv zeta. rewrite Hs.
  set (s := b64encode urlsafe padding b) in *.
  assert (Ht : str_truthy s = true).
  { subst s. destruct b as [|x [|y [|z rest]]]; [congruence|reflexivity..]. }
  rewrite Ht. cbn [negb].
  assert (Hdec : decode_base64 s = Some b).
  { unfold decode_base64, urlsafe_b64decode.
    rewrite is_ascii_forall
      by (apply Forall_app; split; [now apply b64encode_ascii|apply pad_ascii]).
    change (fun c : N => if c =? 45 then 43 else if c =? 95 then 47 else c) with to_standard.
    subst s. now rewrite (repaired urlsafe padding b Hb), (a2b_base64_encode b Hb []). }
  destruct (is_hex s) eqn:Hx; [|exact Hdec].
  unfold is_hex in Hx. rewrite Ht in Hx. cbn [andb] in Hx, Hhex.
  rewrite (ApiClientProps.fromhex_pairs (length s) s (le_n _) Hx), Hhex. exact Hdec.
Qed.

Lemma base64_payload_round_trip_witness :
  _decode_payload_bytes (py "Cg_-") = Some [10; 15; 254]
  /\ _decode_payload_bytes (py "ab cd") = Some [171; 205].
Proof.
  split; [|reflexivity].
  apply (base64_payload_round_trip true false [10; 15; 254]).
  - repeat constructor.
  - discriminate.
  - reflexivity.
  - reflexivity.
Defined.

End FrameRoundTrip.

(** ** The token pool on any pool (warp_token_pool.py) *)

Module TokenPoolInvariants.
Import TokenPool.

Section Pool.

Variable jwt_exp : pystr -> option Z.
Variable now : Z.

Local Abbreviation usable_now := (usable jwt_exp now).
Local Abbreviation find_valid := (_find_valid_token jwt_exp now).

(** The tokens [_find_valid_token(exclude_token)] may return. *)
Definition eligible (exclude_token : option pystr) (t : TokenInfo) : bool :=
  negb (ostr_truthy exclude_token && bool_decide (Some (token t) = exclude_token))
  && usable_now t.

(** What the broker's answer is worth to [_get_emergency_token]. *)
Definition emergency_token (emergency : option pystr) : option pystr :=
  match emergency with
  | Some tok => if str_truthy tok then Some tok else None
  | None => None
  end.

Lemma find_valid_spec (exclude_token : option pystr) (ts : list TokenInfo) :
  forall i,
    match find_valid exclude_token ts i with
    | Some k =>
        exists pre t post,
          ts = pre ++ t :: post
          /\ k = (i + length pre)%nat
          /\ filter (fun t => eligible exclude_token t) pre = []
          /\ eligible exclude_token t = true
    | None => filter (fun t => eligible exclude_token t) ts = []
    end.
Proof.
  induction ts as [|t ts IH]; intros i; cbn [_find_valid_token]; [reflexivity|].
  assert (Hskip : eligible exclude_token t = false ->
                  match find_valid exclude_token ts (S i) with
                  | Some k =>
                      exists pre t' post,
                        t :: ts = pre ++ t' :: post
                        /\ k = (i + length pre)%nat
                        /\ filter (fun t => eligible exclude_token t) pre = []
                        /\ eligible exclude_token t' = true
                  | None => filter (fun t => eligible exclude_token t) (t :: ts) = []
                  end).
  { intros Hne. specialize (IH (S i)).
    destruct (find_valid exclude_token ts (S i)) as [k|].
    - destruct IH as (pre & t' & post & -> & -> & Hpre & Ht').
      exists (t :: pre), t', post. cbn [app length]. split; [reflexivity|].
      split; [lia|]. split; [|exact Ht'].
      rewrite filter_cons, decide_False by (rewrite Hne; auto). exact Hpre.
    - rewrite filter_cons, decide_False by (rewrite Hne; auto). exact IH. }
  unfold eligible in Hskip at 1.
  destruct (ostr_truthy exclude_token && bool_decide (Some (token t) = exclude_token)) eqn:Hex;
    [now apply Hskip|].
  cbn [negb andb] in Hskip. destruct (usable_now t) eqn:Hu; [|now apply Hskip].
  exists [], t, ts. cbn [app length filter]. split; [reflexivity|]. split; [lia|].
  split; [reflexivity|]. unfold eligible. now rewrite Hex, Hu.
Qed.

Lemma filter_first (f : TokenInfo -> bool) (pre post : list TokenInfo) (t : TokenInfo) :
  filter (fun t => f t) pre = [] -> f t = true ->
  filter (fun t => f t) (pre ++ t :: post) = t :: filter (fun t => f t) post.
Proof.
  intros Hpre Ht. rewrite filter_app, Hpre, filter_cons, decide_True by (rewrite Ht; auto).
  reflexivity.
Qed.

Lemma touched_token (pre post : list TokenInfo) (t : TokenInfo) :
  token <$> (alter (touch now) (length pre) (pre ++ t :: post) !! length pre)
  = Some (token t)
  /\ map token (alter (touch now) (length pre) (pre ++ t :: post))
     = map token (pre ++ t :: post).
Proof.
  split.
  - rewrite list_lookup_alter, decide_True by reflexivity.
    rewrite list_lookup_middle by reflexivity. reflexivity.
  - rewrite <- (Nat.add_0_r (length pre)), alter_app_r. cbn [alter list_alter].
    now rewrite !map_app.
Qed.

Lemma emergency_spec (emergency : option pystr) (p : pool) :
  snd (_get_emergency_token now emergency p) = emergency_token emergency
  /\ map token (tokens (fst (_get_emergency_token now emergency p)))
     = map token (tokens p)
       ++ match emergency_token emergency with Some tok => [tok] | None => [] end.
Proof.
  unfold _get_emergency_token, emergency_token.
  destruct emergency as [tok|]; [destruct (str_truthy tok)|];
    cbn [fst snd tokens count_created set_stats set_tokens];
    rewrite ?map_app, ?app_nil_r; auto.
Qed.

(** X19.  [get_valid_token] hands out the first token of the pool that
    is valid and not expired; only a pool without one asks the broker,
    and fails when the broker gives nothing.  The pool keeps all its
    tokens in order and gains the broker's token when it used it. *)
Theorem pool_hands_out_first_usable_token :
  forall (emergency : option pystr) (p : pool),
    let served :=
      match filter (fun t => usable_now t) (tokens p) with
      | t :: _ => Some (token t)
      | [] => emergency_token emergency
      end in
    snd (get_valid_token jwt_exp now emergency p) = served
    /\ map token (tokens (fst (get_valid_token jwt_exp now emergency p)))
       = map token (tokens p)
         ++ match filter (fun t => usable_now t) (tokens p), served with
            | [], Some tok => [tok]
            | _, _ => []
            end.
Proof.
  intros emergency p. cbv zeta. unfold get_valid_token.
  cbn [tokens set_stats set_tokens stats].
  pose proof (find_valid_spec None (tokens p) 0) as Hfind.
  assert (Hel : forall ts : list TokenInfo,
             filter (fun t => eligible None t) ts = filter (fun t => usable_now t) ts)
    by reflexivity.
  destruct (find_valid None (tokens p) 0) as [k|].
  - destruct Hfind as (pre & t & post & Hts & -> & Hpre & Ht).
    rewrite Hts, <- Hel, (filter_first _ pre post t Hpre Ht). cbn [Nat.add fst snd tokens
      schedule_health_check set_tokens].
    destruct (touched_token pre post t) as [Hlook Hmap].
    rewrite Hlook, Hmap, app_nil_r. auto.
  - rewrite <- Hel, Hfind.
    destruct (emergency_spec emergency
                (set_stats p
                   {| total_requests := S (total_requests (stats p));
                      successful_switches := successful_switches (stats p);
                      tokens_created := tokens_created (stats p);
                      rate_limit_hits := rate_limit_hits (stats p) |}))
      as [Hres Hmap].
    destruct (_get_emergency_token now emergency _) as [p' tok].
    cbn [fst snd tokens schedule_health_check set_stats] in *. subst tok.
    split; [reflexivity|]. rewrite Hmap. now destruct (emergency_token emergency).
Qed.

(** Marking the failed token touches no token another request may get. *)
Lemma mark_rate_limited_spec (failed_token : pystr) (ts : list TokenInfo) :
  str_truthy failed_token = true ->
  filter (fun t => eligible (Some failed_token) t) (mark_rate_limited failed_token ts)
  = filter (fun t => eligible (Some failed_token) t) ts
  /\ map token (mark_rate_limited failed_token ts) = map token ts.
Proof.
  intros Hf. induction ts as [|t ts [IH1 IH2]]; [auto|]. cbn [mark_rate_limited].
  destruct (bool_decide (token t = failed_token)) eqn:Ht.
  - apply bool_decide_eq_true in Ht. split; [|reflexivity].
    rewrite !filter_cons.
    rewrite !decide_False; [reflexivity| |];
      unfold eligible; cbn [token ostr_truthy]; rewrite Ht, Hf;
      rewrite bool_decide_eq_true_2 by reflexivity; cbn; auto.
  - rewrite !filter_cons, IH1. cbn [map]. rewrite IH2. auto.
Qed.

(** X20.  After a 429 the pool answers with the first valid, unexpired
    token other than the failed one; without one it answers with what
    the broker gives.  The failed token is never handed out again from
    the pool by this call, and the pool keeps all its tokens in order. *)
Theorem rate_limited_token_is_not_reused :
  forall (failed_token : pystr) (emergency : option pystr) (p : pool),
    str_truthy failed_token = true ->
    let backups :=
      filter (fun t => eligible (Some failed_token) t) (tokens p) in
    snd (handle_rate_limit jwt_exp now failed_token emergency p)
    = match backups with
      | t :: _ => Some (token t)
      | [] => emergency_token emergency
      end
    /\ Forall (fun t => token t <> failed_token /\ status t = VALID
                        /\ is_expired jwt_exp t now = false) backups
    /\ map token (tokens (fst (handle_rate_limit jwt_exp now failed_token emergency p)))
       = map token (tokens p)
         ++ match backups, emergency_token emergency with
            | [], Some tok => [tok]
            | _, _ => []
            end
    /\ rate_limit_hits (stats (fst (handle_rate_limit jwt_exp now failed_token emergency p)))
       = S (rate_limit_hits (stats p)).
Proof.
  intros failed_token emergency p Hf. cbv zeta. unfold handle_rate_limit.
  cbn [tokens set_stats set_tokens stats].
  destruct (mark_rate_limited_spec failed_token (tokens p) Hf) as [Hsame Hmark].
  pose proof (find_valid_spec (Some failed_token)
                (mark_rate_limited failed_token (tokens p)) 0) as Hfind.
  rewrite <- Hsame, <- Hmark.
  set (ts := mark_rate_limited failed_token (tokens p)) in *.
  assert (Hback : Forall (fun t => token t <> failed_token /\ status t = VALID
                                   /\ is_expired jwt_exp t now = false)
                    (filter (fun t => eligible (Some failed_token) t) ts)).
  { apply Forall_forall. intros t Ht. apply list_elem_of_filter in Ht as [Ht _].
    apply Is_true_true in Ht. unfold eligible, usable in Ht.
    apply andb_prop in Ht as [Hex Hu]. apply andb_prop in Hu as [Hv He].
    cbn [ostr_truthy] in Hex. rewrite Hf in Hex. cbn [andb] in Hex.
    apply negb_true_iff, bool_decide_eq_false in Hex.
    apply bool_decide_eq_true in Hv. apply negb_true_iff in He.
    split; [congruence|auto]. }
  destruct (find_valid (Some failed_token) ts 0) as [k|].
  - destruct Hfind as (pre & t & post & Hts & -> & Hpre & Ht).
    rewrite Hts in *. rewrite (filter_first _ pre post t Hpre Ht) in *.
    cbn [Nat.add fst snd tokens stats schedule_health_check set_tokens set_stats
           rate_limit_hits].
    destruct (touched_token pre post t) as [Hlook Hmap].
    rewrite Hlook, Hmap, app_nil_r. auto.
  - rewrite Hfind in *.
    destruct (emergency_spec emergency
                (set_tokens
                   (set_stats p
                      {| total_requests := total_requests (stats p);
                         successful_switches := successful_switches (stats p);
                         tokens_created := tokens_created (stats p);
                         rate_limit_hits := S (rate_limit_hits (stats p)) |}) ts))
      as [Hres Hmap].
    unfold _get_emergency_token in *.
    destruct emergency as [tok|]; [destruct (str_truthy tok)|];
      cbn [fst snd tokens stats schedule_health_check set_stats set_tokens count_created
             rate_limit_hits emergency_token] in *; auto.
Qed.

(** The tokens of a pool whose status is [VALID]. *)
Definition valid_count (p : pool) : nat :=
  length (filter (fun t => bool_decide (status t = VALID)) (tokens p)).

(** The acquisitions that gave a token. *)
Definition acquired (results : list (option pystr)) : nat :=
  length (filter (fun r : option pystr => bool_decide (is_Some r)) results).

Lemma valid_count_add (p : pool) (tok : pystr) :
  valid_count (count_created (set_tokens p (tokens p ++ [fresh_token tok now 0 0])))
  = S (valid_count p).
Proof.
  unfold valid_count. cbn [tokens count_created set_stats set_tokens].
  rewrite filter_app, length_app, filter_cons, decide_True
    by (apply Is_true_true, bool_decide_eq_true; reflexivity).
  cbn. lia.
Qed.

Lemma fill_step (results : list (option pystr)) :
  forall p,
    let p' := fold_left (fun p r =>
                           match r with
                           | Some tok =>
                               count_created
                                 (set_tokens p (tokens p ++ [fresh_token tok now 0 0]))
                           | None => p
                           end) results p in
    valid_count p' = (valid_count p + acquired results)%nat
    /\ tokens_created (stats p') = (tokens_created (stats p) + acquired results)%nat
    /\ pool_size p' = pool_size p
    /\ exists new, tokens p' = tokens p ++ new /\ length new = acquired results.
Proof.
  induction results as [|r results IH]; intros p; cbv zeta; cbn [fold_left].
  - unfold acquired. cbn. rewrite !Nat.add_0_r. repeat split; auto.
    exists []. now rewrite app_nil_r.
  - destruct r as [tok|].
    + specialize (IH (count_created (set_tokens p (tokens p ++ [fresh_token tok now 0 0])))).
      cbv zeta in IH. destruct IH as (Hv & Hc & Hs & new & Hnew & Hlen).
      rewrite Hv, Hc, Hs, Hnew. unfold acquired in *. rewrite filter_cons.
      rewrite decide_True by (apply Is_true_true, bool_decide_eq_true; eauto).
      rewrite (valid_count_add p tok).
      cbn [tokens stats pool_size count_created set_stats set_tokens tokens_created length].
      split; [lia|]. split; [lia|]. split; [reflexivity|].
      exists (fresh_token tok now 0 0 :: new). rewrite <- app_assoc.
      split; [reflexivity|]. cbn [length]. lia.
    + specialize (IH p). cbv zeta in IH. destruct IH as (Hv & Hc & Hs & new & Hnew & Hlen).
      unfold acquired in *. rewrite filter_cons.
      rewrite decide_False by (intros H; apply Is_true_true, bool_decide_eq_true in H;
                               destruct H; discriminate).
      repeat split; auto. exists new. auto.
Qed.

Lemma acquired_le (results : list (option pystr)) : (acquired results <= length results)%nat.
Proof. apply length_filter. Qed.

Lemma acquired_all (results : list (option pystr)) :
  Forall is_Some results ->
  filter (fun r : option pystr => bool_decide (is_Some r)) results = results.
Proof.
  induction 1 as [|r rs Hr _ IH]; [reflexivity|].
  rewrite filter_cons, decide_True by now apply Is_true_true, bool_decide_eq_true.
  now rewrite IH.
Qed.

(** X21.  [_fill_pool] never fills beyond the size of the pool: it keeps
    the tokens it has, adds one valid token for each acquisition that
    succeeded among the [pool_size - valid] it awaited, and counts each
    in [tokens_created]; when all of them succeed the pool holds exactly
    [pool_size] valid tokens. *)
Theorem fill_pool_reaches_pool_size :
  forall (results : list (option pystr)) (p : pool),
    (valid_count p <= pool_size p)%nat ->
    let needed := (pool_size p - valid_count p)%nat in
    let p' := _fill_pool now results p in
    valid_count p' = (valid_count p + acquired (take needed results))%nat
    /\ (valid_count p' <= pool_size p)%nat
    /\ tokens_created (stats p')
       = (tokens_created (stats p) + acquired (take needed results))%nat
    /\ (exists new, tokens p' = tokens p ++ new)
    /\ (Forall is_Some results -> (needed <= length results)%nat ->
        valid_count p' = pool_size p).
Proof.
  intros results p Hle. cbv zeta. unfold _fill_pool.
  fold (valid_count p).
  destruct (fill_step (take (pool_size p - valid_count p) results) p)
    as (Hv & Hc & _ & new & Hnew & _).
  pose proof (acquired_le (take (pool_size p - valid_count p) results)) as Hacq.
  rewrite length_take in Hacq.
  split; [exact Hv|]. split; [lia|]. split; [exact Hc|]. split; [eauto|].
  intros Hall Hlen. rewrite Hv. unfold acquired.
  assert (Hfull : filter (fun r : option pystr => bool_decide (is_Some r))
                    (take (pool_size p - valid_count p) results)
                  = take (pool_size p - valid_count p) results).
  { apply acquired_all. now apply Forall_take. }
  rewrite Hfull, length_take. lia.
Qed.

End Pool.

Lemma rate_limited_token_is_not_reused_witness :
  snd (handle_rate_limit TokenPoolProps.long_lived 0 (TokenPoolProps.tok "a") None
         (_fill_pool 0 [Some (TokenPoolProps.tok "a"); Some (TokenPoolProps.tok "b")]
            (new_pool 3)))
  = Some (TokenPoolProps.tok "b").
Proof.
  destruct (rate_limited_token_is_not_reused TokenPoolProps.long_lived 0
              (TokenPoolProps.tok "a") None
              (_fill_pool 0 [Some (TokenPoolProps.tok "a"); Some (TokenPoolProps.tok "b")]
                 (new_pool 3)) eq_refl) as [H _].
  exact H.
Defined.

Lemma fill_pool_reaches_pool_size_witness :
  valid_count (_fill_pool 0 [Some (TokenPoolProps.tok "a"); None] (new_pool 2)) = 1%nat
  /\ valid_count (_fill_pool 0 [Some (TokenPoolProps.tok "a"); Some (TokenPoolProps.tok "b")]
                    (new_pool 2)) = 2%nat.
Proof.
  split.
  - destruct (fill_pool_reaches_pool_size 0 [Some (TokenPoolProps.tok "a"); None]
                (new_pool 2)) as [H _]; [cbn; lia|exact H].
  - destruct (fill_pool_reaches_pool_size 0
                [Some (TokenPoolProps.tok "a"); Some (TokenPoolProps.tok "b")]
                (new_pool 2)) as (_ & _ & _ & _ & H); [cbn; lia|].
    apply H; [repeat constructor; eauto|cbn; lia].
Defined.

End TokenPoolInvariants.

(** ** The stream of the Anthropic route: the OpenAI stream of the
       driver, read by the Anthropic translator
       (protobuf2openai/router.py, [anthropic_messages]) *)

Module RouteInvariants.
Import Packets SseTransform AnthropicSse.
Import StreamInvariants AnthropicInvariants.







Section Route.

Variable json : Type.
Variable embedded_todos : pystr -> option pystr.
Variable tool_match : pystr -> option pystr.
Variable count_tokens : pystr -> pystr -> nat.
Variable count_packet_tokens : packet json -> pystr -> Z.

Local Abbreviation driver :=
  (stream_openai_sse json embedded_todos tool_match count_tokens count_packet_tokens).


End Route.



End RouteInvariants.

(** ** Reading the payload of a token (warp2protobuf/core/auth.py) *)

Module Auth.
Import Codecs.

(** [s.split(sep)] for a separator of one character. *)
Fixpoint split (sep : N) (s : pystr) : list pystr :=
  match s with
  | [] => [[]]
  | c :: rest =>
      if c =? sep then [] :: split sep rest
      else match split sep rest with
           | part :: parts => (c :: part) :: parts
           | [] => [[c]]
           end
  end.

Definition dot : N := 46.

Section Payload.

(** [json.loads(payload_bytes.decode('utf-8'))]; [None] when the bytes
    are no UTF-8 or the text is no JSON. *)
Variable json : Type.
Variable json_loads : bytes -> option json.

(** [decode_jwt_payload]; [None] stands for the empty dictionary it
    returns when the token has not three parts or cannot be decoded. *)
Definition decode_jwt_payload (token : pystr) : option json :=
  match split dot token with
  | [_; payload_b64; _] =>
      let padding := (4 - length payload_b64 mod 4)%nat in
      let payload_b64 :=
        if (padding =? 4)%nat then payload_b64 else payload_b64 ++ repeat 61 padding in
      match urlsafe_b64decode payload_b64 with
      | Some payload_bytes => json_loads payload_bytes
      | None => None
      end
  | _ => None
  end.

End Payload.

End Auth.

Module AuthProps.
Import Codecs ApiClient Auth FrameRoundTrip.

(** A text without dots is one part. *)
Lemma split_no_dot (s : pystr) : Forall (fun c => c <> dot) s -> split dot s = [s].
Proof.
  induction 1 as [|c s Hc _ IH]; [reflexivity|]. cbn [split].
  rewrite (proj2 (N.eqb_neq c dot) Hc), IH. reflexivity.
Qed.

(** Parts without dots, joined by a dot. *)
Lemma split_app (s : pystr) (rest : pystr) :
  Forall (fun c => c <> dot) s -> split dot (s ++ dot :: rest) = s :: split dot rest.
Proof.
  induction 1 as [|c s Hc _ IH]; [reflexivity|]. cbn [split app].
  rewrite (proj2 (N.eqb_neq c dot) Hc), IH. reflexivity.
Qed.

(** The number of parts is one more than the number of dots. *)
Lemma split_length (s : pystr) :
  length (split dot s) = S (length (filter (fun c => c = dot) s)).
Proof.
  induction s as [|c s IH]; [reflexivity|]. cbn [split]. rewrite filter_cons.
  destruct (N.eqb_spec c dot) as [->|Hc].
  - rewrite decide_True by reflexivity. cbn [length]. now rewrite IH.
  - rewrite decide_False by exact Hc.
    destruct (split dot s) as [|part parts]; [discriminate|exact IH].
Qed.

Lemma b64encode_no_dot (urlsafe padding : bool) (b : bytes) :
  is_bytes b -> Forall (fun c => c <> dot) (b64encode urlsafe padding b).
Proof.
  intros Hb. pose proof (b64encode_ascii urlsafe padding b Hb) as Hascii.
  assert (Hchar : forall v, v < 64 -> b64_char urlsafe v <> dot).
  { intros v Hv. unfold dot.
    destruct (b64_char_cases urlsafe v Hv)
      as [[Hr He]|[[Hr He]|[[Hr He]|[[-> He]|[-> He]]]]];
      try lia; rewrite He; destruct urlsafe; lia. }
  clear Hascii. revert Hb.
  induction b as [|x|x y|x y z rest IH] using triples_ind; intros Hb.
  - constructor.
  - inversion Hb as [|? ? Hx _]; subst.
    destruct (sextets x 0 0) as (S1 & _ & _ & _ & S5 & _); [lia..|].
    cbn [b64encode app]. repeat (constructor; [now apply Hchar|]).
    destruct padding; repeat constructor; unfold dot; lia.
  - inversion Hb as [|? ? Hx Hb']; subst. inversion Hb' as [|? ? Hy _]; subst.
    destruct (sextets x y 0) as (S1 & S2 & _ & _ & _ & S6); [lia..|].
    cbn [b64encode app]. repeat (constructor; [now apply Hchar|]).
    destruct padding; repeat constructor; unfold dot; lia.
  - inversion Hb as [|? ? Hx Hb']; subst. inversion Hb' as [|? ? Hy Hb'']; subst.
    inversion Hb'' as [|? ? Hz Hrest]; subst.
    destruct (sextets x y z) as (S1 & S2 & S3 & S4 & _ & _); [assumption..|].
    cbn [b64encode]. repeat (constructor; [now apply Hchar|]). now apply IH.
Qed.

(** The padding [decode_jwt_payload] adds is the padding the frame
    decoder adds. *)
Lemma jwt_padding (s : pystr) :
  (if (4 - length s mod 4 =? 4)%nat then s else s ++ repeat 61 (4 - length s mod 4)%nat)
  = s ++ pad s.
Proof.
  unfold pad. pose proof (Nat.mod_upper_bound (length s) 4 ltac:(lia)) as Hlt.
  destruct (length s mod 4)%nat as [|[|[|[|n]]]] eqn:Hm; try lia; cbn;
    rewrite ?app_nil_r; reflexivity.
Qed.

Section Payload.

Variable json : Type.
Variable json_loads : bytes -> option json.

(** X23.  [decode_jwt_payload] reads the payload of a token of three
    parts: when the middle part is the URL-safe or standard base64 text
    of a byte string, with its padding or without, the result is what
    [json.loads] makes of these bytes, whatever the header and the
    signature are (they hold no dot).  A token that has not exactly two
    dots gives the empty payload. *)
Theorem jwt_payload_round_trip :
  forall (header signature : pystr) (urlsafe padding : bool) (payload : bytes),
    Forall (fun c => c <> dot) header ->
    Forall (fun c => c <> dot) signature ->
    is_bytes payload ->
    decode_jwt_payload json json_loads
      (header ++ dot :: b64encode urlsafe padding payload ++ dot :: signature)
    = json_loads payload
    /\ forall token,
         length (filter (fun c => c = dot) token) <> 2%nat ->
         decode_jwt_payload json json_loads token = None.
Proof.
  intros header signature urlsafe padding payload Hh Hs Hb. split.
  - unfold decode_jwt_payload.
    rewrite (split_app header _ Hh),
      (split_app (b64encode urlsafe padding payload) _
         (b64encode_no_dot urlsafe padding payload Hb)),
      (split_no_dot signature Hs).
    cbv zeta. rewrite jwt_padding. unfold urlsafe_b64decode.
    rewrite is_ascii_forall
      by (apply Forall_app; split; [now apply b64encode_ascii|apply pad_ascii]).
    change (fun c : N => if c =? 45 then 43 else if c =? 95 then 47 else c)
      with to_standard.
    now rewrite (repaired urlsafe padding payload Hb), (a2b_base64_encode payload Hb []).
  - intros token Hdots. unfold decode_jwt_payload.
    pose proof (split_length token) as Hlen.
    destruct (split dot token) as [|p1 [|p2 [|p3 [|p4 parts]]]]; try reflexivity.
    cbn [length] in Hlen. lia.
Qed.

End Payload.

Lemma jwt_payload_round_trip_witness :
  decode_jwt_payload (list N) (fun b => Some b) (py "hdr.e30.sig") = Some (py "{}").
Proof.
  destruct (jwt_payload_round_trip (list N) (fun b => Some b) (py "hdr") (py "sig")
              true false (py "{}")) as [H _].
  - repeat constructor; discriminate.
  - repeat constructor; discriminate.
  - repeat constructor.
  - exact H.
Defined.

End AuthProps.
